(** * SLATE: bulge chasing (hb2td), the LQ update (unmlq) and the GPU-aware-MPI flag

    A shallow embedding of three pieces of the SLATE sources:

    - [include/slate/config.hh]: the lazily probed, cached flag
      [gpu_aware_mpi] (module [Config]);
    - [src/hb2td.cc]: the step function [hb2td_step], the per-thread driver
      [hb2td_run] and the thread team started by [hb2td] (module [Hb2td]);
    - [src/internal/internal_unmlq.cc]: the shape checks, the local-row
      detection and the workspace bookkeeping of [unmlq] (module [Unmlq]).

    The first part of the file holds the models, the second part the
    properties proved about them, the third part further properties of the
    same code: the order and the progress of the thread team, the effect of
    a step on the reflector store, and the kernel calls of [unmlq].

    Conventions.  A C++ [int64_t] is a [Z]; the quantities involved are
    matrix extents, sweep and step numbers, far from the 64-bit range, and
    signed overflow is undefined in C++ anyway, so no wrap-around is
    modelled.  C++ [/] and [%] truncate toward zero: they are [Z.quot]
    and [Z.rem], and both are undefined for a zero divisor, which the model
    reports as the error [DivByZero]. *)

From Stdlib Require Import ZArith Lia List Bool String Ascii.
From stdpp Require Import base option list gmap sets strings sorting.

Local Open Scope Z_scope.

(* ===================================================================== *)
(** * Part I: the models                                                  *)
(* ===================================================================== *)

(* --------------------------------------------------------------------- *)
(** ** config.hh                                                          *)
(* --------------------------------------------------------------------- *)

Module Config.

(** The process environment, as [getenv] sees it. *)
Abbreviation environ := (gmap string string).

Definition getenv (name : string) (env : environ) : option string :=
  env !! name.

(** A C string holds no NUL character: the first NUL ends it. *)
Definition c_string (s : string) : Prop :=
  ∀ c, In c (list_ascii_of_string s) → c ≠ Ascii.zero.

Definition byte_val (c : ascii) : Z := Z.of_N (N_of_ascii c).

(** [strcmp]: the difference of the first pair of bytes that differ, the
    end of a string counting as the byte 0. *)
Fixpoint strcmp (a b : string) : Z :=
  match a, b with
  | EmptyString, EmptyString => 0
  | EmptyString, String d _ => 0 - byte_val d
  | String c _, EmptyString => byte_val c - 0
  | String c a', String d b' =>
      if Ascii.eqb c d then strcmp a' b' else byte_val c - byte_val d
  end.

(** The class [GPU_Aware_MPI]: its only datum is the cached flag. *)
Record GPU_Aware_MPI := { gpu_aware_mpi_ : bool }.

Definition SLATE_GPU_AWARE_MPI : string := "SLATE_GPU_AWARE_MPI".

(** The constructor probes the environment. *)
Definition ctor (env : environ) : GPU_Aware_MPI :=
  {| gpu_aware_mpi_ :=
       match getenv SLATE_GPU_AWARE_MPI env with
       | None => false
       | Some e => (strcmp e "" =? 0) || (strcmp e "1" =? 0)
       end |}.

(** The function-local static of [get]: [None] until the first call, which
    runs the constructor; later calls return the same object. *)
Abbreviation singleton := (option GPU_Aware_MPI).

Definition get (env : environ) (st : singleton) : GPU_Aware_MPI * singleton :=
  match st with
  | Some o => (o, st)
  | None => let o := ctor env in (o, Some o)
  end.

(** [GPU_Aware_MPI::value()] and [GPU_Aware_MPI::value( bool )]. *)
Definition value (env : environ) (st : singleton) : bool * singleton :=
  let '(o, st') := get env st in (gpu_aware_mpi_ o, st').

Definition value_set (val : bool) (env : environ) (st : singleton) : singleton :=
  let '(_, _) := get env st in Some {| gpu_aware_mpi_ := val |}.

(** The two free functions. *)
Definition gpu_aware_mpi (env : environ) (st : singleton) : bool * singleton :=
  value env st.

Definition gpu_aware_mpi_set (val : bool) (env : environ) (st : singleton)
  : singleton :=
  value_set val env st.

(** What a process does that matters here: it queries the flag, overrides
    it, or changes its environment ([None] unsets the variable). *)
Inductive event :=
| Query
| Override (val : bool)
| Setenv (name : string) (val : option string).

Definition setenv (name : string) (val : option string) (env : environ)
  : environ :=
  match val with
  | Some v => <[name := v]> env
  | None => delete name env
  end.

(** The answers to the queries of a run, in order. *)
Fixpoint run (evs : list event) (env : environ) (st : singleton) : list bool :=
  match evs with
  | [] => []
  | Query :: evs' =>
      let '(b, st') := gpu_aware_mpi env st in b :: run evs' env st'
  | Override val :: evs' => run evs' env (gpu_aware_mpi_set val env st)
  | Setenv name val :: evs' => run evs' (setenv name val env) st
  end.

Definition is_override (e : event) : bool :=
  match e with Override _ => true | _ => false end.

End Config.

(* --------------------------------------------------------------------- *)
(** ** hb2td.cc                                                           *)
(* --------------------------------------------------------------------- *)

Module Hb2td.

Inductive error :=
| DivByZero        (* integer division or remainder by zero *)
| LengthError      (* std::vector built with a negative length *)
| OutOfRange       (* std::vector::at outside the vector *)
| NonTermination.  (* a loop whose counter does not advance *)

Inductive res (X : Type) :=
| Ok (x : X)
| Err (e : error).
Arguments Ok {X} x.
Arguments Err {X} e.

(** Modelled from the spec: the tile kernels [hebr1], [hebr2], [hebr3]
    (declared in internal/internal.hh, not part of the sources at hand) are
    "elementary tile kernels consumed as primitive operations".  Each works
    on a slice of the band matrix and on reflector vectors: [hebr1] produces
    a reflector, [hebr2] consumes one and produces one, [hebr3] consumes
    one.  A slice is given by its inclusive index bounds. *)
Class Kernels := {
  scalar : Type;
  data : Type;
  hebr1 : Z * Z → data → list scalar → data * list scalar;
  hebr2 : list scalar → Z * Z * Z * Z → data → list scalar
          → data * list scalar;
  hebr3 : list scalar → Z * Z → data → data
}.

(** Modelled from the spec: of [HermitianMatrix] (slate/HermitianMatrix.hh,
    not part of the sources at hand) the code uses the order [n()] and
    slices of the contents. *)
Record HermitianMatrix `{Kernels} := {
  A_n : Z;
  A_data : data
}.

Abbreviation Reflectors := (gmap (Z * Z) (list scalar)).

(** [reflectors[key]]: [std::map::operator[]] value-initialises the entry
    when the key is absent. *)
Definition subscript `{Kernels} (key : Z * Z) (R : Reflectors)
  : list scalar * Reflectors :=
  match R !! key with
  | Some v => (v, R)
  | None => ([], <[key := []]> R)
  end.

(** Lines 91-92. *)
Definition task_of (step : Z) : Z :=
  if step =? 0 then 0 else Z.rem (step + 1) 2 + 1.

Definition block_of (step : Z) : Z := step ÷ 2.

(** The coordinates [i], [j] set by each [case]; no [case] matches a task
    other than 0, 1, 2, and then [i], [j] are never assigned. *)
Definition coords (band sweep step : Z) : option (Z * Z) :=
  let task := task_of step in
  let block := block_of step in
  if task =? 0 then Some (sweep, sweep)
  else if task =? 1 then
    Some ((block + 1) * (band - 1) + 1 + sweep, block * (band - 1) + 1 + sweep)
  else if task =? 2 then
    Some (block * (band - 1) + 1 + sweep, block * (band - 1) + 1 + sweep)
  else None.

(** The guard [i < A.n() && j < A.n()] of every [case]. *)
Definition in_range (n : Z) (ij : Z * Z) : bool :=
  (ij.1 <? n) && (ij.2 <? n).

(** The store key a step consumes ([v1] of task 1, [v] of task 2) and the
    one it produces ([v] of task 0, [v2] of task 1). *)
Definition consumed_key (band sweep step : Z) : option (Z * Z) :=
  match coords band sweep step with
  | Some (i, j) =>
      if task_of step =? 1 then
        Some (i - (band - 1), if step =? 1 then j - 1 else j - (band - 1))
      else if task_of step =? 2 then Some (i, j - (band - 1))
      else None
  | None => None
  end.

Definition produced_key (band sweep step : Z) : option (Z * Z) :=
  match coords band sweep step with
  | Some (i, j) =>
      if task_of step =? 0 then Some (i + 1, j)
      else if task_of step =? 1 then Some (i, j)
      else None
  | None => None
  end.

(** [hb2td_step], lines 86-141.  The lock only brackets the two lookups. *)
Definition hb2td_step `{Kernels} (A : HermitianMatrix) (band sweep step : Z)
    (reflectors : Reflectors) : HermitianMatrix * Reflectors :=
  let task := task_of step in
  let block := block_of step in
  let n := A_n A in
  if task =? 0 then
    let i := sweep in
    let j := sweep in
    if (i <? n) && (j <? n) then
      let '(v, R1) := subscript (i + 1, j) reflectors in
      let '(d, v') := hebr1 (i, Z.min (i + band - 1) (n - 1)) (A_data A) v in
      ({| A_n := n; A_data := d |}, <[(i + 1, j) := v']> R1)
    else (A, reflectors)
  else if task =? 1 then
    let i := (block + 1) * (band - 1) + 1 + sweep in
    let j := block * (band - 1) + 1 + sweep in
    if (i <? n) && (j <? n) then
      let '(v1, R1) :=
        subscript (i - (band - 1),
                   if step =? 1 then j - 1 else j - (band - 1)) reflectors in
      let '(v2, R2) := subscript (i, j) R1 in
      let '(d, v2') :=
        hebr2 v1 (i, Z.min (i + band - 2) (n - 1),
                  j, Z.min (j + band - 2) (n - 1)) (A_data A) v2 in
      ({| A_n := n; A_data := d |}, <[(i, j) := v2']> R2)
    else (A, reflectors)
  else if task =? 2 then
    let i := block * (band - 1) + 1 + sweep in
    let j := block * (band - 1) + 1 + sweep in
    if (i <? n) && (j <? n) then
      let '(v, R1) := subscript (i, j - (band - 1)) reflectors in
      let d := hebr3 v (i, Z.min (i + band - 2) (n - 1)) (A_data A) in
      ({| A_n := n; A_data := d |}, R1)
    else (A, reflectors)
  else (A, reflectors).

(** A sequence of steps, given as (sweep, step) pairs, run one after the
    other. *)
Fixpoint run_steps `{Kernels} (A : HermitianMatrix) (band : Z)
    (hist : list (Z * Z)) (reflectors : Reflectors)
  : HermitianMatrix * Reflectors :=
  match hist with
  | [] => (A, reflectors)
  | (sweep, step) :: hist' =>
      let '(A', R') := hb2td_step A band sweep step reflectors in
      run_steps A' band hist' R'
  end.

(** *** The per-thread driver [hb2td_run]

    Which steps a thread runs, and in which order, does not depend on the
    shared state: the progress table only delays a step.  [hb2td_run]
    is therefore modelled as the list of loop bodies (lines 197-214) it
    goes through, one [task] per body, together with the way the loops end;
    the bodies themselves are executed by [exec_thread] below. *)

Record task := {
  t_sweep : Z;
  t_step : Z;
  t_nsteps_last : Z   (* the local [nsteps_last] of that iteration *)
}.

Definition key (t : task) : Z * Z := (t_sweep t, t_step t).

(** Computations that issue tasks and may stop with an error. *)
Definition M (X : Type) : Type := list task * res X.

Definition ret {X} (x : X) : M X := ([], Ok x).

Definition bind {X Y} (m : M X) (f : X → M Y) : M Y :=
  match m with
  | (l, Ok x) => let '(l', r) := f x in (l ++ l', r)
  | (l, Err e) => (l, Err e)
  end.

Definition issue (t : task) : M unit := ([t], Ok tt).

Definition throw {X} (e : error) : M X := ([], Err e).

Definition lift {X} (o : option X) (e : error) : M X :=
  match o with
  | Some x => ret x
  | None => throw e
  end.

Notation "'let!' x ':=' m 'in' k" := (bind m (fun x => k))
  (at level 10, x name, m at level 100, k at level 200, only parsing).

Definition issued {X} (m : M X) : list task := m.1.
Definition ending {X} (m : M X) : res X := m.2.

(** Modelled from the spec: [ceildiv] (internal/internal_util.hh, not part
    of the sources at hand) is the integer ceiling of a quotient,
    "pass_size = ceil(thread_count/3)", computed with the truncating
    integer division as [(x + y - 1) / y]. *)
Definition ceildiv (x y : Z) : option Z :=
  if y =? 0 then None else Some ((x + y - 1) ÷ y).

(** The C++ remainder. *)
Definition c_rem (x y : Z) : option Z :=
  if y =? 0 then None else Some (Z.rem x y).

(** [for (i = first; i < bound; i += stride) s = body(i, s)].  [fuel]
    bounds the number of iterations; a loop that needs more does not
    terminate within it. *)
Fixpoint for_stride {S : Type} (fuel : nat) (i bound stride : Z)
    (body : Z → S → M S) (s : S) : M S :=
  if i <? bound then
    match fuel with
    | O => throw NonTermination
    | Datatypes.S fuel' =>
        let! s' := body i s in
        for_stride fuel' (i + stride) bound stride body s'
    end
  else ret s.

Section Run.

Variables band diag_len pass_size : Z.
Variables thread_rank thread_size : Z.

(** [2*ceildiv(diag_len - 1 - sweep, band-1) - 1], the expression of
    [nsteps_pass], [nsteps_sweep] and (at [sweep-1]) [nsteps_last]. *)
Definition nsteps (sweep : Z) : option Z :=
  c ← ceildiv (diag_len - 1 - sweep) (band - 1); Some (2 * c - 1).

(** Lines 194-214: one iteration of the innermost loop. *)
Definition sweep_body (step sweep : Z) (_ : unit) : M unit :=
  let! nsteps_sweep := lift (nsteps sweep) DivByZero in
  let! nsteps_last := lift (nsteps (sweep - 1)) DivByZero in
  if step <? nsteps_sweep then
    issue {| t_sweep := sweep; t_step := step; t_nsteps_last := nsteps_last |}
  else ret tt.

(** Lines 193-215. *)
Definition sweep_loop (pass sweep_end step : Z) (_ : unit) : M unit :=
  for_stride (Z.to_nat (sweep_end - pass)) pass sweep_end 1
    (sweep_body step) tt.

(** Lines 187-218: one pass; the loop state is [start_thread]. *)
Definition pass_body (pass start_thread : Z) : M Z :=
  let sweep_end := Z.min (pass + pass_size) (diag_len - 2) in
  let! nsteps_pass := lift (nsteps pass) DivByZero in
  let! step_begin :=
    lift (c_rem (thread_rank - start_thread + thread_size) thread_size)
      DivByZero in
  let! _ := for_stride (Z.to_nat nsteps_pass) step_begin nsteps_pass
                thread_size (sweep_loop pass sweep_end) tt in
  lift (c_rem (start_thread + nsteps_pass) thread_size) DivByZero.

(** [hb2td_run], lines 174-220. *)
Definition hb2td_run : M Z :=
  for_stride (Z.to_nat (diag_len - 2)) 0 (diag_len - 2) pass_size pass_body 0.

End Run.

(** *** The thread team of [hb2td] and its interleavings *)

(** Where a thread stands inside the loop body it is executing. *)
Inductive phase :=
| WaitPrev    (* line 198: before the wait on sweep-1 *)
| WaitSelf    (* line 204: before the wait on step-1 *)
| RunStep     (* line 209: before the call of hb2td_step *)
| StoreDone.  (* line 213: before progress.at(sweep).store(step) *)

Record thread := {
  th_phase : phase;
  th_tasks : list task;   (* the bodies still to run, the current one first *)
  th_exit : res Z         (* how hb2td_run ends after the last of them *)
}.

Record sys `{Kernels} := {
  progress : list Z;
  mat : HermitianMatrix;
  reflectors : Reflectors;
  threads : list thread;
  steps_done : list (Z * Z)   (* the calls of hb2td_step so far, (sweep, step) *)
}.

(** [progress.at(k).load()]: [None] stands for [std::out_of_range]. *)
Definition load_at (p : list Z) (k : Z) : option Z :=
  if 0 <=? k then p !! Z.to_nat k else None.

(** [progress.at(k).store(v)]. *)
Definition store_at (p : list Z) (k v : Z) : option (list Z) :=
  if (0 <=? k) && (k <? Z.of_nat (length p))
  then Some (<[Z.to_nat k := v]> p) else None.

Inductive outcome `{Kernels} :=
| Advance (σ : sys)   (* the thread moved to its next program point *)
| Spin                (* the wait loop read a value below its threshold *)
| Finished            (* hb2td_run has returned *)
| Throw (e : error).

Definition set_thread `{Kernels} (t : nat) (th : thread) (σ : sys) : sys :=
  {| progress := progress σ; mat := mat σ; reflectors := reflectors σ;
     threads := <[t := th]> (threads σ); steps_done := steps_done σ |}.

(** One atomic action of thread [t]: a load of the progress table compared
    with its threshold, a call of [hb2td_step], or a store. *)
Definition exec_thread `{Kernels} (band : Z) (t : nat) (σ : sys) : outcome :=
  match threads σ !! t with
  | None => Finished
  | Some th =>
      match th_tasks th with
      | [] => match th_exit th with Ok _ => Finished | Err e => Throw e end
      | tk :: rest =>
          let sweep := t_sweep tk in
          let step := t_step tk in
          let at_phase ph :=
            {| th_phase := ph; th_tasks := tk :: rest; th_exit := th_exit th |} in
          match th_phase th with
          | WaitPrev =>
              if 0 <? sweep then
                let depend := Z.min (step + 2) (t_nsteps_last tk - 1) in
                match load_at (progress σ) (sweep - 1) with
                | None => Throw OutOfRange
                | Some v =>
                    if v <? depend then Spin
                    else Advance (set_thread t (at_phase WaitSelf) σ)
                end
              else Advance (set_thread t (at_phase WaitSelf) σ)
          | WaitSelf =>
              if 0 <? step then
                match load_at (progress σ) sweep with
                | None => Throw OutOfRange
                | Some v =>
                    if v <? step - 1 then Spin
                    else Advance (set_thread t (at_phase RunStep) σ)
                end
              else Advance (set_thread t (at_phase RunStep) σ)
          | RunStep =>
              let '(A', R') :=
                hb2td_step (mat σ) band sweep step (reflectors σ) in
              Advance
                {| progress := progress σ; mat := A'; reflectors := R';
                   threads := <[t := at_phase StoreDone]> (threads σ);
                   steps_done := steps_done σ ++ [(sweep, step)] |}
          | StoreDone =>
              match store_at (progress σ) sweep step with
              | None => Throw OutOfRange
              | Some p' =>
                  Advance
                    {| progress := p'; mat := mat σ;
                       reflectors := reflectors σ;
                       threads :=
                         <[t := {| th_phase := WaitPrev; th_tasks := rest;
                                   th_exit := th_exit th |}]> (threads σ);
                       steps_done := steps_done σ |}
              end
          end
      end
  end.

(** One step of the team: some thread advances. *)
Definition sys_step `{Kernels} (band : Z) (σ σ' : sys) : Prop :=
  ∃ t, exec_thread band t σ = Advance σ'.

(** A schedule names the thread that acts next; a thread that cannot
    advance leaves the state as it is. *)
Fixpoint run_schedule `{Kernels} (band : Z) (sched : list nat) (σ : sys) : sys :=
  match sched with
  | [] => σ
  | t :: sched' =>
      match exec_thread band t σ with
      | Advance σ' => run_schedule band sched' σ'
      | _ => run_schedule band sched' σ
      end
  end.

(** [hb2td] (specialization), lines 227-271.  [thread_size] is the value of
    [omp_get_max_threads()].  The progress table is built with
    [diag_len-2] counters, which fails for a negative count, and every
    counter is set to -1 before the team starts; each [thread_rank] runs
    [hb2td_run] in a thread of its own. *)
Definition spawn (band diag_len pass_size thread_size : Z) (rank : Z) : thread :=
  let r := hb2td_run band diag_len pass_size rank thread_size in
  {| th_phase := WaitPrev; th_tasks := issued r; th_exit := ending r |}.

Definition hb2td_init `{Kernels} (A : HermitianMatrix) (band thread_size : Z)
  : res sys :=
  let diag_len := A_n A in
  if diag_len - 2 <? 0 then Err LengthError
  else
    let progress0 := replicate (Z.to_nat (diag_len - 2)) (-1) in
    match ceildiv thread_size 3 with
    | None => Err DivByZero
    | Some pass_size =>
        Ok {| progress := progress0; mat := A; reflectors := ∅;
              threads :=
                spawn band diag_len pass_size thread_size
                  <$> seqZ 0 thread_size;
              steps_done := [] |}
    end.

(** The call has returned normally when every thread has. *)
Definition returned `{Kernels} (σ : sys) : Prop :=
  ∀ t th, threads σ !! t = Some th →
          th_tasks th = [] ∧ ∃ z, th_exit th = Ok z.

(** The call is aborted when some thread stops with an error. *)
Definition aborts `{Kernels} (band : Z) (σ : sys) : Prop :=
  ∃ t e, exec_thread band t σ = Throw e.

End Hb2td.

(* --------------------------------------------------------------------- *)
(** ** internal_unmlq.cc                                                  *)
(* --------------------------------------------------------------------- *)

Module Unmlq.

Inductive Side := Left | Right.
Inductive Op := NoTrans | Trans | ConjTrans.
Inductive Target := HostTask | HostNest | HostBatch | Devices.
Inductive Uplo := Upper | Lower.
Inductive Diag := Unit | NonUnit.

(** Modelled from the spec: the tile-matrix views ([Matrix],
    slate/Matrix.hh and slate/BaseMatrix.hh, not part of the sources at
    hand), as far as "the tile-matrix capability interface" is used by
    [unmlq]: a view is a window of tile rows and tile columns on a stored
    matrix, "a grid of MT x NT tiles", with the "per-tile row/column
    extent" of each, and the "per-tile ownership query" of the calling rank,
    which views of one matrix share.  Tiles are named by their index in the
    stored matrix. *)
Record Matrix := {
  ioffset : Z;            (* the tile row of the stored matrix at row 0 *)
  joffset : Z;            (* the tile column of the stored matrix at column 0 *)
  mbs : list Z;           (* the extents of the tile rows of the view *)
  nbs : list Z;           (* the extents of the tile columns of the view *)
  owned : Z → Z → bool    (* whether the rank owns a tile of the stored matrix *)
}.

Definition sum_list (l : list Z) : Z := foldr Z.add 0 l.

Definition mt (A : Matrix) : Z := Z.of_nat (length (mbs A)).
Definition nt (A : Matrix) : Z := Z.of_nat (length (nbs A)).
Definition m (A : Matrix) : Z := sum_list (mbs A).
Definition n (A : Matrix) : Z := sum_list (nbs A).
Definition tileMb (A : Matrix) (i : Z) : Z := nth (Z.to_nat i) (mbs A) 0.
Definition tileNb (A : Matrix) (j : Z) : Z := nth (Z.to_nat j) (nbs A) 0.

Definition tileIsLocal (A : Matrix) (i j : Z) : bool :=
  owned A (ioffset A + i) (joffset A + j).

(** The tile of the stored matrix behind tile (i, j) of a view. *)
Definition tile_of (A : Matrix) (i j : Z) : Z * Z :=
  (ioffset A + i, joffset A + j).

(** A default-constructed [Matrix]. *)
Definition empty_matrix : Matrix :=
  {| ioffset := 0; joffset := 0; mbs := []; nbs := [];
     owned := λ _ _, false |}.

(** [A.sub(i1, i2, j1, j2)]: "sub-matrix view by tile-row/column range",
    both ends included. *)
Definition sub (A : Matrix) (i1 i2 j1 j2 : Z) : Matrix :=
  {| ioffset := ioffset A + i1;
     joffset := joffset A + j1;
     mbs := take (Z.to_nat (i2 - i1 + 1)) (drop (Z.to_nat i1) (mbs A));
     nbs := take (Z.to_nat (j2 - j1 + 1)) (drop (Z.to_nat j1) (nbs A));
     owned := owned A |}.

(** How many elements of each tile, the first starting at offset [off],
    fall in the element range [a..b]. *)
Fixpoint overlap (ext : list Z) (off a b : Z) : list Z :=
  match ext with
  | [] => []
  | e :: ext' =>
      (Z.min (off + e - 1) b - Z.max off a + 1) :: overlap ext' (off + e) a b
  end.

(** The number of tiles before the first one that meets the range. *)
Fixpoint leading_misses (o : list Z) : Z :=
  match o with
  | [] => 0
  | e :: o' => if 0 <? e then 0 else 1 + leading_misses o'
  end.

(** The tiles that meet the element range [a..b]: how many tiles come
    before them, and what the range leaves of each of them. *)
Definition slice_extents (ext : list Z) (a b : Z) : Z * list Z :=
  let o := overlap ext 0 a b in
  (leading_misses o, filter (λ e, 0 < e) o).

(** [A.slice(row1, row2, col1, col2)]: the "finer-grained element-range
    slice", both ends included; the view keeps the tiles the range meets,
    cut down to the range. *)
Definition slice (A : Matrix) (row1 row2 col1 col2 : Z) : Matrix :=
  let '(i1, mbs') := slice_extents (mbs A) row1 row2 in
  let '(j1, nbs') := slice_extents (nbs A) col1 col2 in
  {| ioffset := ioffset A + i1; joffset := joffset A + j1;
     mbs := mbs'; nbs := nbs'; owned := owned A |}.

(** An operand as the kernels take it: a view, possibly under
    [conj_transpose], possibly read as a triangular matrix. *)
Inductive operand :=
| Plain (A : Matrix)
| ConjTransposed (A : Matrix).

Record TriangularMatrix := {
  tri_uplo : Uplo;
  tri_diag : Diag;
  tri_of : operand
}.

Definition conj_transpose (A : operand) : operand :=
  match A with
  | Plain A => ConjTransposed A
  | ConjTransposed A => Plain A
  end.

Definition conj_transpose_tri (A : TriangularMatrix) : TriangularMatrix :=
  {| tri_uplo := match tri_uplo A with Upper => Lower | Lower => Upper end;
     tri_diag := tri_diag A;
     tri_of := conj_transpose (tri_of A) |}.

(** The calls [unmlq] makes into the rest of the library. *)
Inductive kernel_call :=
| tileGetAllForWriting (A : Matrix)
| tileGetAndHoldAllOnDevices (A : Matrix)
| copy (src dst : Matrix)
| trmm (side : Side) (alpha : Z) (A : TriangularMatrix) (B : Matrix)
| gemm (target : Target) (alpha : Z) (A B : operand) (beta : Z) (C : Matrix)
| geadd (alpha : Z) (A : Matrix) (beta : Z) (B : Matrix).

(** Modelled from the spec: the "elementary tile kernels (triangular solve,
    general matrix multiply, matrix add)" and the bulk tile movement
    (internal/internal.hh, not part of the sources at hand) are "consumed as
    primitive operations": they act on the contents and the placement of
    tiles that exist. *)
Class TileKernels := {
  contents : Type;
  kernel : kernel_call → contents → contents
}.

(** What happens to the tiles of the stored workspace matrix. *)
Inductive tile_event :=
| Inserted (ij : Z * Z)
| Erased (ij : Z * Z).

Record state `{TileKernels} := {
  W_live : gset (Z * Z);        (* the tiles of W that exist *)
  journal : list tile_event;    (* insertions and erasures, in order *)
  tiles : contents              (* everything the kernels act on *)
}.

Definition run_kernel `{TileKernels} (c : kernel_call) (st : state) : state :=
  {| W_live := W_live st; journal := journal st;
     tiles := kernel c (tiles st) |}.

(** The tiles of a view the rank owns, column by column. *)
Definition local_tiles (A : Matrix) : list (Z * Z) :=
  j ← seqZ 0 (nt A);
  i ← seqZ 0 (mt A);
  if tileIsLocal A i j then [tile_of A i j] else [].

(** [A.insertLocalTiles()] on a view of W: "on-demand local tile
    allocation". *)
Definition insertLocalTiles `{TileKernels} (A : Matrix) (st : state) : state :=
  {| W_live := W_live st ∪ list_to_set (local_tiles A);
     journal := journal st ++ (Inserted <$> local_tiles A);
     tiles := tiles st |}.

(** [A.tileErase(i, j)] on a view of W: the "explicit tile eviction/erase
    operation". *)
Definition tileErase `{TileKernels} (A : Matrix) (i j : Z) (st : state)
  : state :=
  {| W_live := W_live st ∖ {[ tile_of A i j ]};
     journal := journal st ++ [Erased (tile_of A i j)];
     tiles := tiles st |}.

Inductive outcome `{TileKernels} :=
| Returned (st : state)
| AssertionFailed.

(** [assert(b)], with assertions compiled in. *)
Definition assert `{TileKernels} (b : bool) (k : outcome) : outcome :=
  if b then k else AssertionFailed.

(** Lines 107-116 and 284-293: the tile rows (columns) of C with a local
    tile. *)
Definition local_rows (C : Matrix) : list Z :=
  filter (λ i, existsb (λ j, tileIsLocal C i j) (seqZ 0 (nt C)))
    (seqZ 0 (mt C)).

Definition local_cols (C : Matrix) : list Z :=
  filter (λ j, existsb (λ i, tileIsLocal C i j) (seqZ 0 (mt C)))
    (seqZ 0 (nt C)).

(** Lines 267-271 and 443-447: the loops that free the workspace. *)
Definition erase_row `{TileKernels} (Wr : Matrix) (st : state) : state :=
  foldl (λ st j, if tileIsLocal Wr 0 j then tileErase Wr 0 j st else st)
    st (seqZ 0 (nt Wr)).

Definition erase_col `{TileKernels} (Wc : Matrix) (st : state) : state :=
  foldl (λ st i, if tileIsLocal Wc i 0 then tileErase Wc i 0 st else st)
    st (seqZ 0 (mt Wc)).

Definition run_kernels `{TileKernels} (cs : list kernel_call) (st : state)
  : state :=
  foldl (λ st c, run_kernel c st) st cs.

(** The left case, lines 96-272.  The views are computed as the code
    computes them; the calls into the kernels are listed in the order in
    which the code makes them. *)
Definition unmlq_left `{TileKernels} (target : Target) (op : Op)
    (V T C W : Matrix) (st : state) : outcome :=
  let mt := mt C in
  let nt := nt C in
  assert (Unmlq.nt V =? mt) (
  let row_indices := local_rows C in
  match row_indices with
  | [] => Returned st
  | first :: others =>
      assert (first <? mt) (
      assert (0 <=? first) (
      let Wr := sub W first first 0 (nt - 1) in
      let st := insertLocalTiles Wr st in
      let V0 := sub V 0 0 first first in
      let mb := tileMb V0 0 in
      let nb := tileNb V0 0 in
      let T0 := sub T 0 0 first first in
      let T0 := slice T0 0 (Z.min mb nb - 1) 0 (Z.min mb nb - 1) in
      let C0 := sub C first first 0 (nt - 1) in
      (* a tall V0: keep the first nb rows of V *)
      let tall := nb <? mb in
      let V := if tall then slice V 0 (nb - 1) 0 (n V - 1) else V in
      let V0 := if tall then sub V 0 0 first first else V0 in
      let mb := if tall then nb else mb in
      (* a wide V0: split off the rectangular part *)
      let trapezoid := mb <? nb in
      let n := n C0 in
      let V0b := if trapezoid then slice V0 0 (mb - 1) mb (nb - 1)
                 else empty_matrix in
      let V0' := if trapezoid then slice V0 0 (mb - 1) 0 (mb - 1) else V0 in
      let T0 := if trapezoid then slice T0 0 (mb - 1) 0 (mb - 1) else T0 in
      let C0b := if trapezoid then slice C0 mb (nb - 1) 0 (n - 1)
                 else empty_matrix in
      let C0' := if trapezoid then slice C0 0 (mb - 1) 0 (n - 1) else C0 in
      let Wr := if trapezoid then slice Wr 0 (mb - 1) 0 (n - 1) else Wr in
      let V0tr :=
        {| tri_uplo := Upper; tri_diag := Unit; tri_of := Plain V0' |} in
      let T0tr :=
        {| tri_uplo := Upper; tri_diag := NonUnit; tri_of := Plain T0 |} in
      let T0tr :=
        match op with NoTrans => conj_transpose_tri T0tr | _ => T0tr end in
      let calls :=
        [tileGetAllForWriting C0]
        (* 1. W = V C *)
        ++ [copy C0' Wr; trmm Left 1 V0tr Wr]
        ++ (if trapezoid
            then [gemm HostTask 1 (Plain V0b) (Plain C0b) 1 Wr] else [])
        ++ (row ← others;
            let Ci := sub C row row 0 (nt - 1) in
            (match target with
             | Devices => [tileGetAndHoldAllOnDevices Ci]
             | _ => []
             end)
            ++ [gemm target 1 (Plain (sub V 0 0 row row)) (Plain Ci) 1 Wr])
        (* 2. W = op(T0) W *)
        ++ [trmm Left 1 T0tr Wr]
        (* 3. C = C - V^H W *)
        ++ (match others with
            | row1 :: _ =>
                [gemm target (-1)
                   (ConjTransposed (sub V 0 0 row1 (mt - 1))) (Plain Wr)
                   1 (sub C row1 (mt - 1) 0 (nt - 1))]
            | [] => []
            end)
        ++ (if trapezoid
            then [gemm HostTask (-1) (ConjTransposed V0b) (Plain Wr) 1 C0b]
            else [])
        ++ [trmm Left 1 (conj_transpose_tri V0tr) Wr; geadd (-1) Wr 1 C0'] in
      let st := run_kernels calls st in
      (* free workspace *)
      Returned (erase_row Wr st)))
  end).

(** The right case, lines 273-448. *)
Definition unmlq_right `{TileKernels} (target : Target) (op : Op)
    (V T C W : Matrix) (st : state) : outcome :=
  let mt := mt C in
  let nt := nt C in
  assert (Unmlq.nt V =? nt) (
  let col_indices := local_cols C in
  match col_indices with
  | [] => Returned st
  | first :: others =>
      assert (first <? nt) (
      assert (0 <=? first) (
      let Wc := sub W 0 (mt - 1) first first in
      let st := insertLocalTiles Wc st in
      let V0 := sub V 0 0 first first in
      let mb := tileMb V0 0 in
      let nb := tileNb V0 0 in
      let T0 := sub T 0 0 first first in
      let T0 := slice T0 0 (Z.min mb nb - 1) 0 (Z.min mb nb - 1) in
      let C0 := sub C 0 (mt - 1) first first in
      let tall := nb <? mb in
      let V := if tall then slice V 0 (nb - 1) 0 (n V - 1) else V in
      let V0 := if tall then sub V 0 0 first first else V0 in
      let mb := if tall then nb else mb in
      let trapezoid := mb <? nb in
      let m := m C0 in
      let V0b := if trapezoid then slice V0 0 (mb - 1) mb (nb - 1)
                 else empty_matrix in
      let V0' := if trapezoid then slice V0 0 (mb - 1) 0 (mb - 1) else V0 in
      let T0 := if trapezoid then slice T0 0 (mb - 1) 0 (mb - 1) else T0 in
      let C0b := if trapezoid then slice C0 0 (m - 1) mb (nb - 1)
                 else empty_matrix in
      let C0' := if trapezoid then slice C0 0 (m - 1) 0 (mb - 1) else C0 in
      let Wc := if trapezoid then slice Wc 0 (m - 1) 0 (mb - 1) else Wc in
      let V0tr :=
        {| tri_uplo := Upper; tri_diag := Unit; tri_of := Plain V0' |} in
      let T0tr :=
        {| tri_uplo := Upper; tri_diag := NonUnit; tri_of := Plain T0 |} in
      let T0tr :=
        match op with NoTrans => conj_transpose_tri T0tr | _ => T0tr end in
      let calls :=
        [tileGetAllForWriting C0]
        (* 1. W = C V^H *)
        ++ [copy C0' Wc; trmm Right 1 (conj_transpose_tri V0tr) Wc]
        ++ (if trapezoid
            then [gemm HostTask 1 (Plain C0b) (ConjTransposed V0b) 1 Wc]
            else [])
        ++ (col ← others;
            let Ci := sub C 0 (mt - 1) col col in
            (match target with
             | Devices => [tileGetAndHoldAllOnDevices Ci]
             | _ => []
             end)
            ++ [gemm target 1 (Plain Ci)
                  (ConjTransposed (sub V 0 0 col col)) 1 Wc])
        (* 2. W = W op(T0) *)
        ++ [trmm Right 1 T0tr Wc]
        (* 3. C = C - W V *)
        ++ (match others with
            | col1 :: _ =>
                [gemm target (-1) (Plain Wc)
                   (Plain (sub V 0 0 col1 (nt - 1)))
                   1 (sub C 0 (mt - 1) col1 (nt - 1))]
            | [] => []
            end)
        ++ (if trapezoid
            then [gemm HostTask (-1) (Plain Wc) (Plain V0b) 1 C0b]
            else [])
        ++ [trmm Right 1 V0tr Wc; geadd (-1) Wc 1 C0'] in
      let st := run_kernels calls st in
      (* free workspace *)
      Returned (erase_col Wc st)))
  end).

(** [unmlq], lines 74-452.  [V] is passed by value: what the call does to
    its view of V is not seen by the caller. *)
Definition unmlq `{TileKernels} (target : Target) (side : Side) (op : Op)
    (V T C W : Matrix) (st : state) : outcome :=
  let mt := mt C in
  let nt := nt C in
  assert (1 <=? mt) (
  assert (1 <=? nt) (
  assert (Unmlq.mt V =? 1) (
  assert (Unmlq.mt W =? mt) (
  assert (Unmlq.nt W =? nt) (
  match side with
  | Left => unmlq_left target op V T C W st
  | Right => unmlq_right target op V T C W st
  end))))).

End Unmlq.

(* ===================================================================== *)
(** * Part II: properties                                                 *)
(* ===================================================================== *)

(* --------------------------------------------------------------------- *)
(** ** config.hh: the cached flag                                         *)
(* --------------------------------------------------------------------- *)

Module ConfigFacts.
Import Config.

Lemma byte_val_inj c d : byte_val c = byte_val d → c = d.
Proof.
  unfold byte_val. intros E. apply N2Z.inj in E.
  rewrite <- (ascii_N_embedding c), <- (ascii_N_embedding d). by rewrite E.
Qed.

Lemma byte_val_zero c : byte_val c = 0 → c = Ascii.zero.
Proof. intros E. apply byte_val_inj. by rewrite E. Qed.

Lemma c_string_cons c s : c_string (String c s) → c ≠ Ascii.zero ∧ c_string s.
Proof.
  intros Hc. split.
  - apply Hc. by left.
  - intros d Hd. apply Hc. by right.
Qed.

(** On C strings [strcmp] returns 0 exactly for equal strings. *)
Lemma strcmp_eq (a : string) :
  ∀ b, c_string a → c_string b → (strcmp a b = 0 ↔ a = b).
Proof.
  induction a as [|c a IH]; intros [|d b] Ha Hb; simpl.
  - done.
  - apply c_string_cons in Hb as [Hd _]. split; [|done].
    intros E. destruct Hd. apply byte_val_zero. lia.
  - apply c_string_cons in Ha as [Hc _]. split; [|done].
    intros E. destruct Hc. apply byte_val_zero. lia.
  - apply c_string_cons in Ha as [_ Ha]. apply c_string_cons in Hb as [_ Hb].
    destruct (Ascii.eqb c d) eqn:E.
    + apply Ascii.eqb_eq in E as ->. rewrite (IH b Ha Hb).
      split; [by intros ->|by intros [= ->]].
    + apply Ascii.eqb_neq in E. split; [|by intros [= -> ->]].
      intros E'. destruct E. apply byte_val_inj. lia.
Qed.

Lemma c_string_literal_empty : c_string "".
Proof. intros c []. Qed.

Lemma c_string_literal_1 : c_string "1".
Proof. intros c [<-|[]]. done. Qed.

(** What the constructor computes. *)
Lemma ctor_true (env : environ) :
  (∀ e, getenv SLATE_GPU_AWARE_MPI env = Some e → c_string e) →
  gpu_aware_mpi_ (ctor env) = true
  ↔ getenv SLATE_GPU_AWARE_MPI env = Some ""
    ∨ getenv SLATE_GPU_AWARE_MPI env = Some "1".
Proof.
  intros Hc. unfold ctor. simpl.
  destruct (getenv SLATE_GPU_AWARE_MPI env) as [e|] eqn:E.
  - specialize (Hc e eq_refl).
    rewrite orb_true_iff, !Z.eqb_eq.
    rewrite (strcmp_eq e "" Hc c_string_literal_empty).
    rewrite (strcmp_eq e "1" Hc c_string_literal_1).
    split; intros [H|H]; (by left; congruence) || (by right; congruence).
  - split; [done|]. by intros [?|?].
Qed.

(** Once the singleton exists, queries answer its flag until it is
    overridden. *)
Lemma run_cached (evs : list event) :
  ∀ env o,
    forallb (λ e, negb (is_override e)) evs = true →
    Forall (λ b, b = gpu_aware_mpi_ o) (run evs env (Some o)).
Proof.
  induction evs as [|[|val|name val] evs IH]; intros env o Hno; simpl in *.
  - constructor.
  - constructor; [done|]. by apply IH.
  - done.
  - by apply IH.
Qed.

End ConfigFacts.

(** C10.  The first query of a process, made before any override, returns
    true if and only if at that moment [SLATE_GPU_AWARE_MPI] is set and is
    the empty string or "1" (so "0", "true" and an unset variable give
    false); every later query returns the same value whatever is done to
    the environment in between, as long as the flag is not overridden; and
    after [gpu_aware_mpi( val )] every query returns [val], again whatever
    the environment says. *)
Theorem gpu_aware_mpi_probe_is_cached (env : Config.environ) :
  (∀ e, Config.getenv Config.SLATE_GPU_AWARE_MPI env = Some e
        → Config.c_string e) →
  ((Config.gpu_aware_mpi env None).1 = true
   ↔ Config.getenv Config.SLATE_GPU_AWARE_MPI env = Some ""
     ∨ Config.getenv Config.SLATE_GPU_AWARE_MPI env = Some "1")
  ∧ (∀ evs,
       forallb (λ e, negb (Config.is_override e)) evs = true →
       Forall (λ b, b = (Config.gpu_aware_mpi env None).1)
         (Config.run (Config.Query :: evs) env None))
  ∧ (∀ st val env' evs,
       forallb (λ e, negb (Config.is_override e)) evs = true →
       Forall (λ b, b = val)
         (Config.run (Config.Override val :: evs) env' st)).
Proof.
  intros Hc. split; [|split].
  - by apply ConfigFacts.ctor_true.
  - intros evs Hno. simpl. constructor; [done|].
    by apply (ConfigFacts.run_cached evs env (Config.ctor env)).
  - intros st val env' evs Hno. simpl.
    unfold Config.gpu_aware_mpi_set, Config.value_set.
    destruct (Config.get env' st) as [o st'].
    by apply (ConfigFacts.run_cached evs env' {| Config.gpu_aware_mpi_ := val |}).
Qed.

Definition env_with (v : string) : Config.environ :=
  {[ Config.SLATE_GPU_AWARE_MPI := v ]}.

Lemma gpu_aware_mpi_probe_is_cached_witness :
  (Config.gpu_aware_mpi (env_with "1") None).1 = true
  ∧ Forall (λ b, b = true)
      (Config.run
         [Config.Query;
          Config.Setenv Config.SLATE_GPU_AWARE_MPI (Some "0"%string);
          Config.Query;
          Config.Setenv Config.SLATE_GPU_AWARE_MPI None;
          Config.Query]
         (env_with "1") None).
Proof.
  destruct (gpu_aware_mpi_probe_is_cached (env_with "1")) as (H1 & H2 & _).
  - intros e He. vm_compute in He. injection He as <-.
    apply ConfigFacts.c_string_literal_1.
  - split; [reflexivity|].
    exact (H2 [Config.Setenv Config.SLATE_GPU_AWARE_MPI (Some "0"%string);
               Config.Query;
               Config.Setenv Config.SLATE_GPU_AWARE_MPI None;
               Config.Query] eq_refl).
Defined.

Example gpu_aware_mpi_other_values :
  (Config.gpu_aware_mpi (env_with "0") None).1 = false
  ∧ (Config.gpu_aware_mpi (env_with "true") None).1 = false
  ∧ (Config.gpu_aware_mpi (env_with "") None).1 = true
  ∧ (Config.gpu_aware_mpi ∅ None).1 = false.
Proof. repeat split. Qed.

(* --------------------------------------------------------------------- *)
(** ** hb2td_run: the tasks of a thread                                   *)
(* --------------------------------------------------------------------- *)

Module RunFacts.
Import Hb2td.

Lemma issued_bind {X Y} (m : M X) (f : X → M Y) :
  issued (bind m f) =
  issued m ++ match ending m with Ok x => issued (f x) | Err _ => [] end.
Proof.
  destruct m as [l [x|e]]; unfold issued, ending; simpl.
  - by destruct (f x).
  - by rewrite app_nil_r.
Qed.

Lemma ending_bind {X Y} (m : M X) (f : X → M Y) :
  ending (bind m f) =
  match ending m with Ok x => ending (f x) | Err e => Err e end.
Proof.
  destruct m as [l [x|e]]; unfold ending; simpl; [by destruct (f x)|done].
Qed.

Lemma for_stride_O {S} i bound stride (body : Z → S → M S) s :
  for_stride 0 i bound stride body s =
  if i <? bound then throw NonTermination else ret s.
Proof. reflexivity. Qed.

Lemma for_stride_S {S} fuel i bound stride (body : Z → S → M S) s :
  for_stride (Datatypes.S fuel) i bound stride body s =
  if i <? bound
  then bind (body i s) (for_stride fuel (i + stride) bound stride body)
  else ret s.
Proof. reflexivity. Qed.

(** A task issued by a loop is issued by one of its iterations, run from a
    loop state that satisfies whatever the iterations preserve. *)
Lemma for_stride_issued_inv {S} (I : S → Prop) fuel :
  ∀ i bound stride (body : Z → S → M S) s t,
    0 < stride →
    (∀ i s s', I s → ending (body i s) = Ok s' → I s') →
    I s →
    t ∈ issued (for_stride fuel i bound stride body s) →
    ∃ q s', 0 ≤ q ∧ i + q * stride < bound ∧ I s'
            ∧ t ∈ issued (body (i + q * stride) s').
Proof.
  induction fuel as [|fuel IH]; intros i bound stride body s t Hs HI Is Ht.
  - rewrite for_stride_O in Ht.
    destruct (i <? bound); by apply elem_of_nil in Ht.
  - rewrite for_stride_S in Ht.
    destruct (i <? bound) eqn:Hi; [|by apply elem_of_nil in Ht].
    apply Z.ltb_lt in Hi.
    rewrite issued_bind in Ht. apply elem_of_app in Ht as [Ht|Ht].
    + exists 0, s. rewrite Z.mul_0_l, Z.add_0_r. auto with lia.
    + destruct (ending (body i s)) as [s1|e] eqn:E;
        [|by apply elem_of_nil in Ht].
      apply IH in Ht as (q & s' & Hq & Hb & Is' & Ht); [|done|done|by eapply HI].
      exists (q + 1), s'.
      replace (i + (q + 1) * stride) with (i + stride + q * stride) by lia.
      auto with lia.
Qed.

Lemma for_stride_issued {S} fuel i bound stride (body : Z → S → M S) s t :
  0 < stride →
  t ∈ issued (for_stride fuel i bound stride body s) →
  ∃ q s', 0 ≤ q ∧ i + q * stride < bound
          ∧ t ∈ issued (body (i + q * stride) s').
Proof.
  intros Hs Ht.
  apply (for_stride_issued_inv (λ _, True)) in Ht
    as (q & s' & ? & ? & _ & ?); eauto.
Qed.

(** Iterations that issue tasks in disjoint windows of some coordinate of
    the key issue no key twice. *)
Lemma for_stride_NoDup_inv {S} (I : S → Prop) (g : Z * Z → Z) fuel :
  ∀ i bound stride (body : Z → S → M S) s,
    0 < stride →
    (∀ i s s', I s → ending (body i s) = Ok s' → I s') →
    (∀ i s t, I s → t ∈ issued (body i s) → i ≤ g (key t) < i + stride) →
    (∀ i s, I s → NoDup (key <$> issued (body i s))) →
    I s →
    NoDup (key <$> issued (for_stride fuel i bound stride body s)).
Proof.
  induction fuel as [|fuel IH]; intros i bound stride body s Hs HI Hwin Hnd Is.
  - rewrite for_stride_O. destruct (i <? bound); constructor.
  - rewrite for_stride_S. destruct (i <? bound); [|constructor].
    rewrite issued_bind, fmap_app. apply NoDup_app.
    split; [by apply Hnd|]. split.
    + intros k Hk1 Hk2.
      apply list_elem_of_fmap in Hk1 as (t1 & -> & Ht1).
      apply list_elem_of_fmap in Hk2 as (t2 & Hk & Ht2).
      destruct (ending (body i s)) as [s1|e] eqn:E;
        [|by apply elem_of_nil in Ht2].
      apply (for_stride_issued_inv I) in Ht2
        as (q & s' & Hq & _ & Is' & Ht2); [|done|done|by eapply HI].
      apply Hwin in Ht1; [|done]. apply Hwin in Ht2; [|done].
      rewrite Hk in Ht1. nia.
    + destruct (ending (body i s)) as [s1|e] eqn:E; [|constructor].
      apply IH; try done. by eapply HI.
Qed.

Lemma for_stride_NoDup {S} (g : Z * Z → Z) fuel i bound stride
    (body : Z → S → M S) s :
  0 < stride →
  (∀ i s t, t ∈ issued (body i s) → i ≤ g (key t) < i + stride) →
  (∀ i s, NoDup (key <$> issued (body i s))) →
  NoDup (key <$> issued (for_stride fuel i bound stride body s)).
Proof.
  intros Hs Hwin Hnd.
  apply (for_stride_NoDup_inv (λ _, True) g); eauto.
Qed.

(** A loop whose counter advances ends as its iterations do. *)
Lemma for_stride_ending {S} fuel :
  ∀ i bound stride (body : Z → S → M S) s,
    0 < stride →
    bound - i ≤ Z.of_nat fuel →
    (∀ i s, ∃ s', ending (body i s) = Ok s') →
    ∃ s', ending (for_stride fuel i bound stride body s) = Ok s'.
Proof.
  induction fuel as [|fuel IH]; intros i bound stride body s Hs Hf Hb.
  - rewrite for_stride_O. destruct (i <? bound) eqn:Hi; [|by eexists].
    apply Z.ltb_lt in Hi. lia.
  - rewrite for_stride_S. destruct (i <? bound) eqn:Hi; [|by eexists].
    rewrite ending_bind. destruct (Hb i s) as [s1 ->].
    apply IH; [done|lia|done].
Qed.

(** A task issued by an iteration the loop gets to is issued by the
    loop. *)
Lemma for_stride_issued_intro fuel :
  ∀ i bound stride (body : Z → unit → M unit) q t,
    0 < stride → 0 ≤ q → i + q * stride < bound → q < Z.of_nat fuel →
    (∀ j u, ∃ u', ending (body j u) = Ok u') →
    t ∈ issued (body (i + q * stride) tt) →
    t ∈ issued (for_stride fuel i bound stride body tt).
Proof.
  induction fuel as [|fuel IH]; intros i bound stride body q t Hs Hq Hb Hf Hok Ht.
  - simpl in Hf. lia.
  - rewrite for_stride_S.
    destruct (i <? bound) eqn:Hi; [|apply Z.ltb_ge in Hi; nia].
    rewrite issued_bind. apply elem_of_app.
    destruct (decide (q = 0)) as [->|Hne].
    + left. by rewrite Z.mul_0_l, Z.add_0_r in Ht.
    + right. destruct (Hok i tt) as [[] ->].
      apply (IH _ _ _ _ (q - 1)); [done|lia|nia|lia|done|].
      by replace (i + stride + (q - 1) * stride) with (i + q * stride) by lia.
Qed.

Lemma bind_ret {X Y} (x : X) (f : X → M Y) : bind (ret x) f = f x.
Proof. unfold bind, ret. by destruct (f x). Qed.

Lemma bind_lift_Some {X Y} (x : X) e (f : X → M Y) :
  bind (lift (Some x) e) f = f x.
Proof. apply bind_ret. Qed.

Lemma elem_of_issued_lift {X} (o : option X) e t : t ∉ issued (lift o e).
Proof. destruct o; apply not_elem_of_nil. Qed.

(** A sweep has steps only for a band of at least 2. *)
Lemma nsteps_pos_band band n k ns :
  nsteps band n k = Some ns → 0 < ns → k < n - 2 → 2 ≤ band.
Proof.
  unfold nsteps, ceildiv.
  destruct (band - 1 =? 0) eqn:E; [done|]. apply Z.eqb_neq in E.
  simpl. intros [= <-] Hns Hk.
  destruct (decide (2 ≤ band)) as [|Hlt]; [done|]. exfalso.
  set (a := n - 1 - k + (band - 1) - 1) in *.
  pose proof (Z.quot_rem' a (band - 1)) as Hqr.
  pose proof (Z.rem_bound_abs a (band - 1) E) as Habs.
  destruct (decide (0 ≤ a)) as [Ha|Ha].
  - pose proof (Z.rem_nonneg a (band - 1) E Ha). nia.
  - pose proof (Z.rem_nonpos a (band - 1) E ltac:(lia)). nia.
Qed.

Section Tasks.

Variables band diag_len pass_size thread_size : Z.

Abbreviation nsteps' := (nsteps band diag_len).

(** What a task issued by thread [rank] during the pass that starts at
    sweep [pass], with the loop state [start], looks like. *)
Definition pass_task (rank pass start : Z) (t : task) : Prop :=
  pass ≤ t_sweep t < pass + pass_size
  ∧ t_sweep t < diag_len - 2
  ∧ 0 ≤ t_step t
  ∧ (t_step t) `mod` thread_size = (rank - start) `mod` thread_size
  ∧ nsteps' (t_sweep t - 1) = Some (t_nsteps_last t)
  ∧ ∃ ns, nsteps' (t_sweep t) = Some ns ∧ t_step t < ns.

Lemma nsteps_Some sweep : band ≠ 1 → ∃ ns, nsteps' sweep = Some ns.
Proof.
  intros Hb. unfold nsteps, ceildiv.
  destruct (band - 1 =? 0) eqn:E; [apply Z.eqb_eq in E; lia|].
  simpl. by eexists.
Qed.

Lemma nsteps_None sweep : band = 1 → nsteps' sweep = None.
Proof. intros ->. reflexivity. Qed.

Lemma sweep_body_issued step sweep u t :
  t ∈ issued (sweep_body band diag_len step sweep u) →
  t_sweep t = sweep ∧ t_step t = step
  ∧ nsteps' (t_sweep t - 1) = Some (t_nsteps_last t)
  ∧ ∃ ns, nsteps' (t_sweep t) = Some ns ∧ t_step t < ns.
Proof.
  unfold sweep_body. intros Ht.
  destruct (nsteps' sweep) as [ns|] eqn:Ens; [|by apply elem_of_nil in Ht].
  destruct (nsteps' (sweep - 1)) as [nl|] eqn:Enl;
    [|by apply elem_of_nil in Ht].
  unfold lift, ret, bind in Ht. simpl in Ht.
  destruct (step <? ns) eqn:Hlt; [|by apply elem_of_nil in Ht].
  apply Z.ltb_lt in Hlt. unfold issued in Ht. simpl in Ht.
  apply list_elem_of_singleton in Ht as ->. simpl.
  rewrite Ens, Enl. eauto 10.
Qed.

Lemma sweep_body_NoDup step sweep u :
  NoDup (key <$> issued (sweep_body band diag_len step sweep u)).
Proof.
  unfold sweep_body.
  destruct (nsteps' sweep) as [ns|]; [|constructor].
  destruct (nsteps' (sweep - 1)) as [nl|]; [|constructor].
  unfold lift, ret, bind. simpl.
  destruct (step <? ns); [|constructor].
  unfold issued. simpl. apply NoDup_singleton.
Qed.

Lemma sweep_body_ending step sweep u :
  band ≠ 1 → ∃ u', ending (sweep_body band diag_len step sweep u) = Ok u'.
Proof.
  intros Hb. unfold sweep_body.
  destruct (nsteps_Some sweep Hb) as [ns ->].
  destruct (nsteps_Some (sweep - 1) Hb) as [nl ->].
  unfold lift, ret, bind. simpl. destruct (step <? ns); by eexists.
Qed.

Lemma sweep_loop_issued pass sweep_end step u t :
  t ∈ issued (sweep_loop band diag_len pass sweep_end step u) →
  pass ≤ t_sweep t < sweep_end ∧ t_step t = step
  ∧ nsteps' (t_sweep t - 1) = Some (t_nsteps_last t)
  ∧ ∃ ns, nsteps' (t_sweep t) = Some ns ∧ t_step t < ns.
Proof.
  unfold sweep_loop. intros Ht.
  apply for_stride_issued in Ht as (q & s' & Hq & Hlt & Ht); [|lia].
  apply sweep_body_issued in Ht as (Hs & Ht). split; [lia|done].
Qed.

Lemma sweep_loop_NoDup pass sweep_end step u :
  NoDup (key <$> issued (sweep_loop band diag_len pass sweep_end step u)).
Proof.
  unfold sweep_loop. apply (for_stride_NoDup fst); [lia| |].
  - intros i s t Ht. apply sweep_body_issued in Ht as (Hs & _).
    simpl. lia.
  - intros. apply sweep_body_NoDup.
Qed.

Lemma sweep_loop_ending pass sweep_end step u :
  band ≠ 1 →
  ∃ u', ending (sweep_loop band diag_len pass sweep_end step u) = Ok u'.
Proof.
  intros Hb. unfold sweep_loop. apply for_stride_ending; [lia|lia|].
  intros. by apply sweep_body_ending.
Qed.

Hypothesis threads_pos : 1 ≤ thread_size.

Lemma step_begin_mod rank start :
  0 ≤ rank → start < thread_size →
  c_rem (rank - start + thread_size) thread_size
  = Some ((rank - start) `mod` thread_size)
  ∧ 0 ≤ (rank - start) `mod` thread_size.
Proof.
  intros Hr Hs. unfold c_rem.
  destruct (thread_size =? 0) eqn:E; [apply Z.eqb_eq in E; lia|].
  rewrite Z.rem_mod_nonneg by lia.
  replace (rank - start + thread_size)
    with (rank - start + 1 * thread_size) by lia.
  rewrite Z.mod_add by lia. split; [done|].
  apply Z.mod_pos_bound. lia.
Qed.

Lemma pass_body_issued rank pass start t :
  0 ≤ rank → start < thread_size →
  t ∈ issued (pass_body band diag_len pass_size rank thread_size pass start) →
  pass_task rank pass start t.
Proof.
  intros Hr Hs. unfold pass_body. intros Ht.
  destruct (nsteps' pass) as [np|] eqn:Enp; [|by apply elem_of_nil in Ht].
  destruct (step_begin_mod rank start Hr Hs) as [Esb Hsb].
  rewrite Esb, !bind_lift_Some, issued_bind in Ht.
  apply elem_of_app in Ht as [Ht|Ht].
  - apply for_stride_issued in Ht as (q & s' & Hq & Hlt & Ht); [|lia].
    apply sweep_loop_issued in Ht as (Hsw & Hst & Hnl & Hns).
    unfold pass_task. repeat split; try lia; try done.
    rewrite Hst, Z.mod_add by lia.
    apply Z.mod_mod. lia.
  - destruct (ending _); [|by apply elem_of_nil in Ht].
    by apply elem_of_issued_lift in Ht.
Qed.

Lemma pass_body_NoDup rank pass start :
  0 ≤ rank → start < thread_size →
  NoDup (key <$> issued
           (pass_body band diag_len pass_size rank thread_size pass start)).
Proof.
  intros Hr Hs. unfold pass_body.
  destruct (nsteps' pass) as [np|] eqn:Enp; [|constructor].
  destruct (step_begin_mod rank start Hr Hs) as [-> Hsb].
  rewrite !bind_lift_Some, issued_bind, fmap_app.
  apply NoDup_app. split; [|split].
  - apply (for_stride_NoDup snd); [lia| |intros; apply sweep_loop_NoDup].
    intros i s t Ht. apply sweep_loop_issued in Ht as (_ & Hst & _).
    simpl. lia.
  - intros k _ Hk. destruct (ending _); [|by apply elem_of_nil in Hk].
    apply list_elem_of_fmap in Hk as (t & _ & Ht).
    by apply elem_of_issued_lift in Ht.
  - destruct (ending _); [|constructor].
    destruct (c_rem _ _); constructor.
Qed.

(** The way a pass ends does not depend on the thread. *)
Lemma pass_body_ending rank pass start :
  band ≠ 1 → 0 ≤ rank → start < thread_size →
  ∃ np, nsteps' pass = Some np
        ∧ ending (pass_body band diag_len pass_size rank thread_size pass start)
          = Ok (Z.rem (start + np) thread_size).
Proof.
  intros Hb Hr Hs. unfold pass_body.
  destruct (nsteps_Some pass Hb) as [np Enp]. exists np. split; [done|].
  rewrite Enp. destruct (step_begin_mod rank start Hr Hs) as [-> Hsb].
  rewrite !bind_lift_Some, ending_bind.
  destruct (for_stride_ending (Z.to_nat np) ((rank - start) `mod` thread_size)
              np thread_size
              (sweep_loop band diag_len pass
                 (Z.min (pass + pass_size) (diag_len - 2))) tt) as [u ->];
    [lia|lia|intros; by apply sweep_loop_ending|].
  unfold c_rem. destruct (thread_size =? 0) eqn:E; [|done].
  apply Z.eqb_eq in E. lia.
Qed.

Lemma pass_body_issued_nil rank pass start :
  band = 1 →
  issued (pass_body band diag_len pass_size rank thread_size pass start) = [].
Proof.
  intros Hb. unfold pass_body. by rewrite (nsteps_None pass Hb).
Qed.

Hypothesis pass_pos : 1 ≤ pass_size.

Abbreviation pass_loop rank fuel pass start :=
  (for_stride fuel pass (diag_len - 2) pass_size
     (pass_body band diag_len pass_size rank thread_size) start).

Definition start_ok (start : Z) : Prop := - thread_size < start < thread_size.

Lemma pass_body_start_ok rank pass start start' :
  0 ≤ rank → start_ok start →
  ending (pass_body band diag_len pass_size rank thread_size pass start)
  = Ok start' →
  start_ok start'.
Proof.
  intros Hr Hs E. destruct (decide (band = 1)) as [Hb|Hb].
  - unfold pass_body in E. rewrite (nsteps_None pass Hb) in E. discriminate.
  - destruct (pass_body_ending rank pass start Hb Hr) as (np & _ & E');
      [unfold start_ok in Hs; lia|].
    rewrite E' in E. injection E as <-.
    pose proof (Z.rem_bound_abs (start + np) thread_size). unfold start_ok.
    lia.
Qed.

Lemma pass_loop_issued rank fuel pass start t :
  0 ≤ rank → start_ok start →
  t ∈ issued (pass_loop rank fuel pass start) →
  ∃ pass' start', pass ≤ pass' ∧ start_ok start'
                  ∧ pass_task rank pass' start' t.
Proof.
  intros Hr Hs Ht.
  apply (for_stride_issued_inv start_ok) in Ht
    as (q & s' & Hq & _ & Hs' & Ht); [|lia| |done].
  - exists (pass + q * pass_size), s'. split; [nia|]. split; [done|].
    apply pass_body_issued; [done|unfold start_ok in Hs'; lia|done].
  - intros i s s' Is E. by eapply pass_body_start_ok.
Qed.

Lemma pass_loop_NoDup rank fuel pass start :
  0 ≤ rank → start_ok start →
  NoDup (key <$> issued (pass_loop rank fuel pass start)).
Proof.
  intros Hr Hs. apply (for_stride_NoDup_inv start_ok fst); [lia| | | |done].
  - intros i s s' Is E. by eapply pass_body_start_ok.
  - intros i s t Is Ht. apply pass_body_issued in Ht as (Hsw & _);
      [simpl; lia|done|unfold start_ok in Is; lia].
  - intros i s Is. apply pass_body_NoDup; [done|unfold start_ok in Is; lia].
Qed.

(** Within a pass the step number tells the thread. *)
Lemma pass_task_same_thread r1 r2 pass start t1 t2 :
  0 ≤ r1 < thread_size → 0 ≤ r2 < thread_size →
  pass_task r1 pass start t1 → pass_task r2 pass start t2 →
  key t1 = key t2 → r1 = r2.
Proof.
  intros H1 H2 (_ & _ & _ & M1 & _) (_ & _ & _ & M2 & _) Hk.
  injection Hk as _ Hst. rewrite Hst, M2 in M1.
  pose proof (Z.div_mod (r1 - start) thread_size ltac:(lia)) as D1.
  pose proof (Z.div_mod (r2 - start) thread_size ltac:(lia)) as D2.
  rewrite M1 in D2.
  set (q1 := (r1 - start) `div` thread_size) in *.
  set (q2 := (r2 - start) `div` thread_size) in *.
  assert (r1 - r2 = thread_size * (q1 - q2)) as D by lia.
  assert (q1 - q2 = 0) by nia. lia.
Qed.

(** No two threads are given the same step of the same sweep. *)
Lemma pass_loop_disjoint fuel :
  ∀ pass start r1 r2 t1 t2,
    band ≠ 1 →
    0 ≤ r1 < thread_size → 0 ≤ r2 < thread_size → start_ok start →
    t1 ∈ issued (pass_loop r1 fuel pass start) →
    t2 ∈ issued (pass_loop r2 fuel pass start) →
    key t1 = key t2 → r1 = r2.
Proof.
  induction fuel as [|fuel IH]; intros pass start r1 r2 t1 t2 Hb H1 H2 Hs.
  - rewrite for_stride_O. destruct (pass <? _); intros Ht;
      by apply elem_of_nil in Ht.
  - rewrite !for_stride_S. destruct (pass <? _);
      [|intros Ht; by apply elem_of_nil in Ht].
    rewrite !issued_bind.
    destruct (pass_body_ending r1 pass start Hb) as (np & Enp & ->);
      [lia|unfold start_ok in Hs; lia|].
    destruct (pass_body_ending r2 pass start Hb) as (np' & Enp' & ->);
      [lia|unfold start_ok in Hs; lia|].
    assert (np' = np) as -> by congruence.
    assert (start_ok (Z.rem (start + np) thread_size)) as Hs'.
    { pose proof (Z.rem_bound_abs (start + np) thread_size).
      unfold start_ok. lia. }
    intros Ht1 Ht2 Hk.
    apply elem_of_app in Ht1 as [Ht1|Ht1];
      apply elem_of_app in Ht2 as [Ht2|Ht2].
    + apply pass_body_issued in Ht1; [|lia|unfold start_ok in Hs; lia].
      apply pass_body_issued in Ht2; [|lia|unfold start_ok in Hs; lia].
      by eapply pass_task_same_thread.
    + apply pass_body_issued in Ht1 as (Hw1 & _);
        [|lia|unfold start_ok in Hs; lia].
      apply pass_loop_issued in Ht2 as (p' & s' & Hp' & _ & Hw2 & _);
        [|lia|done].
      injection Hk as Hk _. lia.
    + apply pass_body_issued in Ht2 as (Hw2 & _);
        [|lia|unfold start_ok in Hs; lia].
      apply pass_loop_issued in Ht1 as (p' & s' & Hp' & _ & Hw1 & _);
        [|lia|done].
      injection Hk as Hk _. lia.
    + by eapply (IH (pass + pass_size) _ r1 r2 t1 t2).
Qed.

Lemma pass_loop_ending rank fuel :
  ∀ pass start,
    band ≠ 1 → 0 ≤ rank → start_ok start →
    diag_len - 2 - pass ≤ Z.of_nat fuel →
    ∃ start', ending (pass_loop rank fuel pass start) = Ok start'.
Proof.
  induction fuel as [|fuel IH]; intros pass start Hb Hr Hs Hf.
  - rewrite for_stride_O. destruct (pass <? _) eqn:E; [|by eexists].
    apply Z.ltb_lt in E. lia.
  - rewrite for_stride_S. destruct (pass <? _) eqn:E; [|by eexists].
    rewrite ending_bind.
    destruct (pass_body_ending rank pass start Hb Hr) as (np & Enp & E');
      [unfold start_ok in Hs; lia|].
    rewrite E'. apply IH; [done|done| |lia].
    pose proof (Z.rem_bound_abs (start + np) thread_size).
    unfold start_ok. lia.
Qed.

(** Step counts do not grow from one sweep to the next. *)
Lemma nsteps_mono k k' ns ns' :
  2 ≤ band → k ≤ k' →
  nsteps' k = Some ns → nsteps' k' = Some ns' → ns' ≤ ns.
Proof.
  intros Hb Hk. unfold nsteps, ceildiv.
  destruct (band - 1 =? 0) eqn:E; [done|]. simpl.
  intros [= <-] [= <-].
  assert ((diag_len - 1 - k' + (band - 1) - 1) ÷ (band - 1)
          ≤ (diag_len - 1 - k + (band - 1) - 1) ÷ (band - 1)); [|lia].
  apply Z.quot_le_mono; lia.
Qed.

(** A step below the step count of a sweep of the pass is issued, in that
    pass, to the thread its number designates. *)
Lemma pass_body_issues rank pass start k s ns nl :
  2 ≤ band →
  0 ≤ rank → start < thread_size →
  pass ≤ k < Z.min (pass + pass_size) (diag_len - 2) →
  0 ≤ s → s `mod` thread_size = (rank - start) `mod` thread_size →
  nsteps' k = Some ns → s < ns → nsteps' (k - 1) = Some nl →
  {| t_sweep := k; t_step := s; t_nsteps_last := nl |}
  ∈ issued (pass_body band diag_len pass_size rank thread_size pass start).
Proof.
  intros Hb Hr Hst Hk Hs Hmod Ens Hlt Enl. unfold pass_body.
  destruct (nsteps_Some pass ltac:(lia)) as [np Enp].
  pose proof (nsteps_mono pass k np ns Hb ltac:(lia) Enp Ens) as Hnp.
  rewrite Enp. destruct (step_begin_mod rank start Hr Hst) as [-> Hsb].
  rewrite !bind_lift_Some, issued_bind. apply elem_of_app. left.
  rewrite <- Hmod in *.
  pose proof (Z.div_mod s thread_size ltac:(lia)) as Hdm.
  pose proof (Z.mod_pos_bound s thread_size ltac:(lia)) as Hmb.
  assert (0 ≤ s `div` thread_size) as Hq by (apply Z.div_pos; lia).
  apply (for_stride_issued_intro _ _ _ _ _ (s `div` thread_size));
    [lia|done|nia|nia|intros; apply sweep_loop_ending; lia|].
  replace (s `mod` thread_size + s `div` thread_size * thread_size)
    with s by lia.
  unfold sweep_loop.
  apply (for_stride_issued_intro _ _ _ _ _ (k - pass));
    [lia|lia|lia|lia|intros; apply sweep_body_ending; lia|].
  replace (pass + (k - pass) * 1) with k by lia.
  unfold sweep_body. rewrite Ens, Enl, !bind_lift_Some.
  destruct (s <? ns) eqn:E; [|apply Z.ltb_ge in E; lia].
  unfold issued, issue. simpl. by left.
Qed.

(** Every step below the step count of a sweep is issued to some thread. *)
Lemma pass_loop_issues fuel :
  ∀ pass start k s ns nl,
    2 ≤ band → start_ok start →
    pass ≤ k < diag_len - 2 → diag_len - 2 - pass ≤ Z.of_nat fuel →
    0 ≤ s → nsteps' k = Some ns → s < ns → nsteps' (k - 1) = Some nl →
    ∃ rank, 0 ≤ rank < thread_size
            ∧ {| t_sweep := k; t_step := s; t_nsteps_last := nl |}
              ∈ issued (pass_loop rank fuel pass start).
Proof.
  induction fuel as [|fuel IH];
    intros pass start k s ns nl Hb Hst Hk Hf Hs Ens Hlt Enl.
  - simpl in Hf. lia.
  - destruct (decide (k < pass + pass_size)) as [Hin|Hout].
    + exists ((s + start) `mod` thread_size).
      pose proof (Z.mod_pos_bound (s + start) thread_size ltac:(lia)) as Hm.
      split; [lia|]. rewrite for_stride_S.
      destruct (pass <? diag_len - 2) eqn:E; [|apply Z.ltb_ge in E; lia].
      rewrite issued_bind. apply elem_of_app. left.
      apply (pass_body_issues _ _ _ _ _ ns); try done;
        [lia|unfold start_ok in Hst; lia|lia|].
      rewrite Zminus_mod_idemp_l. f_equal. lia.
    + pose proof (nsteps_Some pass ltac:(lia)) as [np Enp].
      destruct (IH (pass + pass_size) (Z.rem (start + np) thread_size)
                  k s ns nl) as (rank & Hrank & Hin); try done; try lia.
      { pose proof (Z.rem_bound_abs (start + np) thread_size).
        unfold start_ok. lia. }
      exists rank. split; [done|]. rewrite for_stride_S.
      destruct (pass <? diag_len - 2) eqn:E; [|apply Z.ltb_ge in E; lia].
      rewrite issued_bind. apply elem_of_app. right.
      destruct (pass_body_ending rank pass start) as (np' & Enp' & ->);
        [lia|lia|unfold start_ok in Hst; lia|].
      by assert (np' = np) as -> by congruence.
Qed.

Lemma start_ok_0 : start_ok 0.
Proof. unfold start_ok. lia. Qed.

(** The tasks of [hb2td_run]. *)
Abbreviation run rank := (hb2td_run band diag_len pass_size rank thread_size).

Lemma run_issued rank t :
  0 ≤ rank → t ∈ issued (run rank) →
  0 ≤ t_sweep t < diag_len - 2
  ∧ 0 ≤ t_step t
  ∧ nsteps' (t_sweep t - 1) = Some (t_nsteps_last t)
  ∧ ∃ ns, nsteps' (t_sweep t) = Some ns ∧ t_step t < ns.
Proof.
  intros Hr Ht. unfold hb2td_run in Ht.
  apply pass_loop_issued in Ht as (p & s & Hp & _ & Hw & Hd & Hst & _ & Ht);
    [|done|apply start_ok_0].
  split; [lia|]. done.
Qed.

Lemma run_NoDup rank : 0 ≤ rank → NoDup (key <$> issued (run rank)).
Proof. intros Hr. apply pass_loop_NoDup; [done|apply start_ok_0]. Qed.

Lemma run_disjoint r1 r2 t1 t2 :
  0 ≤ r1 < thread_size → 0 ≤ r2 < thread_size →
  t1 ∈ issued (run r1) → t2 ∈ issued (run r2) →
  key t1 = key t2 → r1 = r2.
Proof.
  intros H1 H2 Ht1 Ht2 Hk. destruct (decide (band = 1)) as [Hb|Hb].
  - apply run_issued in Ht1 as (_ & _ & _ & ns & E & _); [|lia].
    by rewrite (nsteps_None _ Hb) in E.
  - eapply pass_loop_disjoint; eauto using start_ok_0.
Qed.

(** Every step of every sweep is issued: the steps of sweep [k] are the
    steps [0 .. nsteps(k)-1]. *)
Lemma run_issues k s ns nl :
  0 ≤ k < diag_len - 2 → 0 ≤ s →
  nsteps' k = Some ns → s < ns → nsteps' (k - 1) = Some nl →
  ∃ rank, 0 ≤ rank < thread_size
          ∧ {| t_sweep := k; t_step := s; t_nsteps_last := nl |}
            ∈ issued (run rank).
Proof.
  intros Hk Hs Ens Hlt Enl.
  assert (2 ≤ band) as Hb
    by (eapply (nsteps_pos_band band diag_len k ns); [done|lia..]).
  unfold hb2td_run.
  eapply pass_loop_issues; eauto using start_ok_0; lia.
Qed.

Lemma run_ending rank :
  band ≠ 1 → 0 ≤ rank → ∃ z, ending (run rank) = Ok z.
Proof.
  intros Hb Hr. apply pass_loop_ending; [done|done|apply start_ok_0|lia].
Qed.

(** With [band = 1] the step counts divide by zero. *)
Lemma run_band_1 rank :
  band = 1 →
  run rank = if 0 <? diag_len - 2 then ([], Err DivByZero) else ([], Ok 0).
Proof.
  intros Hb. unfold hb2td_run.
  destruct (Z.to_nat (diag_len - 2)) as [|fuel] eqn:E.
  - rewrite for_stride_O. destruct (0 <? _) eqn:E'; [|done].
    apply Z.ltb_lt in E'. lia.
  - rewrite for_stride_S. destruct (0 <? _); [|done].
    unfold pass_body. by rewrite (nsteps_None 0 Hb).
Qed.

End Tasks.

End RunFacts.

(* --------------------------------------------------------------------- *)
(** ** hb2td_step                                                         *)
(* --------------------------------------------------------------------- *)

Module StepFacts.
Import Hb2td RunFacts.

Lemma task_of_cases step :
  task_of step = 0 ∨ task_of step = 1 ∨ task_of step = 2.
Proof.
  unfold task_of. destruct (step =? 0); [by left|].
  pose proof (Z.rem_bound_abs (step + 1) 2). lia.
Qed.

Lemma task_of_odd step : 0 ≤ step → Z.odd step = true → task_of step = 1.
Proof.
  intros H0 Ho. unfold task_of.
  destruct (step =? 0) eqn:E; [apply Z.eqb_eq in E; by subst|].
  rewrite Z.rem_mod_nonneg by lia.
  rewrite <- Z.bit0_mod, Z.bit0_odd, Z.odd_add, Ho. reflexivity.
Qed.

Lemma task_of_even step :
  2 ≤ step → Z.even step = true → task_of step = 2.
Proof.
  intros H0 He. unfold task_of.
  destruct (step =? 0) eqn:E; [apply Z.eqb_eq in E; lia|].
  rewrite Z.rem_mod_nonneg by lia.
  rewrite <- Z.bit0_mod, Z.bit0_odd, Z.odd_add, <- Z.negb_even, He.
  reflexivity.
Qed.

(** A step number splits into its block and its parity. *)
Lemma step_split step :
  0 ≤ step →
  ∃ b r, 0 ≤ b ∧ (r = 0 ∨ r = 1) ∧ step = 2 * b + r ∧ block_of step = b
         ∧ (step ≠ 0 → task_of step = 2 - r).
Proof.
  intros H0. exists (step ÷ 2), (Z.rem step 2).
  pose proof (Z.quot_rem' step 2) as E.
  pose proof (Z.rem_bound_pos step 2 H0) as Hr.
  pose proof (Z.quot_pos step 2 H0) as Hq.
  split; [lia|]. split; [lia|]. split; [lia|]. split; [done|].
  intros Hne. unfold task_of.
  destruct (step =? 0) eqn:E0; [apply Z.eqb_eq in E0; lia|].
  pose proof (Z.quot_rem' (step + 1) 2) as E'.
  pose proof (Z.rem_bound_pos (step + 1) 2) as Hr'. lia.
Qed.

(** The key a step consumes is the key an earlier step of the sweep
    produces, and that step is in range when the consumer is. *)
Definition producer_of (step : Z) : Z :=
  if task_of step =? 2 then step - 1
  else if step =? 1 then 0 else step - 2.

Lemma consumed_is_produced n band sweep step ij :
  1 ≤ band → 1 ≤ step →
  coords band sweep step = Some ij → in_range n ij = true →
  0 ≤ producer_of step < step
  ∧ ∃ ij0 kk,
      coords band sweep (producer_of step) = Some ij0
      ∧ in_range n ij0 = true
      ∧ consumed_key band sweep step = Some kk
      ∧ produced_key band sweep (producer_of step) = Some kk.
Proof.
  intros Hb Hs.
  destruct (step_split step) as (b & r & Hb0 & Hr & E & Eb & Et); [lia|].
  specialize (Et ltac:(lia)).
  unfold producer_of, consumed_key, coords. rewrite Et, Eb.
  destruct Hr as [-> | ->]; simpl.
  - (* an even step: task 2 consumes what the step before has produced *)
    intros [= <-]. unfold in_range. simpl.
    rewrite andb_true_iff, !Z.ltb_lt. intros [Hi Hj].
    split; [lia|].
    destruct (step_split (step - 1)) as (b' & r' & Hb' & Hr' & E' & Eb' & Et');
      [lia|].
    specialize (Et' ltac:(lia)).
    assert (r' = 1) as -> by lia. assert (b' = b - 1) as -> by lia.
    unfold produced_key, coords. rewrite Et', Eb'. simpl.
    eexists _, _. split; [done|]. unfold in_range. simpl.
    rewrite andb_true_iff, !Z.ltb_lt.
    split; [nia|]. split; f_equal; f_equal; lia.
  - (* an odd step: task 1 *)
    intros [= <-]. unfold in_range. simpl.
    rewrite andb_true_iff, !Z.ltb_lt. intros [Hi Hj].
    destruct (step =? 1) eqn:E1.
    + apply Z.eqb_eq in E1. assert (b = 0) as -> by lia.
      split; [lia|]. unfold produced_key, coords. simpl.
      eexists _, _. split; [done|]. unfold in_range. simpl.
      rewrite andb_true_iff, !Z.ltb_lt.
      split; [lia|]. split; f_equal; f_equal; lia.
    + apply Z.eqb_neq in E1. split; [lia|].
      destruct (step_split (step - 2))
        as (b' & r' & Hb' & Hr' & E' & Eb' & Et'); [lia|].
      specialize (Et' ltac:(lia)).
      assert (r' = 1) as -> by lia. assert (b' = b - 1) as -> by lia.
      unfold produced_key, coords. rewrite Et', Eb'. simpl.
      eexists _, _. split; [done|]. unfold in_range. simpl.
      rewrite andb_true_iff, !Z.ltb_lt.
      split; [nia|]. split; f_equal; f_equal; lia.
Qed.

(** [ceildiv] is the ceiling for a positive divisor and a dividend that
    is not negative. *)
Lemma ceildiv_bounds x y c :
  1 ≤ y → 0 ≤ x → ceildiv x y = Some c → (c - 1) * y < x ≤ c * y.
Proof.
  intros Hy Hx. unfold ceildiv.
  destruct (y =? 0) eqn:E; [apply Z.eqb_eq in E; lia|]. intros [= <-].
  pose proof (Z.quot_rem' (x + y - 1) y) as Hqr.
  pose proof (Z.rem_bound_pos (x + y - 1) y ltac:(lia) ltac:(lia)) as Hr.
  nia.
Qed.

(** Every step below the step count of its sweep has its coordinates in
    range: in the runs of [hb2td] itself the guard of [hb2td_step] always
    holds. *)
Lemma step_below_count_in_range n band sweep step ns :
  0 ≤ sweep < n - 2 → 0 ≤ step →
  nsteps band n sweep = Some ns → step < ns →
  ∃ ij, coords band sweep step = Some ij ∧ in_range n ij = true.
Proof.
  intros Hk Hs Ens Hlt.
  assert (2 ≤ band) as Hband
    by (eapply (nsteps_pos_band band n sweep ns); [done|lia..]).
  unfold nsteps in Ens.
  destruct (ceildiv (n - 1 - sweep) (band - 1)) as [c|] eqn:Ec; [|done].
  simpl in Ens. injection Ens as <-.
  apply ceildiv_bounds in Ec as [Hc _]; [|lia..].
  destruct (step_split step Hs) as (b & r & Hb & Hr & E & Eb & Et).
  unfold coords, in_range. rewrite Eb.
  destruct (decide (step = 0)) as [->|Hne].
  { eexists. split; [reflexivity|]. simpl.
    apply andb_true_iff. rewrite !Z.ltb_lt. lia. }
  rewrite (Et Hne). destruct Hr as [-> | ->]; simpl.
  - eexists. split; [reflexivity|]. simpl.
    assert (b * (band - 1) ≤ (c - 1) * (band - 1)) by nia.
    apply andb_true_iff. rewrite !Z.ltb_lt. lia.
  - eexists. split; [reflexivity|]. simpl.
    assert ((b + 1) * (band - 1) ≤ (c - 1) * (band - 1)) by nia.
    assert (0 ≤ b * (band - 1)) by nia.
    apply andb_true_iff. rewrite !Z.ltb_lt. nia.
Qed.

Section Step.
Context `{Kernels}.

Lemma subscript_n (kk : Z * Z) (R : Reflectors) : is_Some ((subscript kk R).2 !! kk).
Proof.
  unfold subscript. destruct (R !! kk) eqn:E; simpl; [by rewrite E|].
  by rewrite lookup_insert_eq.
Qed.

Lemma subscript_mono (kk : Z * Z) (R : Reflectors) (k : Z * Z) :
  is_Some (R !! k) → is_Some ((subscript kk R).2 !! k).
Proof.
  unfold subscript. destruct (R !! kk) eqn:E; simpl; [done|].
  intros Hk. destruct (decide (kk = k)) as [->|Hne].
  - by rewrite lookup_insert_eq.
  - by rewrite lookup_insert_ne.
Qed.

Lemma subscript_present (kk : Z * Z) (R : Reflectors) :
  is_Some (R !! kk) → (subscript kk R).2 = R.
Proof. unfold subscript. by intros [v ->]. Qed.

(** The step leaves the order of the matrix alone. *)
Lemma hb2td_step_n (A : HermitianMatrix) (band sweep step : Z)
    (R : Reflectors) :
  A_n (hb2td_step A band sweep step R).1 = A_n A.
Proof.
  unfold hb2td_step.
  repeat match goal with
         | |- context [if ?b then _ else _] => destruct b
         | |- context [let '(_, _) := ?x in _] => destruct x
         end; reflexivity.
Qed.

(** Out of range, the step is the identity. *)
Lemma hb2td_step_out_of_range (A : HermitianMatrix) (band sweep step : Z)
    (R : Reflectors) (ij : Z * Z) :
  coords band sweep step = Some ij →
  in_range (A_n A) ij = false →
  hb2td_step A band sweep step R = (A, R).
Proof.
  unfold coords, hb2td_step, in_range.
  destruct (task_of step =? 0); [intros [= <-]; simpl; by intros ->|].
  destruct (task_of step =? 1); [intros [= <-]; simpl; by intros ->|].
  destruct (task_of step =? 2); [intros [= <-]; simpl; by intros ->|].
  done.
Qed.

Lemma insert_mono (R : Reflectors) (k k' : Z * Z) v :
  is_Some (R !! k) → is_Some (<[k' := v]> R !! k).
Proof. intros Hk. apply lookup_insert_is_Some. destruct (decide (k' = k)); auto. Qed.

(** The store only grows. *)
Lemma hb2td_step_mono (A : HermitianMatrix) (band sweep step : Z)
    (R : Reflectors) (k : Z * Z) :
  is_Some (R !! k) →
  is_Some ((hb2td_step A band sweep step R).2 !! k).
Proof.
  intros Hk. unfold hb2td_step.
  repeat match goal with
         | |- context [let '(_, _) := subscript ?kk ?R0 in _] =>
             let Hm := fresh "Hm" in
             assert (Hm : is_Some ((subscript kk R0).2 !! k))
               by (apply subscript_mono; assumption);
             destruct (subscript kk R0) as [? ?]; simpl in Hm
         | |- context [let '(_, _) := ?x in _] => destruct x
         | |- context [if ?b then _ else _] => destruct b
         end; simpl; try done; by apply insert_mono.
Qed.

(** An in-range step leaves the key it produces in the store. *)
Lemma hb2td_step_produces (A : HermitianMatrix) (band sweep step : Z)
    (R : Reflectors) (ij k : Z * Z) :
  coords band sweep step = Some ij →
  in_range (A_n A) ij = true →
  produced_key band sweep step = Some k →
  is_Some ((hb2td_step A band sweep step R).2 !! k).
Proof.
  unfold coords, produced_key, coords, hb2td_step, in_range.
  destruct (task_of step =? 0).
  - intros [= <-]; simpl. intros -> [= <-].
    destruct (subscript _ R) as [v R1]. destruct (hebr1 _ _ _) as [d v'].
    simpl. by rewrite lookup_insert_eq.
  - destruct (task_of step =? 1).
    + intros [= <-]; simpl. intros -> [= <-].
      destruct (subscript _ R) as [v1 R1].
      destruct (subscript _ R1) as [v2 R2].
      destruct (hebr2 _ _ _ _) as [d v2'].
      simpl. by rewrite lookup_insert_eq.
    + destruct (task_of step =? 2); [|done]. by intros [= <-].
Qed.

End Step.
End StepFacts.

(* --------------------------------------------------------------------- *)
(** ** The thread team: what every reachable state satisfies              *)
(* --------------------------------------------------------------------- *)

Module TeamFacts.
Import Hb2td RunFacts StepFacts.

(** The thresholds of the two wait loops of a task. *)
Definition waited_prev (p : list Z) (tk : task) : Prop :=
  0 < t_sweep tk →
  ∃ v, load_at p (t_sweep tk - 1) = Some v
       ∧ Z.min (t_step tk + 2) (t_nsteps_last tk - 1) ≤ v.

Definition waited_self (p : list Z) (tk : task) : Prop :=
  ∃ v, load_at p (t_sweep tk) = Some v ∧ t_step tk - 1 ≤ v.

(** What a thread has seen once it has reached a phase of its task. *)
Definition in_flight (ph : phase) (p : list Z) (tk : task) : Prop :=
  match ph with
  | WaitPrev => True
  | WaitSelf => waited_prev p tk
  | RunStep | StoreDone => waited_prev p tk ∧ waited_self p tk
  end.

(** Every counter of [p'] is at least the one of [p]. *)
Definition progress_le (p p' : list Z) : Prop :=
  length p = length p'
  ∧ ∀ i v, p !! i = Some v → ∃ v', p' !! i = Some v' ∧ v ≤ v'.

Lemma progress_le_refl p : progress_le p p.
Proof. split; [done|]. intros i v Hi. exists v. split; [done|lia]. Qed.

Lemma progress_le_trans p1 p2 p3 :
  progress_le p1 p2 → progress_le p2 p3 → progress_le p1 p3.
Proof.
  intros [L1 H1] [L2 H2]. split; [congruence|]. intros i v Hv.
  destruct (H1 i v Hv) as (v2 & Hv2 & ?).
  destruct (H2 i v2 Hv2) as (v3 & Hv3 & ?).
  exists v3. split; [done|lia].
Qed.

Lemma progress_le_load p p' k v :
  progress_le p p' → load_at p k = Some v →
  ∃ v', load_at p' k = Some v' ∧ v ≤ v'.
Proof. unfold load_at. intros [_ Hle]. destruct (0 <=? k); [apply Hle|done]. Qed.

Lemma waited_prev_mono p p' tk :
  progress_le p p' → waited_prev p tk → waited_prev p' tk.
Proof.
  intros Hle Hw Hs. destruct (Hw Hs) as (v & Hv & Hd).
  destruct (progress_le_load _ _ _ _ Hle Hv) as (v' & Hv' & ?).
  exists v'. split; [done|lia].
Qed.

Lemma waited_self_mono p p' tk :
  progress_le p p' → waited_self p tk → waited_self p' tk.
Proof.
  intros Hle (v & Hv & Hd).
  destruct (progress_le_load _ _ _ _ Hle Hv) as (v' & Hv' & ?).
  exists v'. split; [done|lia].
Qed.

Lemma in_flight_mono ph p p' tk :
  progress_le p p' → in_flight ph p tk → in_flight ph p' tk.
Proof.
  intros Hle. destruct ph; simpl; [done|by apply waited_prev_mono| |];
    intros [? ?]; split;
    (by eapply waited_prev_mono) || (by eapply waited_self_mono).
Qed.

Lemma load_at_store p k s j :
  0 ≤ k < Z.of_nat (length p) →
  load_at (<[Z.to_nat k := s]> p) j
  = if decide (j = k) then Some s else load_at p j.
Proof.
  intros Hk. unfold load_at. case_decide as E.
  - subst j. destruct (0 <=? k) eqn:E0; [|apply Z.leb_gt in E0; lia].
    apply list_lookup_insert_eq. lia.
  - destruct (0 <=? j) eqn:E0; [|done]. apply Z.leb_le in E0.
    apply list_lookup_insert_ne. lia.
Qed.

Lemma progress_le_store p k s v :
  load_at p k = Some v → v ≤ s → progress_le p (<[Z.to_nat k := s]> p).
Proof.
  intros Hv Hs. split; [by rewrite length_insert|]. intros i w Hi.
  unfold load_at in Hv. destruct (0 <=? k); [|done].
  destruct (decide (i = Z.to_nat k)) as [->|Hne].
  - exists s. rewrite list_lookup_insert_eq by (by eapply lookup_lt_Some).
    split; [done|]. congruence.
  - exists w. rewrite list_lookup_insert_ne by done. split; [done|lia].
Qed.

Lemma lookup_set_thread (l : list thread) t t' x y :
  <[t := y]> l !! t' = Some x →
  (t' = t ∧ x = y) ∨ (t' ≠ t ∧ l !! t' = Some x).
Proof.
  intros Hl. apply list_lookup_insert_Some in Hl as [(-> & -> & _)|[? ?]];
    auto.
Qed.

Ltac proj_red :=
  cbn [th_tasks th_phase th_exit progress mat reflectors threads steps_done
       set_thread] in *.

Section Team.
Context `{Kernels}.
Variables n band : Z.

(** A task as [hb2td_run] issues them: its sweep has a counter, its
    [nsteps_last] is the step count of the sweep before and its step is
    below the step count of its sweep.  While it is not completed, the
    counter of its sweep is below its step. *)
Definition task_ok (tk : task) : Prop :=
  0 ≤ t_sweep tk < n - 2
  ∧ 0 ≤ t_step tk
  ∧ nsteps band n (t_sweep tk - 1) = Some (t_nsteps_last tk)
  ∧ ∃ ns, nsteps band n (t_sweep tk) = Some ns ∧ t_step tk < ns.

Definition pending (p : list Z) (tk : task) : Prop :=
  task_ok tk ∧ ∃ v, load_at p (t_sweep tk) = Some v ∧ v < t_step tk.

Record Inv (σ : sys) : Prop := {
  inv_n : A_n (mat σ) = n;
  inv_len : Z.of_nat (length (progress σ)) = n - 2;
  inv_lb : Forall (λ v, -1 ≤ v) (progress σ);
  inv_nodup :
    ∀ t th, threads σ !! t = Some th → NoDup (key <$> th_tasks th);
  inv_disj :
    ∀ t1 t2 th1 th2 tk1 tk2,
      threads σ !! t1 = Some th1 → threads σ !! t2 = Some th2 →
      tk1 ∈ th_tasks th1 → tk2 ∈ th_tasks th2 →
      key tk1 = key tk2 → t1 = t2;
  inv_pending :
    ∀ t th tk, threads σ !! t = Some th → tk ∈ th_tasks th →
               pending (progress σ) tk;
  inv_flight :
    ∀ t th tk rest, threads σ !! t = Some th → th_tasks th = tk :: rest →
                    in_flight (th_phase th) (progress σ) tk
}.

(** A thread moves on inside its task: only its phase changes. *)
Lemma Inv_phase σ σ' t th tk rest ph :
  Inv σ →
  threads σ !! t = Some th → th_tasks th = tk :: rest →
  progress σ' = progress σ → A_n (mat σ') = A_n (mat σ) →
  threads σ' =
    <[t := {| th_phase := ph; th_tasks := tk :: rest;
              th_exit := th_exit th |}]> (threads σ) →
  in_flight ph (progress σ) tk →
  Inv σ'.
Proof.
  intros HI Ht Htk Hp Hn Hth Hfl. destruct HI. split.
  - congruence.
  - congruence.
  - congruence.
  - intros t' th'. rewrite Hth. intros Hl.
    apply lookup_set_thread in Hl as [[-> ->]|[_ Hl]]; proj_red.
    + rewrite <- Htk. by eapply inv_nodup0.
    + by eapply inv_nodup0.
  - intros t1 t2 th1 th2 tk1 tk2. rewrite Hth. intros Hl1 Hl2.
    apply lookup_set_thread in Hl1 as [[-> ->]|[_ Hl1]];
      apply lookup_set_thread in Hl2 as [[-> ->]|[_ Hl2]]; proj_red;
      rewrite <- ?Htk; eauto.
  - intros t' th' tk'. rewrite Hth, Hp. intros Hl.
    apply lookup_set_thread in Hl as [[-> ->]|[_ Hl]]; proj_red;
      rewrite <- ?Htk; eauto.
  - intros t' th' tk' rest'. rewrite Hth, Hp. intros Hl.
    apply lookup_set_thread in Hl as [[-> ->]|[_ Hl]]; proj_red.
    + by intros [= <- <-].
    + eauto.
Qed.

(** A thread completes its task: the counter of the sweep takes the step. *)
Lemma Inv_store σ t th tk rest :
  Inv σ →
  threads σ !! t = Some th → th_tasks th = tk :: rest →
  th_phase th = StoreDone →
  load_at (progress σ) (t_sweep tk) = Some (t_step tk - 1)
  ∧ Inv {| progress := <[Z.to_nat (t_sweep tk) := t_step tk]> (progress σ);
           mat := mat σ; reflectors := reflectors σ;
           threads :=
             <[t := {| th_phase := WaitPrev; th_tasks := rest;
                       th_exit := th_exit th |}]> (threads σ);
           steps_done := steps_done σ |}.
Proof.
  intros HI Ht Htk Hph.
  pose proof (inv_flight _ HI _ _ _ _ Ht Htk) as Hfl.
  rewrite Hph in Hfl. destruct Hfl as [_ (v & Hv & Hge)].
  assert (tk ∈ th_tasks th) as Hin by (rewrite Htk; left).
  destruct (inv_pending _ HI _ _ _ Ht Hin) as ((Hk & _) & v' & Hv' & Hlt).
  assert (v' = v) as -> by congruence.
  assert (v = t_step tk - 1) as -> by lia.
  split; [done|].
  assert (progress_le (progress σ)
            (<[Z.to_nat (t_sweep tk) := t_step tk]> (progress σ))) as Hle
    by (eapply progress_le_store; [done|lia]).
  assert (0 ≤ t_sweep tk < Z.of_nat (length (progress σ))) as Hk'
    by (rewrite (inv_len _ HI); lia).
  pose proof (inv_nodup _ HI _ _ Ht) as Hnd.
  rewrite Htk, fmap_cons in Hnd. apply NoDup_cons in Hnd as [Hnotin Hnd].
  split; proj_red.
  - apply (inv_n _ HI).
  - rewrite length_insert. apply (inv_len _ HI).
  - apply Forall_insert; [apply (inv_lb _ HI)|].
    assert (-1 ≤ t_step tk - 1); [|lia].
    unfold load_at in Hv. destruct (0 <=? t_sweep tk); [|done].
    by eapply (Forall_lookup_1 _ _ _ _ (inv_lb _ HI)).
  - intros t' th' Hl.
    apply lookup_set_thread in Hl as [[-> ->]|[_ Hl]]; proj_red; [done|].
    by eapply (inv_nodup _ HI).
  - intros t1 t2 th1 th2 tk1 tk2 Hl1 Hl2.
    apply lookup_set_thread in Hl1 as [[-> ->]|[_ Hl1]];
      apply lookup_set_thread in Hl2 as [[-> ->]|[_ Hl2]]; proj_red; auto.
    + intros H1 H2. eapply (inv_disj _ HI); eauto. rewrite Htk. by right.
    + intros H1 H2. eapply (inv_disj _ HI); eauto. rewrite Htk. by right.
    + apply (inv_disj _ HI); eauto.
  - intros t' th' tk' Hl Hin'.
    assert (∃ th0, threads σ !! t' = Some th0 ∧ tk' ∈ th_tasks th0
                   ∧ key tk' ≠ key tk) as (th0 & Hl0 & Hin0 & Hne).
    { apply lookup_set_thread in Hl as [[-> ->]|[Hne Hl]]; proj_red.
      - exists th. split; [done|]. split; [rewrite Htk; by right|].
        intros E. apply Hnotin. rewrite <- E.
        apply list_elem_of_fmap. eauto.
      - exists th'. split; [done|]. split; [done|]. intros E.
        apply Hne. by eapply (inv_disj _ HI _ _ _ _ tk' tk). }
    destruct (inv_pending _ HI _ _ _ Hl0 Hin0) as (Hok & w & Hw & Hlt').
    split; [done|].
    rewrite load_at_store by done. case_decide as E.
    + exists (t_step tk). split; [done|].
      rewrite E in Hw. assert (w = t_step tk - 1) as -> by congruence.
      assert (t_step tk' ≠ t_step tk); [|lia].
      intros E'. apply Hne. unfold key. by rewrite E, E'.
    + eauto.
  - intros t' th' tk' rest' Hl Htk'.
    apply lookup_set_thread in Hl as [[-> ->]|[_ Hl]]; proj_red; [done|].
    eapply in_flight_mono; [done|]. by eapply (inv_flight _ HI).
Qed.

Lemma hb2td_step_mat (A : HermitianMatrix) (sweep step : Z) (R : Reflectors)
    A' R' :
  hb2td_step A band sweep step R = (A', R') → A_n A' = A_n A.
Proof.
  intros E. pose proof (hb2td_step_n A band sweep step R) as Hn.
  by rewrite E in Hn.
Qed.

(** Every action of a thread keeps the invariant and never lowers a
    counter. *)
Lemma exec_thread_Inv t σ σ' :
  Inv σ → exec_thread band t σ = Advance σ' →
  Inv σ' ∧ progress_le (progress σ) (progress σ').
Proof.
  intros HI. unfold exec_thread.
  destruct (threads σ !! t) as [th|] eqn:Ht; [|done].
  destruct (th_tasks th) as [|tk rest] eqn:Htk;
    [by destruct (th_exit th)|].
  assert (tk ∈ th_tasks th) as Hin by (rewrite Htk; left).
  pose proof (inv_flight _ HI _ _ _ _ Ht Htk) as Hfl.
  destruct (inv_pending _ HI _ _ _ Ht Hin) as ((Hk & _) & w & Hw & Hlt).
  destruct (th_phase th) eqn:Hph; proj_red.
  - (* the wait on the sweep before *)
    destruct (0 <? t_sweep tk) eqn:Hs.
    + destruct (load_at _ (t_sweep tk - 1)) as [v|] eqn:Hv; [|done].
      destruct (v <? _) eqn:Hd; [done|]. apply Z.ltb_ge in Hd.
      intros [= <-]. split; [|apply progress_le_refl].
      eapply Inv_phase; eauto. proj_red. intros _. eauto.
    + apply Z.ltb_ge in Hs. intros [= <-]. split; [|apply progress_le_refl].
      eapply Inv_phase; eauto. proj_red. intros ?. lia.
  - (* the wait on the step before *)
    destruct (0 <? t_step tk) eqn:Hs.
    + destruct (load_at _ (t_sweep tk)) as [v|] eqn:Hv; [|done].
      destruct (v <? _) eqn:Hd; [done|]. apply Z.ltb_ge in Hd.
      intros [= <-]. split; [|apply progress_le_refl].
      eapply Inv_phase; eauto. proj_red. split; [done|]. exists v. auto.
    + apply Z.ltb_ge in Hs. intros [= <-]. split; [|apply progress_le_refl].
      eapply Inv_phase; eauto. proj_red. split; [done|]. exists w.
      split; [done|].
      assert (-1 ≤ w); [|lia]. unfold load_at in Hw.
      destruct (0 <=? t_sweep tk); [|done].
      by eapply (Forall_lookup_1 _ _ _ _ (inv_lb _ HI)).
  - (* the call of hb2td_step *)
    destruct (hb2td_step _ _ _ _ _) as [A' R'] eqn:E. intros [= <-].
    split; [|apply progress_le_refl].
    eapply Inv_phase; eauto. proj_red. by eapply hb2td_step_mat.
  - (* the store *)
    destruct (Inv_store σ t th tk rest HI Ht Htk Hph) as [Hv HI'].
    unfold store_at. rewrite (inv_len _ HI).
    destruct (0 <=? t_sweep tk) eqn:E1; [|apply Z.leb_gt in E1; lia].
    destruct (t_sweep tk <? n - 2) eqn:E2; [|apply Z.ltb_ge in E2; lia].
    proj_red. intros [= <-]. split; [done|]. proj_red.
    eapply progress_le_store; [done|lia].
Qed.

(** What the history of a run tells: a counter at [v] means that the steps
    [0..v] of its sweep have run, a thread about to store has run its step,
    and the store holds what every in-range step that ran has produced. *)
Record Hist (σ : sys) : Prop := {
  hist_done :
    ∀ k v s', load_at (progress σ) k = Some v → 0 ≤ s' ≤ v →
              (k, s') ∈ steps_done σ;
  hist_store :
    ∀ t th tk rest, threads σ !! t = Some th → th_tasks th = tk :: rest →
                    th_phase th = StoreDone → key tk ∈ steps_done σ;
  hist_refl :
    ∀ k s ij (kk : Z * Z),
      (k, s) ∈ steps_done σ → coords band k s = Some ij →
      in_range n ij = true → produced_key band k s = Some kk →
      is_Some (reflectors σ !! kk)
}.

Lemma exec_thread_Hist t σ σ' :
  Inv σ → Hist σ → exec_thread band t σ = Advance σ' → Hist σ'.
Proof.
  intros HI HH. unfold exec_thread.
  destruct (threads σ !! t) as [th|] eqn:Ht; [|done].
  destruct (th_tasks th) as [|tk rest] eqn:Htk;
    [by destruct (th_exit th)|].
  assert (∀ ph σ1,
    ph ≠ StoreDone →
    progress σ1 = progress σ → steps_done σ1 = steps_done σ →
    reflectors σ1 = reflectors σ →
    threads σ1 =
      <[t := {| th_phase := ph; th_tasks := tk :: rest;
                th_exit := th_exit th |}]> (threads σ) →
    Hist σ1) as Hsame.
  { intros ph σ1 Hph Hp Hs Hr Hth. destruct HH. split.
    - rewrite Hp, Hs. eauto.
    - intros t' th' tk' rest'. rewrite Hth, Hs. intros Hl.
      apply lookup_set_thread in Hl as [[-> ->]|[_ Hl]]; proj_red;
        [done|eauto].
    - rewrite Hs, Hr. eauto. }
  destruct (th_phase th) eqn:Hph.
  - destruct (0 <? t_sweep tk).
    + destruct (load_at _ _) as [v|]; [|done].
      destruct (v <? _); [done|]. intros [= <-]. by apply (Hsame WaitSelf).
    + intros [= <-]. by apply (Hsame WaitSelf).
  - destruct (0 <? t_step tk).
    + destruct (load_at _ _) as [v|]; [|done].
      destruct (v <? _); [done|]. intros [= <-]. by apply (Hsame RunStep).
    + intros [= <-]. by apply (Hsame RunStep).
  - destruct (hb2td_step _ _ _ _ _) as [A' R'] eqn:E. intros [= <-].
    destruct HH. split; proj_red.
    + intros k v s' Hv Hs'. apply elem_of_app. left. eauto.
    + intros t' th' tk' rest' Hl.
      apply lookup_set_thread in Hl as [[-> ->]|[_ Hl]]; proj_red.
      * intros [= <- <-] _. apply elem_of_app. right. by left.
      * intros ? ?. apply elem_of_app. left. eauto.
    + intros k s ij kk Hin Hc Hr Hp.
      replace R' with (hb2td_step (mat σ) band (t_sweep tk) (t_step tk)
                         (reflectors σ)).2 by (by rewrite E).
      apply elem_of_app in Hin as [Hin|Hin].
      * apply hb2td_step_mono. eauto.
      * apply list_elem_of_singleton in Hin as [= -> ->].
        eapply hb2td_step_produces; eauto. by rewrite (inv_n _ HI).
  - destruct (Inv_store σ t th tk rest HI Ht Htk Hph) as [Hv HI'].
    destruct (store_at _ _ _) as [p'|] eqn:Hst; [|done]. intros [= <-].
    unfold store_at in Hst.
    destruct (_ && _) eqn:Hb; [|done]. injection Hst as <-.
    apply andb_prop in Hb as [Hb1 Hb2].
    apply Z.leb_le in Hb1. apply Z.ltb_lt in Hb2.
    pose proof (hist_store _ HH _ _ _ _ Ht Htk Hph) as Hdone.
    destruct HH. split; proj_red.
    + intros k v s'. rewrite load_at_store by lia. case_decide as Ek.
      * intros [= <-] Hs'. subst k.
        destruct (decide (s' = t_step tk)) as [->|Hne]; [done|].
        eapply hist_done0; [done|lia].
      * eauto.
    + intros t' th' tk' rest' Hl.
      apply lookup_set_thread in Hl as [[-> ->]|[_ Hl]]; proj_red;
        [done|eauto].
    + eauto.
Qed.

Definition Good (σ : sys) : Prop := Inv σ ∧ Hist σ.

Lemma sys_step_Good σ σ' :
  Good σ → sys_step band σ σ' → Good σ'.
Proof.
  intros [HI HH] [t Ht]. split.
  - by eapply exec_thread_Inv.
  - by eapply exec_thread_Hist.
Qed.

Lemma rtc_Good σ σ' :
  Good σ → rtc (sys_step band) σ σ' → Good σ'.
Proof. intros HG Hr. induction Hr; eauto using sys_step_Good. Qed.

(** Over any stretch of a run no counter goes down. *)
Lemma rtc_progress_le σ σ' :
  Good σ → rtc (sys_step band) σ σ' →
  progress_le (progress σ) (progress σ').
Proof.
  intros HG Hr. induction Hr as [|σ σ1 σ' Hstep _ IH];
    [apply progress_le_refl|].
  eapply progress_le_trans; [|apply IH; by eapply sys_step_Good].
  destruct Hstep as [t Ht]. destruct HG as [HI _].
  by eapply exec_thread_Inv.
Qed.

End Team.

(** *** The initial state of [hb2td] *)

Section Init.
Context `{Kernels}.

Lemma ceildiv_3 thread_size :
  1 ≤ thread_size → ∃ ps, ceildiv thread_size 3 = Some ps ∧ 1 ≤ ps.
Proof.
  intros HT. unfold ceildiv. simpl. eexists. split; [done|].
  apply Z.quot_le_lower_bound; lia.
Qed.

Lemma hb2td_init_Ok (A : HermitianMatrix) band thread_size :
  1 ≤ thread_size → 2 ≤ A_n A →
  ∃ ps, ceildiv thread_size 3 = Some ps ∧ 1 ≤ ps
    ∧ hb2td_init A band thread_size
      = Ok {| progress := replicate (Z.to_nat (A_n A - 2)) (-1);
              mat := A; reflectors := ∅;
              threads := spawn band (A_n A) ps thread_size
                           <$> seqZ 0 thread_size;
              steps_done := [] |}.
Proof.
  intros HT Hn. destruct (ceildiv_3 _ HT) as (ps & Eps & Hps).
  exists ps. split; [done|]. split; [done|]. unfold hb2td_init.
  destruct (A_n A - 2 <? 0) eqn:E; [apply Z.ltb_lt in E; lia|].
  by rewrite Eps.
Qed.

Lemma hb2td_init_inv (A : HermitianMatrix) band thread_size σ0 :
  hb2td_init A band thread_size = Ok σ0 → 2 ≤ A_n A.
Proof.
  unfold hb2td_init. destruct (A_n A - 2 <? 0) eqn:E; [done|].
  apply Z.ltb_ge in E. lia.
Qed.

Lemma lookup_spawn band diag_len ps thread_size t th :
  (spawn band diag_len ps thread_size <$> seqZ 0 thread_size) !! t = Some th →
  th = spawn band diag_len ps thread_size (Z.of_nat t)
  ∧ Z.of_nat t < thread_size.
Proof.
  intros Hl. apply list_lookup_fmap_Some in Hl as (r & -> & Hr).
  apply lookup_seqZ in Hr as [-> ?]. by rewrite Z.add_0_l.
Qed.

Lemma hb2td_init_Good (A : HermitianMatrix) band thread_size σ0 :
  1 ≤ thread_size →
  hb2td_init A band thread_size = Ok σ0 →
  Good (A_n A) band σ0.
Proof.
  intros HT E. pose proof (hb2td_init_inv _ _ _ _ E) as Hn.
  destruct (hb2td_init_Ok A band thread_size HT Hn) as (ps & Eps & Hps & E').
  rewrite E' in E. injection E as <-. split; split; proj_red.
  - done.
  - rewrite length_replicate. lia.
  - by apply Forall_replicate.
  - intros t th Hl. apply lookup_spawn in Hl as [-> Ht]. unfold spawn.
    proj_red. apply run_NoDup; lia.
  - intros t1 t2 th1 th2 tk1 tk2 Hl1 Hl2.
    apply lookup_spawn in Hl1 as [-> Ht1].
    apply lookup_spawn in Hl2 as [-> Ht2]. unfold spawn. proj_red.
    intros H1 H2 Hk. apply Nat2Z.inj.
    eapply (run_disjoint band (A_n A) ps thread_size); eauto; lia.
  - intros t th tk Hl. apply lookup_spawn in Hl as [-> Ht]. unfold spawn.
    proj_red. intros Hin.
    apply run_issued in Hin as (Hk & Hs & Hnl & Hns); [|lia..].
    split; [done|]. exists (-1). split; [|lia].
    unfold load_at. destruct (0 <=? t_sweep tk) eqn:E0;
      [|apply Z.leb_gt in E0; lia].
    apply lookup_replicate_2. lia.
  - intros t th tk rest Hl. apply lookup_spawn in Hl as [-> Ht]. done.
  - intros k v s'. unfold load_at. destruct (0 <=? k); [|done].
    intros Hl. apply lookup_replicate in Hl as [-> _]. lia.
  - intros t th tk rest Hl. apply lookup_spawn in Hl as [-> Ht]. done.
  - intros k s ij kk Hin. by apply elem_of_nil in Hin.
Qed.

(** The steps of a sweep that the team is given are the steps below the
    step count of the sweep. *)
Lemma team_steps_of_sweep (A : HermitianMatrix) band thread_size σ0 k ns s :
  1 ≤ thread_size →
  hb2td_init A band thread_size = Ok σ0 →
  0 ≤ k < A_n A - 2 → nsteps band (A_n A) k = Some ns →
  (∃ t th tk, threads σ0 !! t = Some th ∧ tk ∈ th_tasks th ∧ key tk = (k, s))
  ↔ 0 ≤ s < ns.
Proof.
  intros HT E0 Hk Ens. split.
  - intros (t & th & tk & Ht & Hin & [= <- <-]).
    destruct (hb2td_init_Good A band thread_size σ0 HT E0) as [HI _].
    destruct (inv_pending _ _ _ HI _ _ _ Ht Hin)
      as ((_ & Hs & _ & ns' & Ens' & Hlt) & _).
    assert (ns' = ns) as -> by congruence. lia.
  - intros Hs. pose proof (hb2td_init_inv _ _ _ _ E0) as Hn.
    destruct (hb2td_init_Ok A band thread_size HT Hn) as (ps & Eps & Hps & E').
    rewrite E' in E0. injection E0 as <-.
    assert (band ≠ 1) as Hb by (intros ->; by rewrite nsteps_None in Ens).
    destruct (nsteps_Some band (A_n A) (k - 1) Hb) as [nl Enl].
    destruct (run_issues band (A_n A) ps thread_size HT Hps k s ns nl)
      as (rank & Hrank & Hin); try done; try lia.
    exists (Z.to_nat rank), (spawn band (A_n A) ps thread_size rank),
      {| t_sweep := k; t_step := s; t_nsteps_last := nl |}.
    proj_red. split; [|split; [exact Hin|done]].
    apply list_lookup_fmap_Some. exists rank. split; [done|].
    apply lookup_seqZ. lia.
Qed.

Lemma reachable_Good (A : HermitianMatrix) band thread_size σ0 σ :
  1 ≤ thread_size →
  hb2td_init A band thread_size = Ok σ0 →
  rtc (sys_step band) σ0 σ →
  Good (A_n A) band σ.
Proof.
  intros HT E Hr. eapply rtc_Good; [|done]. by eapply hb2td_init_Good.
Qed.

End Init.
End TeamFacts.

(* --------------------------------------------------------------------- *)
(** ** hb2td: the statements about the reduction pipeline                 *)
(* --------------------------------------------------------------------- *)

Module Pipeline.
Import Hb2td RunFacts StepFacts TeamFacts.

(** Kernels that leave the matrix alone and write one coefficient; they
    instantiate the statements below on concrete runs. *)
Definition unit_kernels : Kernels :=
  {| scalar := Z; data := unit;
     hebr1 := λ _ d _, (d, [1]);
     hebr2 := λ v _ d _, (d, 2 :: v);
     hebr3 := λ _ _ d, d |}.

Definition matrix_of_order (n : Z) : @HermitianMatrix unit_kernels :=
  @Build_HermitianMatrix unit_kernels n tt.

Lemma run_schedule_rtc `{Kernels} band sched σ :
  rtc (sys_step band) σ (run_schedule band sched σ).
Proof.
  revert σ. induction sched as [|t sched IH]; intros σ; simpl; [done|].
  destruct (exec_thread band t σ) as [σ'| | |] eqn:E; try apply IH.
  eapply rtc_l; [by exists t|apply IH].
Qed.

Section Waits.
Context `{Kernels}.

Lemma load_at_in_range (p : list Z) k :
  0 ≤ k < Z.of_nat (length p) → ∃ v, load_at p k = Some v.
Proof.
  intros Hk. unfold load_at.
  destruct (0 <=? k) eqn:E; [|apply Z.leb_gt in E; lia].
  apply lookup_lt_is_Some. lia.
Qed.

(** The first wait loop spins exactly while the counter of the sweep
    before is below its threshold; a task of sweep 0 does not wait. *)
Lemma wait_prev_spec n band t σ th tk rest :
  Inv n band σ →
  threads σ !! t = Some th → th_tasks th = tk :: rest →
  th_phase th = WaitPrev →
  (exec_thread band t σ = Spin ↔
     0 < t_sweep tk
     ∧ ∃ v, load_at (progress σ) (t_sweep tk - 1) = Some v
            ∧ v < Z.min (t_step tk + 2) (t_nsteps_last tk - 1))
  ∧ (exec_thread band t σ = Spin
     ∨ exec_thread band t σ
       = Advance (set_thread t {| th_phase := WaitSelf; th_tasks := tk :: rest;
                                  th_exit := th_exit th |} σ)).
Proof.
  intros HI Ht Htk Hph.
  assert (tk ∈ th_tasks th) as Hin by (rewrite Htk; left).
  destruct (inv_pending _ _ _ HI _ _ _ Ht Hin) as ((Hk & _) & _).
  unfold exec_thread. rewrite Ht, Htk, Hph.
  destruct (0 <? t_sweep tk) eqn:Hs.
  - apply Z.ltb_lt in Hs.
    destruct (load_at_in_range (progress σ) (t_sweep tk - 1)) as [v Hv];
      [rewrite (inv_len _ _ _ HI); lia|].
    rewrite Hv. destruct (v <? _) eqn:Hd.
    + apply Z.ltb_lt in Hd. split; [|by left]. split; [|done].
      intros _. split; [done|]. by exists v.
    + apply Z.ltb_ge in Hd. split; [|by right]. split; [done|].
      intros (_ & v' & [= <-] & ?). lia.
  - apply Z.ltb_ge in Hs. split; [|by right]. split; [done|]. lia.
Qed.

(** The second wait loop spins exactly while the counter of the sweep is
    below [step-1]; step 0 does not wait. *)
Lemma wait_self_spec n band t σ th tk rest :
  Inv n band σ →
  threads σ !! t = Some th → th_tasks th = tk :: rest →
  th_phase th = WaitSelf →
  (exec_thread band t σ = Spin ↔
     0 < t_step tk
     ∧ ∃ v, load_at (progress σ) (t_sweep tk) = Some v ∧ v < t_step tk - 1)
  ∧ (exec_thread band t σ = Spin
     ∨ exec_thread band t σ
       = Advance (set_thread t {| th_phase := RunStep; th_tasks := tk :: rest;
                                  th_exit := th_exit th |} σ)).
Proof.
  intros HI Ht Htk Hph.
  assert (tk ∈ th_tasks th) as Hin by (rewrite Htk; left).
  destruct (inv_pending _ _ _ HI _ _ _ Ht Hin) as ((Hk & _) & _).
  unfold exec_thread. rewrite Ht, Htk, Hph.
  destruct (0 <? t_step tk) eqn:Hs.
  - apply Z.ltb_lt in Hs.
    destruct (load_at_in_range (progress σ) (t_sweep tk)) as [v Hv];
      [rewrite (inv_len _ _ _ HI); lia|].
    rewrite Hv. destruct (v <? _) eqn:Hd.
    + apply Z.ltb_lt in Hd. split; [|by left]. split; [|done].
      intros _. split; [done|]. by exists v.
    + apply Z.ltb_ge in Hd. split; [|by right]. split; [done|].
      intros (_ & v' & [= <-] & ?). lia.
  - apply Z.ltb_ge in Hs. split; [|by right]. split; [done|]. lia.
Qed.

End Waits.

(** C1.  In every state the team of [hb2td] can reach, a thread that is
    about to call [hb2td_step] for step [s] of sweep [k] has both
    dependencies: if [s > 0] the counter of sweep [k] is at least [s-1], and
    if [k > 0] the counter of sweep [k-1] is at least
    [min(s+2, nsteps_last-1)], where [nsteps_last] is the step count of sweep
    [k-1]: the steps of sweep [k-1] given to the threads are the steps
    [0 .. nsteps_last-1].  It got there through the two wait loops: the
    first spins exactly while [k > 0] and the counter of sweep [k-1] is
    below that minimum, the second exactly while [s > 0] and the counter of
    sweep [k] is below [s-1]; so a step of sweep 0 has no cross-sweep wait
    and step 0 has no wait inside its sweep. *)
Theorem step_begins_after_dependencies `{Kernels} (A : HermitianMatrix)
    band thread_size σ0 σ t th tk rest :
  1 ≤ thread_size →
  hb2td_init A band thread_size = Ok σ0 →
  rtc (sys_step band) σ0 σ →
  threads σ !! t = Some th → th_tasks th = tk :: rest →
  nsteps band (A_n A) (t_sweep tk - 1) = Some (t_nsteps_last tk)
  ∧ (0 < t_sweep tk →
     ∀ s, (∃ t' th' tk', threads σ0 !! t' = Some th' ∧ tk' ∈ th_tasks th'
                         ∧ key tk' = (t_sweep tk - 1, s))
          ↔ 0 ≤ s < t_nsteps_last tk)
  ∧ (th_phase th = RunStep →
       (0 < t_step tk →
          ∃ v, load_at (progress σ) (t_sweep tk) = Some v ∧ t_step tk - 1 ≤ v)
       ∧ (0 < t_sweep tk →
            ∃ v, load_at (progress σ) (t_sweep tk - 1) = Some v
                 ∧ Z.min (t_step tk + 2) (t_nsteps_last tk - 1) ≤ v))
  ∧ (th_phase th = WaitPrev →
       (exec_thread band t σ = Spin ↔
          0 < t_sweep tk
          ∧ ∃ v, load_at (progress σ) (t_sweep tk - 1) = Some v
                 ∧ v < Z.min (t_step tk + 2) (t_nsteps_last tk - 1))
       ∧ (exec_thread band t σ = Spin
          ∨ exec_thread band t σ
            = Advance (set_thread t
                         {| th_phase := WaitSelf; th_tasks := tk :: rest;
                            th_exit := th_exit th |} σ)))
  ∧ (th_phase th = WaitSelf →
       (exec_thread band t σ = Spin ↔
          0 < t_step tk
          ∧ ∃ v, load_at (progress σ) (t_sweep tk) = Some v
                 ∧ v < t_step tk - 1)
       ∧ (exec_thread band t σ = Spin
          ∨ exec_thread band t σ
            = Advance (set_thread t
                         {| th_phase := RunStep; th_tasks := tk :: rest;
                            th_exit := th_exit th |} σ))).
Proof.
  intros HT E0 Hr Ht Htk.
  destruct (reachable_Good A band thread_size σ0 σ HT E0 Hr) as [HI _].
  assert (tk ∈ th_tasks th) as Hin by (rewrite Htk; left).
  destruct (inv_pending _ _ _ HI _ _ _ Ht Hin) as ((Hk & _ & Hnl & _) & _).
  split; [done|]. split; [|split; [|split]].
  - intros Hpos s. apply (team_steps_of_sweep A band thread_size); try done.
    lia.
  - intros Hph. pose proof (inv_flight _ _ _ HI _ _ _ _ Ht Htk) as Hfl.
    rewrite Hph in Hfl. destruct Hfl as [Hprev Hself]. split; [|done].
    by intros _.
  - by eapply wait_prev_spec.
  - by eapply wait_self_spec.
Qed.

(** A run of one thread on a matrix of order 5 with band 2, stopped when
    the thread is about to run step 1 of sweep 1. *)
Definition demo_init : sys (H := unit_kernels) :=
  Eval vm_compute in
    match hb2td_init (matrix_of_order 5) 2 1 with
    | Ok σ => σ
    | Err _ =>
        {| progress := []; mat := matrix_of_order 5; reflectors := ∅;
           threads := []; steps_done := [] |}
    end.

Definition demo_state : sys (H := unit_kernels) :=
  Eval vm_compute in run_schedule 2 (replicate 34 0%nat) demo_init.

Definition demo_thread : thread :=
  Eval vm_compute in default (spawn 2 5 1 1 0) (threads demo_state !! 0%nat).

Lemma demo_init_eq : hb2td_init (matrix_of_order 5) 2 1 = Ok demo_init.
Proof. vm_compute. reflexivity. Qed.

Lemma demo_reachable : rtc (sys_step 2) demo_init demo_state.
Proof.
  change demo_state with (run_schedule 2 (replicate 34 0%nat) demo_init).
  apply run_schedule_rtc.
Qed.

Lemma step_begins_after_dependencies_witness :
  th_phase demo_thread = RunStep
  ∧ nsteps 2 5 (1 - 1) = Some 7
  ∧ (∃ v, load_at (progress demo_state) 1 = Some v ∧ 1 - 1 ≤ v)
  ∧ (∃ v, load_at (progress demo_state) (1 - 1) = Some v
          ∧ Z.min (1 + 2) (7 - 1) ≤ v).
Proof.
  destruct (step_begins_after_dependencies (matrix_of_order 5) 2 1
              demo_init demo_state 0%nat demo_thread
              {| t_sweep := 1; t_step := 1; t_nsteps_last := 7 |}
              (tl (th_tasks demo_thread)))
    as (Hnl & _ & Hrun & _).
  - lia.
  - exact demo_init_eq.
  - exact demo_reachable.
  - vm_compute. reflexivity.
  - vm_compute. reflexivity.
  - split; [reflexivity|]. split; [exact Hnl|].
    destruct (Hrun eq_refl) as [Hself Hprev].
    split; [apply Hself; reflexivity|apply Hprev; reflexivity].
Defined.

(** C8.  [hb2td] sets every counter of the progress table to -1 before any
    thread starts.  In every state the team can reach, an action of a thread
    changes the table only when it is the store that ends a task; that store
    writes the step of the task, whose call of [hb2td_step] is then among
    the calls made, over the value [step-1], so strictly above the value it
    replaces; hence no action lowers a counter, and over any stretch of the
    reduction every counter ends at least where it started. *)
Theorem progress_counters_only_increase `{Kernels} (A : HermitianMatrix)
    band thread_size σ0 :
  1 ≤ thread_size →
  hb2td_init A band thread_size = Ok σ0 →
  progress σ0 = replicate (Z.to_nat (A_n A - 2)) (-1)
  ∧ steps_done σ0 = []
  ∧ (∀ σ t σ' th,
       rtc (sys_step band) σ0 σ →
       exec_thread band t σ = Advance σ' →
       threads σ !! t = Some th →
       progress_le (progress σ) (progress σ')
       ∧ match th_phase th, th_tasks th with
         | StoreDone, tk :: _ =>
             key tk ∈ steps_done σ
             ∧ load_at (progress σ) (t_sweep tk) = Some (t_step tk - 1)
             ∧ load_at (progress σ') (t_sweep tk) = Some (t_step tk)
             ∧ progress σ'
               = <[Z.to_nat (t_sweep tk) := t_step tk]> (progress σ)
         | _, _ => progress σ' = progress σ
         end)
  ∧ (∀ σ σ',
       rtc (sys_step band) σ0 σ → rtc (sys_step band) σ σ' →
       progress_le (progress σ) (progress σ')).
Proof.
  intros HT E0. pose proof (hb2td_init_inv _ _ _ _ E0) as Hn.
  destruct (hb2td_init_Ok A band thread_size HT Hn) as (ps & _ & _ & E').
  pose proof E0 as E0'. rewrite E' in E0'. injection E0' as E0'.
  split; [by rewrite <- E0'|]. split; [by rewrite <- E0'|].
  split; [|intros σ σ' Hr Hr';
           apply (rtc_progress_le (A_n A) band);
           [by apply (reachable_Good A band thread_size σ0)|done]].
  intros σ t σ' th Hr Hex Ht.
  destruct (reachable_Good A band thread_size σ0 σ HT E0 Hr) as [HI HH].
  split; [by eapply exec_thread_Inv|].
  revert Hex. unfold exec_thread. rewrite Ht.
  destruct (th_tasks th) as [|tk rest] eqn:Htk.
  { by destruct (th_exit th), (th_phase th). }
  destruct (th_phase th) eqn:Hph.
  - destruct (0 <? t_sweep tk); [|by intros [= <-]].
    destruct (load_at _ _) as [v|]; [|done].
    destruct (v <? _); [done|]. by intros [= <-].
  - destruct (0 <? t_step tk); [|by intros [= <-]].
    destruct (load_at _ _) as [v|]; [|done].
    destruct (v <? _); [done|]. by intros [= <-].
  - destruct (hb2td_step _ _ _ _ _) as [A' R']. by intros [= <-].
  - destruct (Inv_store _ _ σ t th tk rest HI Ht Htk Hph) as [Hv _].
    pose proof (hist_store _ _ _ HH _ _ _ _ Ht Htk Hph) as Hdone.
    unfold store_at. destruct (_ && _) eqn:Hb; [|done].
    apply andb_prop in Hb as [Hb1 Hb2].
    apply Z.leb_le in Hb1. apply Z.ltb_lt in Hb2.
    intros [= <-]. proj_red. split; [done|]. split; [done|].
    split; [|done]. rewrite load_at_store by lia. by case_decide.
Qed.

(** The thread of the run above, about to store the end of step 0 of
    sweep 0, and the state after that store. *)
Definition demo_before_store : sys (H := unit_kernels) :=
  Eval vm_compute in run_schedule 2 (replicate 3 0%nat) demo_init.

Definition demo_after_store : sys (H := unit_kernels) :=
  Eval vm_compute in run_schedule 2 (replicate 4 0%nat) demo_init.

Lemma progress_counters_only_increase_witness :
  progress demo_init = replicate (Z.to_nat (5 - 2)) (-1)
  ∧ steps_done demo_init = []
  ∧ progress_le (progress demo_before_store) (progress demo_after_store)
  ∧ (0, 0) ∈ steps_done demo_before_store
  ∧ load_at (progress demo_before_store) 0 = Some (0 - 1)
  ∧ load_at (progress demo_after_store) 0 = Some 0.
Proof.
  destruct (progress_counters_only_increase (matrix_of_order 5) 2 1 demo_init)
    as (Hp & Hs & Hstep & _); [lia|exact demo_init_eq|].
  split; [exact Hp|]. split; [exact Hs|].
  destruct (Hstep demo_before_store 0%nat demo_after_store
              (default (spawn 2 5 1 1 0)
                 (threads demo_before_store !! 0%nat)))
    as (Hle & Hdone & Hold & Hnew & _).
  - change demo_before_store
      with (run_schedule 2 (replicate 3 0%nat) demo_init).
    apply run_schedule_rtc.
  - vm_compute. reflexivity.
  - vm_compute. reflexivity.
  - split; [exact Hle|]. split; [exact Hdone|]. split; [exact Hold|exact Hnew].
Defined.

Lemma coords_is_Some band sweep step : is_Some (coords band sweep step).
Proof.
  unfold coords. destruct (task_of_cases step) as [-> | [-> | ->]]; by eexists.
Qed.

(** C7.  A call of [hb2td_step] whose coordinates are out of range
    ([i >= A.n()] or [j >= A.n()]) is the identity on the matrix and on the
    reflector store and raises nothing; a thread of [hb2td_run] making such a
    call goes on to the store all the same, after which the counter of the
    sweep holds the step, with matrix and reflector store still untouched,
    and the thread is at its next task. *)
Theorem out_of_range_step_is_a_recorded_noop `{Kernels} band t (σ : sys)
    th tk rest ij :
  threads σ !! t = Some th → th_tasks th = tk :: rest →
  th_phase th = RunStep →
  coords band (t_sweep tk) (t_step tk) = Some ij →
  in_range (A_n (mat σ)) ij = false →
  0 ≤ t_sweep tk < Z.of_nat (length (progress σ)) →
  hb2td_step (mat σ) band (t_sweep tk) (t_step tk) (reflectors σ)
  = (mat σ, reflectors σ)
  ∧ ∃ σ1 σ2,
      exec_thread band t σ = Advance σ1
      ∧ mat σ1 = mat σ ∧ reflectors σ1 = reflectors σ
      ∧ progress σ1 = progress σ
      ∧ exec_thread band t σ1 = Advance σ2
      ∧ mat σ2 = mat σ ∧ reflectors σ2 = reflectors σ
      ∧ load_at (progress σ2) (t_sweep tk) = Some (t_step tk)
      ∧ threads σ2 !! t
        = Some {| th_phase := WaitPrev; th_tasks := rest;
                  th_exit := th_exit th |}.
Proof.
  intros Ht Htk Hph Hc Hout Hk.
  pose proof (hb2td_step_out_of_range (mat σ) band _ _ (reflectors σ) ij
                Hc Hout) as Eid.
  split; [done|].
  pose proof (lookup_lt_Some _ _ _ Ht) as Hlen.
  eexists _, _. split.
  { unfold exec_thread. rewrite Ht, Htk, Hph, Eid. reflexivity. }
  proj_red. split; [done|]. split; [done|]. split; [done|]. split.
  { unfold exec_thread. proj_red.
    rewrite list_lookup_insert_eq by done. proj_red.
    unfold store_at.
    destruct (0 <=? t_sweep tk) eqn:E1; [|apply Z.leb_gt in E1; lia].
    destruct (t_sweep tk <? _) eqn:E2; [|apply Z.ltb_ge in E2; lia].
    reflexivity. }
  proj_red. split; [done|]. split; [done|]. split.
  - rewrite load_at_store by done. by case_decide.
  - rewrite list_insert_insert_eq. apply list_lookup_insert_eq. done.
Qed.

(** A thread about to run step 1 of sweep 0 with band 3 on a matrix of
    order 2: the coordinates (3, 1) are out of range. *)
Definition corner_thread : thread :=
  {| th_phase := RunStep;
     th_tasks := [{| t_sweep := 0; t_step := 1; t_nsteps_last := 1 |}];
     th_exit := Ok 0 |}.

Definition corner_state : sys (H := unit_kernels) :=
  {| progress := [0]; mat := matrix_of_order 2; reflectors := ∅;
     threads := [corner_thread]; steps_done := [(0, 0)] |}.

Lemma out_of_range_step_is_a_recorded_noop_witness :
  hb2td_step (mat corner_state) 3 0 1 (reflectors corner_state)
  = (mat corner_state, reflectors corner_state)
  ∧ ∃ σ1 σ2,
      exec_thread 3 0 corner_state = Advance σ1
      ∧ mat σ1 = mat corner_state
      ∧ reflectors σ1 = reflectors corner_state
      ∧ progress σ1 = progress corner_state
      ∧ exec_thread 3 0 σ1 = Advance σ2
      ∧ mat σ2 = mat corner_state
      ∧ reflectors σ2 = reflectors corner_state
      ∧ load_at (progress σ2) 0 = Some 1
      ∧ threads σ2 !! 0%nat
        = Some {| th_phase := WaitPrev; th_tasks := []; th_exit := Ok 0 |}.
Proof.
  apply (out_of_range_step_is_a_recorded_noop 3 0%nat corner_state
           corner_thread {| t_sweep := 0; t_step := 1; t_nsteps_last := 1 |}
           [] (3, 1)).
  - reflexivity.
  - reflexivity.
  - reflexivity.
  - reflexivity.
  - reflexivity.
  - simpl. lia.
Defined.

(** *** The reflectors a step consumes *)

Section Consumed.
Context `{Kernels}.

Lemma run_steps_n (hist : list (Z * Z)) :
  ∀ (A : HermitianMatrix) band (R : Reflectors),
    A_n (run_steps A band hist R).1 = A_n A.
Proof.
  induction hist as [|[k s] hist IH]; intros A band R; simpl; [done|].
  destruct (hb2td_step A band k s R) as [A' R'] eqn:E.
  rewrite IH. pose proof (hb2td_step_n A band k s R) as Hn.
  by rewrite E in Hn.
Qed.

Lemma run_steps_mono (hist : list (Z * Z)) :
  ∀ (A : HermitianMatrix) band (R : Reflectors) (kk : Z * Z),
    is_Some (R !! kk) → is_Some ((run_steps A band hist R).2 !! kk).
Proof.
  induction hist as [|[k s] hist IH]; intros A band R kk Hkk; simpl; [done|].
  destruct (hb2td_step A band k s R) as [A' R'] eqn:E.
  apply IH. pose proof (hb2td_step_mono A band k s R kk Hkk) as Hm.
  by rewrite E in Hm.
Qed.

(** After a sequence of steps the store holds what each in-range step of
    the sequence produces. *)
Lemma run_steps_produced (hist : list (Z * Z)) :
  ∀ (A : HermitianMatrix) band (R : Reflectors) k s ij (kk : Z * Z),
    (k, s) ∈ hist →
    coords band k s = Some ij → in_range (A_n A) ij = true →
    produced_key band k s = Some kk →
    is_Some ((run_steps A band hist R).2 !! kk).
Proof.
  induction hist as [|[k0 s0] hist IH]; intros A band R k s ij kk Hin Hc Hr Hp.
  { by apply elem_of_nil in Hin. }
  simpl. destruct (hb2td_step A band k0 s0 R) as [A' R'] eqn:E.
  apply elem_of_cons in Hin as [[= <- <-]|Hin].
  - apply run_steps_mono.
    pose proof (hb2td_step_produces A band k s R ij kk Hc Hr Hp) as Hm.
    by rewrite E in Hm.
  - eapply IH; eauto.
    pose proof (hb2td_step_n A band k0 s0 R) as Hn. rewrite E in Hn.
    simpl in Hn. by rewrite Hn.
Qed.

Lemma producer_of_cases step :
  1 ≤ step →
  (task_of step = 2 ∧ producer_of step = step - 1
   ∧ task_of (step - 1) = 1)
  ∨ (task_of step = 1 ∧ step = 1 ∧ producer_of step = 0 ∧ task_of 0 = 0)
  ∨ (task_of step = 1 ∧ 3 ≤ step ∧ producer_of step = step - 2
     ∧ task_of (step - 2) = 1).
Proof.
  intros Hs. unfold producer_of.
  destruct (step_split step) as (b & r & Hb & Hr & E & _ & Et); [lia|].
  specialize (Et ltac:(lia)). rewrite Et.
  destruct Hr as [-> | ->]; simpl.
  - left. split; [done|]. split; [done|].
    destruct (step_split (step - 1)) as (b' & r' & _ & Hr' & E' & _ & Et');
      [lia|].
    rewrite Et' by lia. lia.
  - right. destruct (step =? 1) eqn:E1.
    + apply Z.eqb_eq in E1. left. done.
    + apply Z.eqb_neq in E1. right. split; [done|]. split; [lia|].
      split; [done|].
      destruct (step_split (step - 2)) as (b' & r' & _ & Hr' & E' & _ & Et');
        [lia|].
      rewrite Et' by lia. lia.
Qed.

(** In the pipeline, a thread about to run step [s >= 1] of a sweep has the
    steps before it of that sweep behind it, its coordinates are in range,
    and the key it consumes is in the store. *)
Lemma pipeline_consumed_present (A : HermitianMatrix) band thread_size
    σ0 σ t th tk rest :
  1 ≤ thread_size →
  hb2td_init A band thread_size = Ok σ0 →
  rtc (sys_step band) σ0 σ →
  threads σ !! t = Some th → th_tasks th = tk :: rest →
  th_phase th = RunStep →
  1 ≤ t_step tk →
  2 ≤ band
  ∧ (∀ s', 0 ≤ s' < t_step tk → (t_sweep tk, s') ∈ steps_done σ)
  ∧ ∃ ij kk : Z * Z,
      coords band (t_sweep tk) (t_step tk) = Some ij
      ∧ in_range (A_n A) ij = true
      ∧ consumed_key band (t_sweep tk) (t_step tk) = Some kk
      ∧ produced_key band (t_sweep tk) (producer_of (t_step tk)) = Some kk
      ∧ is_Some (reflectors σ !! kk).
Proof.
  intros HT E0 Hr Ht Htk Hph Hs.
  destruct (reachable_Good A band thread_size σ0 σ HT E0 Hr) as [HI HH].
  assert (tk ∈ th_tasks th) as Hel by (rewrite Htk; left).
  destruct (inv_pending _ _ _ HI _ _ _ Ht Hel)
    as ((Hk & _ & _ & ns & Ens & Hns) & _).
  assert (2 ≤ band) as Hband
    by (eapply (nsteps_pos_band band (A_n A) (t_sweep tk) ns); [done|lia..]).
  destruct (step_below_count_in_range (A_n A) band (t_sweep tk) (t_step tk) ns)
    as (ij & Hc & Hin); [done|lia|done|done|].
  pose proof (inv_flight _ _ _ HI _ _ _ _ Ht Htk) as Hfl.
  rewrite Hph in Hfl. destruct Hfl as [_ (v & Hv & Hge)].
  assert (∀ s', 0 ≤ s' < t_step tk → (t_sweep tk, s') ∈ steps_done σ)
    as Hdone.
  { intros s' Hs'. eapply (hist_done _ _ _ HH); [done|lia]. }
  split; [done|]. split; [done|].
  destruct (consumed_is_produced (A_n A) band (t_sweep tk) (t_step tk) ij)
    as (Hp & ij0 & kk & Hc0 & Hin0 & Hcons & Hprod); [lia|done..|].
  exists ij, kk. split; [done|]. split; [done|]. split; [done|].
  split; [done|]. eapply (hist_refl _ _ _ HH); eauto.
Qed.

End Consumed.

(** C3.  Take any sweep [k] and any step [s >= 1] of it whose coordinates
    are in range, run after a sequence of steps that contains the steps
    [0..s-1] of sweep [k] (steps of other sweeps may be interleaved), for a
    band of at least 1.  Then the key [hb2td_step] consumes at step [s] is in
    the reflector store, and it is the key produced by an earlier in-range
    step of the sweep: by task 1 at step [s-1] when step [s] is task 2; by
    task 0 at step 0, through the key [(i-(band-1), j-1) = (k+1, k)], when
    [s = 1]; by task 1 at step [s-2] when step [s] is task 1 and [s >= 3].
    So the lookup finds the entry and leaves the store as it is. *)
Theorem consumed_reflector_is_present `{Kernels} (A : HermitianMatrix)
    (band k s : Z) (hist : list (Z * Z)) (R : Reflectors) (ij : Z * Z) :
  1 ≤ band → 1 ≤ s →
  coords band k s = Some ij → in_range (A_n A) ij = true →
  (∀ s', 0 ≤ s' < s → (k, s') ∈ hist) →
  ∃ (kk ij0 : Z * Z),
    consumed_key band k s = Some kk
    ∧ produced_key band k (producer_of s) = Some kk
    ∧ coords band k (producer_of s) = Some ij0
    ∧ in_range (A_n A) ij0 = true
    ∧ (k, producer_of s) ∈ hist
    ∧ is_Some ((run_steps A band hist R).2 !! kk)
    ∧ (subscript kk (run_steps A band hist R).2).2
      = (run_steps A band hist R).2
    ∧ ((task_of s = 2 ∧ producer_of s = s - 1 ∧ task_of (s - 1) = 1)
       ∨ (task_of s = 1 ∧ s = 1 ∧ producer_of s = 0 ∧ task_of 0 = 0
          ∧ kk = (ij.1 - (band - 1), ij.2 - 1) ∧ kk = (k + 1, k))
       ∨ (task_of s = 1 ∧ 3 ≤ s ∧ producer_of s = s - 2
          ∧ task_of (s - 2) = 1)).
Proof.
  intros Hb Hs Hc Hin Hhist.
  destruct (consumed_is_produced (A_n A) band k s ij Hb Hs Hc Hin)
    as (Hp & ij0 & kk & Hc0 & Hin0 & Hcons & Hprod).
  exists kk, ij0.
  assert (is_Some ((run_steps A band hist R).2 !! kk)) as Hsome.
  { eapply run_steps_produced; eauto. }
  split; [done|]. split; [done|]. split; [done|]. split; [done|].
  split; [by apply Hhist|]. split; [done|].
  split; [by apply subscript_present|].
  destruct (producer_of_cases s Hs) as [?|[(Et & -> & Ep & E0)|?]];
    [by left| |by right; right].
  right; left. split; [done|]. split; [done|]. split; [done|].
  split; [done|].
  unfold consumed_key, coords in Hcons, Hc. simpl in Hcons, Hc.
  injection Hc as <-. injection Hcons as <-. simpl.
  change (block_of 1) with 0. split; [done|]. f_equal; lia.
Qed.

Lemma consumed_reflector_is_present_witness :
  ∃ (kk ij0 : Z * Z),
    consumed_key 3 1 4 = Some kk
    ∧ produced_key 3 1 (producer_of 4) = Some kk
    ∧ coords 3 1 (producer_of 4) = Some ij0
    ∧ in_range 9 ij0 = true
    ∧ (1, producer_of 4) ∈ [(1, 0); (0, 5); (1, 1); (1, 2); (1, 3)]
    ∧ is_Some ((run_steps (matrix_of_order 9) 3
                  [(1, 0); (0, 5); (1, 1); (1, 2); (1, 3)] ∅).2 !! kk).
Proof.
  destruct (consumed_reflector_is_present (matrix_of_order 9) 3 1 4
              [(1, 0); (0, 5); (1, 1); (1, 2); (1, 3)] ∅ (6, 6))
    as (kk & ij0 & H1 & H2 & H3 & H4 & H5 & H6 & _).
  - lia.
  - lia.
  - reflexivity.
  - reflexivity.
  - intros s' Hs'.
    assert (s' = 0 ∨ s' = 1 ∨ s' = 2 ∨ s' = 3) as Hcases by lia.
    destruct Hcases as [-> | [-> | [-> | ->]]]; repeat constructor.
  - exists kk, ij0. repeat (split; [assumption|]). assumption.
Defined.

(** *** Band 1 *)

Section Band1.
Context `{Kernels}.

(** A team whose threads have no task left cannot move. *)
Lemma idle_team_stays band (σ σ' : sys) :
  (∀ t th, threads σ !! t = Some th → th_tasks th = []) →
  rtc (sys_step band) σ σ' → σ' = σ.
Proof.
  intros Hidle Hr. destruct Hr as [|σ σ1 σ' [t Hstep] _]; [done|].
  exfalso. revert Hstep. unfold exec_thread.
  destruct (threads σ !! t) as [th|] eqn:Ht; [|done].
  rewrite (Hidle _ _ Ht). by destruct (th_exit th).
Qed.

Lemma spawn_band_1 diag_len ps thread_size rank :
  spawn 1 diag_len ps thread_size rank
  = {| th_phase := WaitPrev; th_tasks := [];
       th_exit := if 0 <? diag_len - 2 then Err DivByZero else Ok 0 |}.
Proof.
  unfold spawn. rewrite run_band_1 by done.
  by destruct (0 <? diag_len - 2).
Qed.

End Band1.

(** The reading of the band-1 sentence of the specification: the call
    returns, having run no step, with the matrix as it was. *)
Definition band_1_is_a_noop `{Kernels} (A : HermitianMatrix)
    (thread_size : Z) : Prop :=
  ∃ σ0 σ, hb2td_init A 1 thread_size = Ok σ0
          ∧ rtc (sys_step 1) σ0 σ
          ∧ returned σ ∧ steps_done σ = [] ∧ mat σ = A.

(** With band 1 and a matrix of order 4 the call does not return: the
    first step count divides by band-1 = 0. *)
Lemma band_1_order_4_does_not_return :
  ¬ band_1_is_a_noop (matrix_of_order 4) 1.
Proof.
  intros (σ0 & σ & E0 & Hr & Hret & _).
  vm_compute in E0. injection E0 as <-.
  apply idle_team_stays in Hr; [subst σ|].
  - destruct (Hret 0%nat _ eq_refl) as [_ [z Hz]]. discriminate.
  - intros [|t] th; [by intros [= <-]|done].
Qed.

Example band_1_order_4_aborts :
  ∃ σ0, hb2td_init (matrix_of_order 4) 1 1 = Ok σ0
        ∧ exec_thread 1 0 σ0 = Throw DivByZero
        ∧ aborts 1 σ0.
Proof.
  eexists. split; [reflexivity|]. split; [reflexivity|].
  by exists 0%nat, DivByZero.
Qed.

(** The blocks of [hb2td_step] have [band] rows, [i .. i+band-1], the
    diagonal entry and [band-1] entries below it: a matrix with one
    sub-diagonal is handed over with band 2, and for it the steps are run. *)
Example band_2_runs_steps :
  ∃ σ0, hb2td_init (matrix_of_order 5) 2 1 = Ok σ0
        ∧ steps_done (run_schedule 2 (replicate 4 0%nat) σ0) = [(0, 0)].
Proof. eexists. split; reflexivity. Qed.

(** C4 (amended).  With band 1, whatever the matrix and the number of
    threads: for an order below 2 the progress table cannot be built;
    otherwise no state other than the initial one is reachable, so no step
    is ever run and the matrix is never modified, and the call returns
    normally exactly when the order is 2, the only order without a sweep. *)
Theorem hb2td_band_1 `{Kernels} (A : HermitianMatrix) (thread_size : Z) :
  1 ≤ thread_size →
  match hb2td_init A 1 thread_size with
  | Err e => e = LengthError ∧ A_n A < 2
  | Ok σ0 =>
      2 ≤ A_n A
      ∧ steps_done σ0 = [] ∧ mat σ0 = A
      ∧ (∀ σ, rtc (sys_step 1) σ0 σ → σ = σ0)
      ∧ (returned σ0 ↔ A_n A = 2)
  end.
Proof.
  intros HT. destruct (decide (2 ≤ A_n A)) as [Hn|Hn].
  - destruct (hb2td_init_Ok A 1 thread_size HT Hn) as (ps & _ & _ & ->).
    split; [done|]. split; [done|]. split; [done|].
    assert (∀ t th,
      (spawn 1 (A_n A) ps thread_size <$> seqZ 0 thread_size) !! t = Some th →
      th = {| th_phase := WaitPrev; th_tasks := [];
              th_exit := if 0 <? A_n A - 2 then Err DivByZero else Ok 0 |})
      as Hth.
    { intros t th Hl. apply lookup_spawn in Hl as [-> _].
      apply spawn_band_1. }
    split.
    + intros σ Hr. apply (idle_team_stays 1); [|done].
      intros t th Hl. proj_red. by rewrite (Hth _ _ Hl).
    + unfold returned. proj_red. split.
      * intros Hret.
        assert ((spawn 1 (A_n A) ps thread_size <$> seqZ 0 thread_size)
                  !! 0%nat
                = Some (spawn 1 (A_n A) ps thread_size 0)) as Hl0.
        { apply list_lookup_fmap_Some. exists 0. split; [done|].
          apply lookup_seqZ. lia. }
        destruct (Hret _ _ Hl0) as [_ [z Hz]].
        rewrite spawn_band_1 in Hz. proj_red.
        destruct (0 <? A_n A - 2) eqn:E; [done|].
        apply Z.ltb_ge in E. lia.
      * intros En t th Hl. rewrite (Hth _ _ Hl). proj_red.
        split; [done|]. rewrite En. by exists 0.
  - unfold hb2td_init.
    destruct (A_n A - 2 <? 0) eqn:E; [split; [done|lia]|].
    apply Z.ltb_ge in E. lia.
Qed.

Lemma hb2td_band_1_witness :
  1 ≤ 3
  ∧ match hb2td_init (matrix_of_order 2) 1 3 with
    | Err e => e = LengthError ∧ A_n (matrix_of_order 2) < 2
    | Ok σ0 =>
        2 ≤ A_n (matrix_of_order 2)
        ∧ steps_done σ0 = [] ∧ mat σ0 = matrix_of_order 2
        ∧ (∀ σ, rtc (sys_step 1) σ0 σ → σ = σ0)
        ∧ (returned σ0 ↔ A_n (matrix_of_order 2) = 2)
    end.
Proof.
  split; [lia|]. apply (hb2td_band_1 (matrix_of_order 2) 3). lia.
Defined.

(** *** The classification of the steps, in the words of the specification *)

Definition spec_task (step : Z) : Z :=
  if step =? 0 then 0 else if Z.odd step then 1 else 2.

Definition spec_block (step : Z) : Z := step `div` 2.

Definition spec_coords (band sweep step : Z) : Z * Z :=
  let block := spec_block step in
  match spec_task step with
  | 0 => (sweep, sweep)
  | 1 => ((block + 1) * (band - 1) + 1 + sweep, block * (band - 1) + 1 + sweep)
  | _ => (block * (band - 1) + 1 + sweep, block * (band - 1) + 1 + sweep)
  end.

(** The step as the specification describes it: the task and the
    coordinates first, then the guarded kernel call on them. *)
Definition hb2td_step_spec `{Kernels} (A : HermitianMatrix)
    (band sweep step : Z) (R : Reflectors) : HermitianMatrix * Reflectors :=
  let '(i, j) := spec_coords band sweep step in
  let n := A_n A in
  if (i <? n) && (j <? n) then
    match spec_task step with
    | 0 =>
        let '(v, R1) := subscript (i + 1, j) R in
        let '(d, v') := hebr1 (i, Z.min (i + band - 1) (n - 1)) (A_data A) v in
        ({| A_n := n; A_data := d |}, <[(i + 1, j) := v']> R1)
    | 1 =>
        let '(v1, R1) :=
          subscript (i - (band - 1),
                     if step =? 1 then j - 1 else j - (band - 1)) R in
        let '(v2, R2) := subscript (i, j) R1 in
        let '(d, v2') :=
          hebr2 v1 (i, Z.min (i + band - 2) (n - 1),
                    j, Z.min (j + band - 2) (n - 1)) (A_data A) v2 in
        ({| A_n := n; A_data := d |}, <[(i, j) := v2']> R2)
    | _ =>
        let '(v, R1) := subscript (i, j - (band - 1)) R in
        let d := hebr3 v (i, Z.min (i + band - 2) (n - 1)) (A_data A) in
        ({| A_n := n; A_data := d |}, R1)
    end
  else (A, R).

Lemma task_of_spec step : 0 ≤ step → task_of step = spec_task step.
Proof.
  intros H0. unfold spec_task.
  destruct (step =? 0) eqn:E0; [apply Z.eqb_eq in E0; by subst|].
  apply Z.eqb_neq in E0.
  destruct (Z.odd step) eqn:Eo; [by apply task_of_odd|].
  apply task_of_even; [|by rewrite <- Z.negb_odd, Eo].
  destruct (decide (step = 1)) as [->|]; [done|lia].
Qed.

Lemma block_of_spec step : 0 ≤ step → block_of step = spec_block step.
Proof. intros H0. apply Z.quot_div_nonneg; lia. Qed.

(** C2.  For every step [step >= 0] of every sweep, [hb2td_step] takes step
    0 as task 0, every odd step as task 1 and every even step from 2 on as
    task 2, which is what [(step+1) mod 2 + 1] gives for [step > 0]; the
    block number is [step/2]; and the coordinates it computes, guards on
    and hands to the kernels are [i = j = sweep] for task 0,
    [i = (block+1)(band-1)+1+sweep], [j = block(band-1)+1+sweep] for task 1
    and [i = j = block(band-1)+1+sweep] for task 2. *)
Theorem hb2td_step_classification `{Kernels} (A : HermitianMatrix)
    (band sweep step : Z) (R : Reflectors) :
  0 ≤ step →
  task_of step = spec_task step
  ∧ (step ≠ 0 → task_of step = (step + 1) `mod` 2 + 1)
  ∧ block_of step = step `div` 2
  ∧ coords band sweep step = Some (spec_coords band sweep step)
  ∧ hb2td_step A band sweep step R = hb2td_step_spec A band sweep step R.
Proof.
  intros H0.
  pose proof (task_of_spec step H0) as Et.
  pose proof (block_of_spec step H0) as Eb.
  split; [done|]. split.
  { intros Hne. unfold task_of.
    destruct (step =? 0) eqn:E0; [apply Z.eqb_eq in E0; lia|].
    by rewrite Z.rem_mod_nonneg by lia. }
  split; [done|].
  unfold coords, hb2td_step, hb2td_step_spec, spec_coords.
  rewrite Et, Eb. unfold spec_task.
  destruct (step =? 0); [done|]. destruct (Z.odd step); done.
Qed.

Lemma hb2td_step_classification_witness :
  0 ≤ 5
  ∧ task_of 5 = spec_task 5
  ∧ (5 ≠ 0 → task_of 5 = (5 + 1) `mod` 2 + 1)
  ∧ block_of 5 = 5 `div` 2
  ∧ coords 3 1 5 = Some (spec_coords 3 1 5)
  ∧ hb2td_step (matrix_of_order 9) 3 1 5 ∅
    = hb2td_step_spec (matrix_of_order 9) 3 1 5 ∅.
Proof.
  split; [lia|].
  apply (hb2td_step_classification (matrix_of_order 9) 3 1 5 ∅). lia.
Defined.

Example step_5_is_an_off_diagonal_chase :
  task_of 5 = 1 ∧ block_of 5 = 2 ∧ coords 3 1 5 = Some (8, 6).
Proof. repeat split. Qed.

End Pipeline.

(* --------------------------------------------------------------------- *)
(** ** unmlq                                                              *)
(* --------------------------------------------------------------------- *)

Module UnmlqFacts.
Import Unmlq.

(** The shape checks of the code: the five assertions at the head of
    [unmlq] and the one at the head of each case. *)
Definition shape_ok (side : Side) (V C W : Matrix) : Prop :=
  1 ≤ mt C ∧ 1 ≤ nt C ∧ mt V = 1 ∧ mt W = mt C ∧ nt W = nt C
  ∧ nt V = match side with Left => mt C | Right => nt C end.

(** The rank owns no tile of C. *)
Definition no_local_tile (C : Matrix) : Prop :=
  ∀ i j, 0 ≤ i < mt C → 0 ≤ j < nt C → tileIsLocal C i j = false.

Lemma elem_of_local_rows C i :
  i ∈ local_rows C ↔
  0 ≤ i < mt C ∧ ∃ j, 0 ≤ j < nt C ∧ tileIsLocal C i j = true.
Proof.
  unfold local_rows. rewrite list_elem_of_filter, elem_of_seqZ.
  rewrite Is_true_true, existsb_exists. split.
  - intros [(j & Hj & Hl) Hi]. split; [lia|]. exists j.
    apply list_elem_of_In, elem_of_seqZ in Hj. split; [lia|done].
  - intros [Hi (j & Hj & Hl)]. split; [|lia]. exists j. split; [|done].
    apply list_elem_of_In, elem_of_seqZ. lia.
Qed.

Lemma elem_of_local_cols C j :
  j ∈ local_cols C ↔
  0 ≤ j < nt C ∧ ∃ i, 0 ≤ i < mt C ∧ tileIsLocal C i j = true.
Proof.
  unfold local_cols. rewrite list_elem_of_filter, elem_of_seqZ.
  rewrite Is_true_true, existsb_exists. split.
  - intros [(i & Hi & Hl) Hj]. split; [lia|]. exists i.
    apply list_elem_of_In, elem_of_seqZ in Hi. split; [lia|done].
  - intros [Hj (i & Hi & Hl)]. split; [|lia]. exists i. split; [|done].
    apply list_elem_of_In, elem_of_seqZ. lia.
Qed.

Lemma local_rows_nil C : no_local_tile C → local_rows C = [].
Proof.
  intros Hno. apply elem_of_nil_inv. intros i Hi.
  apply elem_of_local_rows in Hi as [Hi (j & Hj & Hl)].
  by rewrite (Hno i j Hi Hj) in Hl.
Qed.

Lemma local_cols_nil C : no_local_tile C → local_cols C = [].
Proof.
  intros Hno. apply elem_of_nil_inv. intros j Hj.
  apply elem_of_local_cols in Hj as [Hj (i & Hi & Hl)].
  by rewrite (Hno i j Hi Hj) in Hl.
Qed.

Lemma local_rows_first C first others :
  local_rows C = first :: others → 0 ≤ first < mt C.
Proof.
  intros E. assert (first ∈ local_rows C) as Hin by (rewrite E; left).
  by apply elem_of_local_rows in Hin as [? _].
Qed.

Lemma local_cols_first C first others :
  local_cols C = first :: others → 0 ≤ first < nt C.
Proof.
  intros E. assert (first ∈ local_cols C) as Hin by (rewrite E; left).
  by apply elem_of_local_cols in Hin as [? _].
Qed.

Section Calls.
Context `{TileKernels}.

Lemma assert_true (b : bool) (k : outcome) : b = true → assert b k = k.
Proof. by intros ->. Qed.

Lemma assert_false (b : bool) (k : outcome) :
  b = false → assert b k = AssertionFailed.
Proof. by intros ->. Qed.

(** The two cases return once their own assertion holds. *)
Lemma unmlq_left_returns target op V T C W (st : state) :
  nt V = mt C → ∃ st', unmlq_left target op V T C W st = Returned st'.
Proof.
  intros HV. unfold unmlq_left.
  rewrite assert_true by (by apply Z.eqb_eq).
  destruct (local_rows C) as [|first others] eqn:E; [by eexists|].
  apply local_rows_first in E.
  rewrite assert_true by (apply Z.ltb_lt; lia).
  rewrite assert_true by (apply Z.leb_le; lia).
  by eexists.
Qed.

Lemma unmlq_right_returns target op V T C W (st : state) :
  nt V = nt C → ∃ st', unmlq_right target op V T C W st = Returned st'.
Proof.
  intros HV. unfold unmlq_right.
  rewrite assert_true by (by apply Z.eqb_eq).
  destruct (local_cols C) as [|first others] eqn:E; [by eexists|].
  apply local_cols_first in E.
  rewrite assert_true by (apply Z.ltb_lt; lia).
  rewrite assert_true by (apply Z.leb_le; lia).
  by eexists.
Qed.

Lemma unmlq_shape_ok target side op V T C W (st : state) :
  shape_ok side V C W →
  unmlq target side op V T C W st
  = match side with
    | Left => unmlq_left target op V T C W st
    | Right => unmlq_right target op V T C W st
    end.
Proof.
  intros (H1 & H2 & H3 & H4 & H5 & _). unfold unmlq.
  rewrite !assert_true; (done || by apply Z.eqb_eq || by apply Z.leb_le).
Qed.

Lemma unmlq_asserts target side op V T C W (st : state) :
  unmlq target side op V T C W st = AssertionFailed ↔ ¬ shape_ok side V C W.
Proof.
  split.
  - intros E Hok. rewrite (unmlq_shape_ok _ _ _ _ _ _ _ _ Hok) in E.
    destruct Hok as (_ & _ & _ & _ & _ & HV). destruct side.
    + destruct (unmlq_left_returns target op V T C W st HV) as [st' E'].
      congruence.
    + destruct (unmlq_right_returns target op V T C W st HV) as [st' E'].
      congruence.
  - intros Hno. unfold unmlq, assert.
    destruct (1 <=? mt C) eqn:E1; [|done]. apply Z.leb_le in E1.
    destruct (1 <=? nt C) eqn:E2; [|done]. apply Z.leb_le in E2.
    destruct (mt V =? 1) eqn:E3; [|done]. apply Z.eqb_eq in E3.
    destruct (mt W =? mt C) eqn:E4; [|done]. apply Z.eqb_eq in E4.
    destruct (nt W =? nt C) eqn:E5; [|done]. apply Z.eqb_eq in E5.
    destruct side.
    + unfold unmlq_left, assert.
      destruct (nt V =? mt C) eqn:E6; [|done]. apply Z.eqb_eq in E6.
      destruct Hno. by repeat split.
    + unfold unmlq_right, assert.
      destruct (nt V =? nt C) eqn:E6; [|done]. apply Z.eqb_eq in E6.
      destruct Hno. by repeat split.
Qed.

(** The kernels leave the set of tiles of W and the journal alone. *)
Lemma run_kernels_frame cs (st : state) :
  W_live (run_kernels cs st) = W_live st
  ∧ journal (run_kernels cs st) = journal st.
Proof.
  unfold run_kernels. revert st.
  induction cs as [|c cs IH]; intros st; simpl; [done|].
  destruct (IH (run_kernel c st)) as [-> ->]. done.
Qed.

(** The local tiles of row 0 (column 0) of a view, in the order in which
    the loops that free the workspace visit them. *)
Definition row_locals (Wr : Matrix) : list (Z * Z) :=
  tile_of Wr 0 <$> filter (λ j, tileIsLocal Wr 0 j) (seqZ 0 (nt Wr)).

Definition col_locals (Wc : Matrix) : list (Z * Z) :=
  (λ i, tile_of Wc i 0) <$> filter (λ i, tileIsLocal Wc i 0) (seqZ 0 (mt Wc)).

Lemma erase_fold (P : Z → bool) (g : Z → Z * Z) (erase : Z → state → state)
    (l : list Z) :
  (∀ x st, W_live (erase x st) = W_live st ∖ {[ g x ]}
           ∧ journal (erase x st) = journal st ++ [Erased (g x)]) →
  ∀ st,
    W_live (foldl (λ st x, if P x then erase x st else st) st l)
    = W_live st ∖ list_to_set (g <$> filter (λ x, P x) l)
    ∧ journal (foldl (λ st x, if P x then erase x st else st) st l)
      = journal st ++ (Erased <$> (g <$> filter (λ x, P x) l)).
Proof.
  intros He. induction l as [|x l IH]; intros st; simpl.
  - rewrite difference_empty_L, app_nil_r. done.
  - destruct (P x) eqn:Px.
    + rewrite filter_cons_True by (by rewrite Px).
      destruct (IH (erase x st)) as [-> ->].
      destruct (He x st) as [-> ->].
      rewrite !fmap_cons, list_to_set_cons, difference_difference_l_L.
      by rewrite <- app_assoc.
    + rewrite filter_cons_False by (simpl; rewrite Px; exact id). apply IH.
Qed.

Lemma erase_row_spec Wr (st : state) :
  W_live (erase_row Wr st) = W_live st ∖ list_to_set (row_locals Wr)
  ∧ journal (erase_row Wr st) = journal st ++ (Erased <$> row_locals Wr).
Proof.
  unfold erase_row, row_locals.
  apply (erase_fold (λ j, tileIsLocal Wr 0 j) (tile_of Wr 0)
           (λ j st, tileErase Wr 0 j st)).
  intros x st'. done.
Qed.

Lemma erase_col_spec Wc (st : state) :
  W_live (erase_col Wc st) = W_live st ∖ list_to_set (col_locals Wc)
  ∧ journal (erase_col Wc st) = journal st ++ (Erased <$> col_locals Wc).
Proof.
  unfold erase_col, col_locals.
  apply (erase_fold (λ i, tileIsLocal Wc i 0) (λ i, tile_of Wc i 0)
           (λ i st, tileErase Wc i 0 st)).
  intros x st'. done.
Qed.

End Calls.

Lemma bind_filter (P : Z → bool) (g : Z → Z * Z) (l : list Z) :
  (x ← l; if P x then [g x] else []) = g <$> filter (λ x, P x) l.
Proof.
  induction l as [|x l IH]; [done|]. rewrite bind_cons, IH.
  destruct (P x) eqn:Px.
  - by rewrite filter_cons_True by (by rewrite Px).
  - by rewrite filter_cons_False by (simpl; rewrite Px; exact id).
Qed.

Lemma local_tiles_row Wr : mt Wr = 1 → local_tiles Wr = row_locals Wr.
Proof.
  intros Hmt. unfold local_tiles, row_locals. rewrite Hmt.
  change (seqZ 0 1) with [0].
  rewrite <- (bind_filter (λ j, tileIsLocal Wr 0 j) (tile_of Wr 0)).
  apply list_bind_ext; [|done]. intros j. by rewrite bind_singleton.
Qed.

Lemma local_tiles_col Wc : nt Wc = 1 → local_tiles Wc = col_locals Wc.
Proof.
  intros Hnt. unfold local_tiles, col_locals. rewrite Hnt.
  change (seqZ 0 1) with [0]. rewrite bind_singleton.
  apply (bind_filter (λ i, tileIsLocal Wc i 0) (λ i, tile_of Wc i 0)).
Qed.

(** *** Slices that keep the window of tiles *)

Lemma sum_list_nonneg (ext : list Z) :
  Forall (λ e, 0 < e) ext → 0 ≤ sum_list ext.
Proof. induction 1; simpl; lia. Qed.

Lemma overlap_full (ext : list Z) :
  ∀ off a b,
    Forall (λ e, 0 < e) ext → a ≤ off → off + sum_list ext - 1 ≤ b →
    overlap ext off a b = ext.
Proof.
  induction ext as [|e ext IH]; intros off a b Hpos Ha Hb; simpl; [done|].
  apply Forall_cons in Hpos as [He Hpos].
  pose proof (sum_list_nonneg ext Hpos). simpl in Hb.
  rewrite IH by (done || lia). f_equal. lia.
Qed.

Lemma leading_misses_pos (ext : list Z) :
  Forall (λ e, 0 < e) ext → leading_misses ext = 0.
Proof.
  destruct 1 as [|e ext He _]; simpl; [done|].
  destruct (0 <? e) eqn:E; [done|]. apply Z.ltb_ge in E. lia.
Qed.

Lemma filter_pos (ext : list Z) :
  Forall (λ e, 0 < e) ext → filter (λ e, 0 < e) ext = ext.
Proof.
  induction 1 as [|e ext He _ IH]; [done|].
  rewrite filter_cons_True by done. by rewrite IH.
Qed.

(** A range that covers every tile keeps them all. *)
Lemma slice_extents_full (ext : list Z) b :
  Forall (λ e, 0 < e) ext → sum_list ext - 1 ≤ b →
  slice_extents ext 0 b = (0, ext).
Proof.
  intros Hpos Hb. unfold slice_extents.
  rewrite overlap_full by (done || lia).
  by rewrite leading_misses_pos, filter_pos.
Qed.

(** A range that starts with the only tile keeps it, cut down. *)
Lemma slice_extents_single e b :
  0 < e → 0 ≤ b → ∃ e', slice_extents [e] 0 b = (0, [e']).
Proof.
  intros He Hb. unfold slice_extents. simpl.
  destruct (0 <? _) eqn:E; [|apply Z.ltb_ge in E; lia].
  apply Z.ltb_lt in E. rewrite filter_cons_True by done.
  rewrite filter_nil. by eexists.
Qed.

(** The views with the tile window of a given view. *)
Definition same_window (A B : Matrix) : Prop :=
  ioffset B = ioffset A ∧ joffset B = joffset A
  ∧ mt B = mt A ∧ nt B = nt A ∧ owned B = owned A.

Lemma row_locals_window A B : same_window A B → row_locals B = row_locals A.
Proof.
  intros (Hi & Hj & _ & Hn & Ho).
  unfold row_locals, tile_of, tileIsLocal. by rewrite Hi, Hj, Hn, Ho.
Qed.

Lemma col_locals_window A B : same_window A B → col_locals B = col_locals A.
Proof.
  intros (Hi & Hj & Hm & _ & Ho).
  unfold col_locals, tile_of, tileIsLocal. by rewrite Hi, Hj, Hm, Ho.
Qed.

Lemma sub_row_extents (W : Matrix) first last :
  0 ≤ first < mt W → Forall (λ e, 0 < e) (mbs W) →
  ∃ e, 0 < e
       ∧ mbs (sub W first first 0 last) = [e].
Proof.
  intros Hf Hpos. unfold mt in Hf.
  destruct (lookup_lt_is_Some_2 (mbs W) (Z.to_nat first)) as [e He]; [lia|].
  exists e. split; [by eapply (Forall_lookup_1 _ _ _ _ Hpos)|].
  simpl. replace (Z.to_nat (first - first + 1)) with 1%nat by lia.
  by rewrite (drop_S _ _ _ He).
Qed.

Lemma sub_col_extents (W : Matrix) first last :
  0 ≤ first < nt W → Forall (λ e, 0 < e) (nbs W) →
  ∃ e, 0 < e
       ∧ nbs (sub W 0 last first first) = [e].
Proof.
  intros Hf Hpos. unfold nt in Hf.
  destruct (lookup_lt_is_Some_2 (nbs W) (Z.to_nat first)) as [e He]; [lia|].
  exists e. split; [by eapply (Forall_lookup_1 _ _ _ _ Hpos)|].
  simpl. replace (Z.to_nat (first - first + 1)) with 1%nat by lia.
  by rewrite (drop_S _ _ _ He).
Qed.

Lemma take_all (l : list Z) k : Z.of_nat (length l) ≤ k + 1 →
  take (Z.to_nat (k - 0 + 1)) (drop (Z.to_nat 0) l) = l.
Proof. intros Hk. simpl. apply take_ge. lia. Qed.

(** The row of W that the left case works in, and the slice of it taken for
    a trapezoid, have the same tiles. *)
Lemma left_workspace_slice (C W : Matrix) first mb :
  0 ≤ first < mt W → nt W = nt C → nbs W = nbs C →
  Forall (λ e, 0 < e) (mbs W) → Forall (λ e, 0 < e) (nbs W) →
  1 ≤ mb →
  same_window (sub W first first 0 (nt C - 1))
    (slice (sub W first first 0 (nt C - 1)) 0 (mb - 1) 0
       (n (sub C first first 0 (nt C - 1)) - 1)).
Proof.
  intros Hf Hnt Hnbs Hrows Hcols Hmb.
  destruct (sub_row_extents W first (nt C - 1) Hf Hrows) as (e & He & Erow).
  assert (nbs (sub W first first 0 (nt C - 1)) = nbs W) as Ecol.
  { unfold sub. cbn [nbs]. apply take_all. unfold nt in *. lia. }
  assert (n (sub C first first 0 (nt C - 1)) = sum_list (nbs W)) as En.
  { unfold n, sub. cbn [nbs]. rewrite take_all by (unfold nt; lia).
    by rewrite Hnbs. }
  rewrite En. remember (sub W first first 0 (nt C - 1)) as Wr eqn:EWr.
  clear EWr. unfold slice. rewrite Erow, Ecol.
  destruct (slice_extents_single e (mb - 1) He) as [e' ->]; [lia|].
  rewrite slice_extents_full by (done || lia).
  unfold same_window, mt, nt. cbn [ioffset joffset mbs nbs owned].
  rewrite Erow, Ecol. simpl. repeat split; lia.
Qed.

(** The same for the column of W of the right case. *)
Lemma right_workspace_slice (C W : Matrix) first mb :
  0 ≤ first < nt W → mt W = mt C → mbs W = mbs C →
  Forall (λ e, 0 < e) (mbs W) → Forall (λ e, 0 < e) (nbs W) →
  1 ≤ mb →
  same_window (sub W 0 (mt C - 1) first first)
    (slice (sub W 0 (mt C - 1) first first) 0
       (m (sub C 0 (mt C - 1) first first) - 1) 0 (mb - 1)).
Proof.
  intros Hf Hmt Hmbs Hrows Hcols Hmb.
  destruct (sub_col_extents W first (mt C - 1) Hf Hcols) as (e & He & Ecol).
  assert (mbs (sub W 0 (mt C - 1) first first) = mbs W) as Erow.
  { unfold sub. cbn [mbs]. apply take_all. unfold mt in *. lia. }
  assert (m (sub C 0 (mt C - 1) first first) = sum_list (mbs W)) as Em.
  { unfold m, sub. cbn [mbs]. rewrite take_all by (unfold mt; lia).
    by rewrite Hmbs. }
  rewrite Em. remember (sub W 0 (mt C - 1) first first) as Wc eqn:EWc.
  clear EWc. unfold slice. rewrite Erow, Ecol.
  destruct (slice_extents_single e (mb - 1) He) as [e' ->]; [lia|].
  rewrite slice_extents_full by (done || lia).
  unfold same_window, mt, nt. cbn [ioffset joffset mbs nbs owned].
  rewrite Erow, Ecol. simpl. repeat split; lia.
Qed.


Lemma first_row_extent (V : Matrix) first :
  mt V = 1 → Forall (λ e, 0 < e) (mbs V) →
  1 ≤ tileMb (sub V 0 0 first first) 0.
Proof.
  unfold mt, tileMb, sub. cbn [mbs].
  destruct (mbs V) as [|e [|e' l]]; simpl; intros Hmt Hpos; try lia.
  apply Forall_cons in Hpos as [He _]. lia.
Qed.

(** The row (column) of W in which a call works. *)
Definition workspace (side : Side) (first : Z) (C W : Matrix) : Matrix :=
  match side with
  | Left => sub W first first 0 (nt C - 1)
  | Right => sub W 0 (mt C - 1) first first
  end.

Definition local_indices (side : Side) (C : Matrix) : list Z :=
  match side with
  | Left => local_rows C
  | Right => local_cols C
  end.

Lemma workspace_tiles side first C W ij :
  1 ≤ mt C → 1 ≤ nt C →
  ij ∈ local_tiles (workspace side first C W) →
  match side with
  | Left => ij.1 = ioffset W + first
  | Right => ij.2 = joffset W + first
  end.
Proof.
  intros Hm Hn. unfold local_tiles. intros Hin.
  apply list_elem_of_bind in Hin as (j & Hin & Hj).
  apply list_elem_of_bind in Hin as (i & Hin & Hi).
  apply elem_of_seqZ in Hj. apply elem_of_seqZ in Hi.
  destruct (tileIsLocal _ i j); [|by apply elem_of_nil in Hin].
  apply list_elem_of_singleton in Hin as ->.
  destruct side; unfold workspace, tile_of, sub, mt, nt in *;
    cbn [ioffset joffset mbs nbs fst snd] in *.
  - rewrite length_take in Hi. lia.
  - rewrite length_take in Hj. lia.
Qed.

Section Workspace.
Context `{TileKernels}.

(** What the left case comes to once it has a local row. *)
Lemma unmlq_left_form target op V T C W (st : state) first others :
  nt V = mt C → local_rows C = first :: others →
  ∃ calls mb nb,
    unmlq_left target op V T C W st
    = Returned
        (erase_row
           (if (mb <? nb)
            then slice (sub W first first 0 (nt C - 1)) 0 (mb - 1) 0
                   (n (sub C first first 0 (nt C - 1)) - 1)
            else sub W first first 0 (nt C - 1))
           (run_kernels calls
              (insertLocalTiles (sub W first first 0 (nt C - 1)) st)))
    ∧ ((mb <? nb) = true → mb = tileMb (sub V 0 0 first first) 0).
Proof.
  intros HV E. unfold unmlq_left.
  rewrite assert_true by (by apply Z.eqb_eq). rewrite E.
  apply local_rows_first in E.
  rewrite assert_true by (apply Z.ltb_lt; lia).
  rewrite assert_true by (apply Z.leb_le; lia).
  cbv zeta. eexists _, _, _. split; [reflexivity|].
  destruct (_ <? tileMb _ _); [|done].
  intros Hlt. apply Z.ltb_lt in Hlt. lia.
Qed.

Lemma unmlq_right_form target op V T C W (st : state) first others :
  nt V = nt C → local_cols C = first :: others →
  ∃ calls mb nb,
    unmlq_right target op V T C W st
    = Returned
        (erase_col
           (if (mb <? nb)
            then slice (sub W 0 (mt C - 1) first first) 0
                   (m (sub C 0 (mt C - 1) first first) - 1) 0 (mb - 1)
            else sub W 0 (mt C - 1) first first)
           (run_kernels calls
              (insertLocalTiles (sub W 0 (mt C - 1) first first) st)))
    ∧ ((mb <? nb) = true → mb = tileMb (sub V 0 0 first first) 0).
Proof.
  intros HV E. unfold unmlq_right.
  rewrite assert_true by (by apply Z.eqb_eq). rewrite E.
  apply local_cols_first in E.
  rewrite assert_true by (apply Z.ltb_lt; lia).
  rewrite assert_true by (apply Z.leb_le; lia).
  cbv zeta. eexists _, _, _. split; [reflexivity|].
  destruct (_ <? tileMb _ _); [|done].
  intros Hlt. apply Z.ltb_lt in Hlt. lia.
Qed.

(** Inserting the local tiles of the workspace, running kernels and erasing
    the same tiles again: what is left of W and what the journal says. *)
Lemma insert_then_erase (L : list (Z * Z)) (st st' : state) :
  W_live st' = (W_live st ∪ list_to_set L) ∖ list_to_set L →
  journal st' = (journal st ++ (Inserted <$> L)) ++ (Erased <$> L) →
  journal st' = journal st ++ (Inserted <$> L) ++ (Erased <$> L)
  ∧ W_live st' = W_live st ∖ list_to_set L
  ∧ ∀ ij, ij ∈ L → ij ∉ W_live st'.
Proof.
  intros HL HJ. split; [by rewrite HJ, <- app_assoc|].
  assert (W_live st' = W_live st ∖ list_to_set L) as HL'.
  { rewrite HL, difference_union_distr_l_L, difference_diag_L.
    by rewrite union_empty_r_L. }
  split; [done|]. intros ij Hin. rewrite HL'.
  intros [_ Hnot]%elem_of_difference. apply Hnot.
  by apply elem_of_list_to_set.
Qed.

End Workspace.
End UnmlqFacts.

Module UnmlqSpec.
Import Unmlq UnmlqFacts.

(** Kernels that count the calls made, and small operands. *)
Definition counting_kernels : TileKernels :=
  {| contents := nat; kernel := λ _ k, S k |}.

Definition fresh_state : @state counting_kernels :=
  @Build_state counting_kernels ∅ [] 0%nat.

Definition grid (rows cols : list Z) (own : Z → Z → bool) : Matrix :=
  {| ioffset := 0; joffset := 0; mbs := rows; nbs := cols; owned := own |}.

(** The shape conditions as the specification words them: V is one
    block-row matching the tile rows of C in the left case, one
    block-column matching the tile columns of C in the right case. *)
Definition spec_shape_ok (side : Side) (V C W : Matrix) : Prop :=
  1 ≤ mt C ∧ 1 ≤ nt C
  ∧ match side with
    | Left => mt V = 1 ∧ nt V = mt C
    | Right => nt V = 1 ∧ mt V = nt C
    end
  ∧ mt W = mt C ∧ nt W = nt C.

Definition all_owned (rows cols : list Z) : Matrix :=
  grid rows cols (λ _ _, true).

Definition none_owned (rows cols : list Z) : Matrix :=
  grid rows cols (λ _ _, false).

(** On the right, with C of 1 x 2 tiles: a V of one block-column of two
    tiles meets the conditions as worded and is stopped by
    [assert(V.mt() == 1)], and a V of one block-row of two tiles does not
    meet them and is let through. *)
Lemma right_case_wants_a_block_row :
  (spec_shape_ok Right (all_owned [4; 4] [4])
     (all_owned [4] [4; 4]) (all_owned [4] [4; 4])
   ∧ unmlq HostTask Right NoTrans
       (all_owned [4; 4] [4]) (all_owned [4; 4] [4])
       (all_owned [4] [4; 4]) (all_owned [4] [4; 4]) fresh_state
     = AssertionFailed)
  ∧ (¬ spec_shape_ok Right (all_owned [4] [4; 4])
         (all_owned [4] [4; 4]) (all_owned [4] [4; 4])
     ∧ ∃ st, unmlq HostTask Right NoTrans
               (all_owned [4] [4; 4]) (all_owned [4] [4; 4])
               (all_owned [4] [4; 4]) (all_owned [4] [4; 4]) fresh_state
             = Returned st).
Proof.
  split; split.
  - unfold spec_shape_ok, mt, nt. simpl. lia.
  - reflexivity.
  - unfold spec_shape_ok, mt, nt. simpl. lia.
  - eexists. reflexivity.
Qed.

(** C5 (amended).  [unmlq] ends in a failed assertion exactly when one of
    these fails: C has at least one tile row and one tile column; V is one
    block-row ([V.mt() == 1]) on either side, with as many tile columns as C
    has tile rows in the left case and as C has tile columns in the right
    case; W has the tile grid of C.  Every other call returns. *)
Theorem unmlq_shape_assertions `{TileKernels} target side op V T C W
    (st : state) :
  (unmlq target side op V T C W st = AssertionFailed
   ↔ ¬ (1 ≤ mt C ∧ 1 ≤ nt C ∧ mt V = 1 ∧ mt W = mt C ∧ nt W = nt C
        ∧ nt V = match side with Left => mt C | Right => nt C end))
  ∧ (unmlq target side op V T C W st ≠ AssertionFailed
     → ∃ st', unmlq target side op V T C W st = Returned st').
Proof.
  split; [apply unmlq_asserts|].
  intros Hne. destruct (unmlq target side op V T C W st); [by eexists|done].
Qed.

(** C6.  When the calling rank owns no tile of C, a call that meets the
    shape conditions returns at once with the state it was given: the tiles
    of W, the journal of insertions and erasures and everything the kernels
    act on (the contents of C, W, V and T) are as before, and no assertion
    fails.  (A call that does not meet the shape conditions stops at the
    assertions, which come before the ownership test.) *)
Theorem unmlq_without_local_tiles `{TileKernels} target side op V T C W
    (st : state) :
  no_local_tile C →
  (shape_ok side V C W → unmlq target side op V T C W st = Returned st)
  ∧ (¬ shape_ok side V C W
     → unmlq target side op V T C W st = AssertionFailed).
Proof.
  intros Hno. split; [|apply unmlq_asserts].
  intros Hok. rewrite (unmlq_shape_ok _ _ _ _ _ _ _ _ Hok).
  destruct Hok as (_ & _ & _ & _ & _ & HV). destruct side.
  - unfold unmlq_left. rewrite assert_true by (by apply Z.eqb_eq).
    by rewrite (local_rows_nil C Hno).
  - unfold unmlq_right. rewrite assert_true by (by apply Z.eqb_eq).
    by rewrite (local_cols_nil C Hno).
Qed.

Lemma none_owned_no_local_tile rows cols :
  no_local_tile (none_owned rows cols).
Proof. intros i j _ _. reflexivity. Qed.

Lemma unmlq_without_local_tiles_witness :
  no_local_tile (none_owned [4; 4] [4; 4])
  ∧ shape_ok Left (all_owned [4] [4; 4])
      (none_owned [4; 4] [4; 4]) (none_owned [4; 4] [4; 4])
  ∧ unmlq Devices Left NoTrans (all_owned [4] [4; 4]) (all_owned [4] [4; 4])
      (none_owned [4; 4] [4; 4]) (none_owned [4; 4] [4; 4]) fresh_state
    = Returned fresh_state.
Proof.
  assert (shape_ok Left (all_owned [4] [4; 4])
            (none_owned [4; 4] [4; 4]) (none_owned [4; 4] [4; 4])) as Hok
    by (unfold shape_ok, mt, nt; simpl; lia).
  split; [apply none_owned_no_local_tile|]. split; [exact Hok|].
  exact (proj1 (unmlq_without_local_tiles Devices Left NoTrans _ _ _ _
                  fresh_state (none_owned_no_local_tile _ _)) Hok).
Defined.

(** C9.  Take a call that passes the shape checks and finds a local row of
    C (left) or a local column (right), [first] being the smallest, with W
    of the extents of C and no empty tile row or column.  The call returns;
    the only tiles it inserts into W are the local tiles of block-row
    [first] (left) or block-column [first] (right) of W; it erases every one
    of them before it returns and erases nothing else; so the tiles of W
    that exist afterwards are those that existed before without the local
    tiles of that row or column, none of which is left. *)
Theorem unmlq_frees_workspace `{TileKernels} target side op V T C W
    (st : state) first others :
  shape_ok side V C W →
  Forall (λ e, 0 < e) (mbs V) →
  Forall (λ e, 0 < e) (mbs W) → Forall (λ e, 0 < e) (nbs W) →
  mbs W = mbs C → nbs W = nbs C →
  local_indices side C = first :: others →
  ∃ st',
    unmlq target side op V T C W st = Returned st'
    ∧ journal st'
      = journal st
        ++ (Inserted <$> local_tiles (workspace side first C W))
        ++ (Erased <$> local_tiles (workspace side first C W))
    ∧ W_live st'
      = W_live st ∖ list_to_set (local_tiles (workspace side first C W))
    ∧ (∀ ij, ij ∈ local_tiles (workspace side first C W) → ij ∉ W_live st')
    ∧ (∀ ij, ij ∈ local_tiles (workspace side first C W) →
             match side with
             | Left => ij.1 = ioffset W + first
             | Right => ij.2 = joffset W + first
             end).
Proof.
  intros Hok HVpos Hrows Hcols Embs Enbs Eloc.
  rewrite (unmlq_shape_ok _ _ _ _ _ _ _ _ Hok).
  destruct Hok as (Hm & Hn & HVmt & HWmt & HWnt & HV).
  pose proof (first_row_extent V first HVmt HVpos) as Hmb1.
  assert (∀ st',
    journal st'
    = journal st
      ++ (Inserted <$> local_tiles (workspace side first C W))
      ++ (Erased <$> local_tiles (workspace side first C W))
    ∧ W_live st'
      = W_live st ∖ list_to_set (local_tiles (workspace side first C W))
    ∧ (∀ ij, ij ∈ local_tiles (workspace side first C W) → ij ∉ W_live st')
    →
    journal st'
    = journal st
      ++ (Inserted <$> local_tiles (workspace side first C W))
      ++ (Erased <$> local_tiles (workspace side first C W))
    ∧ W_live st'
      = W_live st ∖ list_to_set (local_tiles (workspace side first C W))
    ∧ (∀ ij, ij ∈ local_tiles (workspace side first C W) → ij ∉ W_live st')
    ∧ (∀ ij, ij ∈ local_tiles (workspace side first C W) →
             match side with
             | Left => ij.1 = ioffset W + first
             | Right => ij.2 = joffset W + first
             end)) as Hwrap.
  { intros st' (H1 & H2 & H3). repeat (split; [done|]).
    intros ij. by apply workspace_tiles. }
  destruct side; simpl in Eloc, HV.
  - destruct (unmlq_left_form target op V T C W st first others HV Eloc)
      as (calls & mb & nb & -> & Hmb).
    apply local_rows_first in Eloc as Hfirst.
    eexists. split; [reflexivity|]. apply Hwrap.
    set (Wr := sub W first first 0 (nt C - 1)) in *.
    assert (mt Wr = 1) as HWr.
    { destruct (sub_row_extents W first (nt C - 1)) as (e & _ & Ee);
        [lia|done|]. unfold mt. fold Wr in Ee. by rewrite Ee. }
    assert (row_locals
              (if (mb <? nb)
               then slice Wr 0 (mb - 1) 0
                      (n (sub C first first 0 (nt C - 1)) - 1)
               else Wr) = local_tiles Wr) as Erows.
    { rewrite (local_tiles_row Wr HWr).
      destruct (mb <? nb) eqn:Etr; [|done].
      apply row_locals_window. apply left_workspace_slice; try done; lia. }
    apply (insert_then_erase (local_tiles Wr) st).
    + destruct (erase_row_spec
                  (if (mb <? nb)
                   then slice Wr 0 (mb - 1) 0
                          (n (sub C first first 0 (nt C - 1)) - 1)
                   else Wr)
                  (run_kernels calls (insertLocalTiles Wr st))) as [-> _].
      destruct (run_kernels_frame calls (insertLocalTiles Wr st)) as [-> _].
      by rewrite Erows.
    + destruct (erase_row_spec
                  (if (mb <? nb)
                   then slice Wr 0 (mb - 1) 0
                          (n (sub C first first 0 (nt C - 1)) - 1)
                   else Wr)
                  (run_kernels calls (insertLocalTiles Wr st))) as [_ ->].
      destruct (run_kernels_frame calls (insertLocalTiles Wr st)) as [_ ->].
      by rewrite Erows.
  - destruct (unmlq_right_form target op V T C W st first others HV Eloc)
      as (calls & mb & nb & -> & Hmb).
    apply local_cols_first in Eloc as Hfirst.
    eexists. split; [reflexivity|]. apply Hwrap.
    set (Wc := sub W 0 (mt C - 1) first first) in *.
    assert (nt Wc = 1) as HWc.
    { destruct (sub_col_extents W first (mt C - 1)) as (e & _ & Ee);
        [lia|done|]. unfold nt. fold Wc in Ee. by rewrite Ee. }
    assert (col_locals
              (if (mb <? nb)
               then slice Wc 0 (m (sub C 0 (mt C - 1) first first) - 1) 0
                      (mb - 1)
               else Wc) = local_tiles Wc) as Ecols.
    { rewrite (local_tiles_col Wc HWc).
      destruct (mb <? nb) eqn:Etr; [|done].
      apply col_locals_window. apply right_workspace_slice; try done; lia. }
    apply (insert_then_erase (local_tiles Wc) st).
    + destruct (erase_col_spec
                  (if (mb <? nb)
                   then slice Wc 0 (m (sub C 0 (mt C - 1) first first) - 1)
                          0 (mb - 1)
                   else Wc)
                  (run_kernels calls (insertLocalTiles Wc st))) as [-> _].
      destruct (run_kernels_frame calls (insertLocalTiles Wc st)) as [-> _].
      by rewrite Ecols.
    + destruct (erase_col_spec
                  (if (mb <? nb)
                   then slice Wc 0 (m (sub C 0 (mt C - 1) first first) - 1)
                          0 (mb - 1)
                   else Wc)
                  (run_kernels calls (insertLocalTiles Wc st))) as [_ ->].
      destruct (run_kernels_frame calls (insertLocalTiles Wc st)) as [_ ->].
      by rewrite Ecols.
Qed.

(** A rank that owns the tiles (i, j) with i + j even, an operand of
    3 x 2 tiles, and a V whose first tile is a 3 x 4 trapezoid. *)
Definition checkerboard (rows cols : list Z) : Matrix :=
  grid rows cols (λ i j, Z.even (i + j)).

Lemma unmlq_frees_workspace_witness :
  ∃ st',
    unmlq Devices Left NoTrans
      (all_owned [3] [4; 4; 2]) (all_owned [3] [4; 4; 2])
      (checkerboard [4; 4; 2] [4; 3]) (checkerboard [4; 4; 2] [4; 3])
      fresh_state
    = Returned st'
    ∧ journal st' = [] ++ [Inserted (0, 0)] ++ [Erased (0, 0)]
    ∧ W_live st' = ∅ ∖ {[ (0, 0) ]} ∪ ∅.
Proof.
  destruct (unmlq_frees_workspace Devices Left NoTrans
              (all_owned [3] [4; 4; 2]) (all_owned [3] [4; 4; 2])
              (checkerboard [4; 4; 2] [4; 3]) (checkerboard [4; 4; 2] [4; 3])
              fresh_state 0 [1; 2])
    as (st' & E & HJ & HL & _).
  - unfold shape_ok, mt, nt. simpl. lia.
  - repeat constructor.
  - repeat constructor.
  - repeat constructor.
  - reflexivity.
  - reflexivity.
  - reflexivity.
  - exists st'. split; [exact E|]. split; [exact HJ|].
    rewrite HL. vm_compute. reflexivity.
Defined.

End UnmlqSpec.


(* ===================================================================== *)
(** * Part III: further properties of the code                            *)
(* ===================================================================== *)

(* --------------------------------------------------------------------- *)
(** ** hb2td_step and the reflector store                                 *)
(* --------------------------------------------------------------------- *)

Module StoreFacts.
Import Hb2td RunFacts StepFacts.

Section Store.
Context `{Kernels}.

(** What [reflectors[key]] leaves in the store. *)
Lemma subscript_lookup (kk k : Z * Z) (R : Reflectors) :
  (subscript kk R).2 !! k
  = match R !! k with
    | Some v => Some v
    | None => if decide (kk = k) then Some [] else None
    end.
Proof.
  unfold subscript. destruct (R !! kk) as [v|] eqn:E; simpl.
  - destruct (R !! k) eqn:Ek; [done|].
    case_decide as Hk; [|done]. subst. congruence.
  - destruct (decide (kk = k)) as [->|Hne].
    + by rewrite lookup_insert_eq, E.
    + rewrite lookup_insert_ne by done. by destruct (R !! k).
Qed.

Lemma keys_of_task_0 band sweep step :
  task_of step = 0 →
  coords band sweep step = Some (sweep, sweep)
  ∧ consumed_key band sweep step = None
  ∧ produced_key band sweep step = Some (sweep + 1, sweep).
Proof.
  intros Et. unfold consumed_key, produced_key, coords. by rewrite !Et.
Qed.

Lemma keys_of_task_1 band sweep step :
  task_of step = 1 →
  coords band sweep step
  = Some ((block_of step + 1) * (band - 1) + 1 + sweep,
          block_of step * (band - 1) + 1 + sweep)
  ∧ consumed_key band sweep step
    = Some ((block_of step + 1) * (band - 1) + 1 + sweep - (band - 1),
            if step =? 1 then block_of step * (band - 1) + 1 + sweep - 1
            else block_of step * (band - 1) + 1 + sweep - (band - 1))
  ∧ produced_key band sweep step
    = Some ((block_of step + 1) * (band - 1) + 1 + sweep,
            block_of step * (band - 1) + 1 + sweep).
Proof.
  intros Et. unfold consumed_key, produced_key, coords. by rewrite !Et.
Qed.

Lemma keys_of_task_2 band sweep step :
  task_of step = 2 →
  coords band sweep step
  = Some (block_of step * (band - 1) + 1 + sweep,
          block_of step * (band - 1) + 1 + sweep)
  ∧ consumed_key band sweep step
    = Some (block_of step * (band - 1) + 1 + sweep,
            block_of step * (band - 1) + 1 + sweep - (band - 1))
  ∧ produced_key band sweep step = None.
Proof.
  intros Et. unfold consumed_key, produced_key, coords. by rewrite !Et.
Qed.

(** The entries of the store after an in-range step, the produced one
    apart. *)
Lemma hb2td_step_lookup (A : HermitianMatrix) (band sweep step : Z)
    (R : Reflectors) (ij k : Z * Z) :
  coords band sweep step = Some ij → in_range (A_n A) ij = true →
  produced_key band sweep step ≠ Some k →
  (hb2td_step A band sweep step R).2 !! k
  = match R !! k with
    | Some v => Some v
    | None =>
        if decide (consumed_key band sweep step = Some k) then Some [] else None
    end.
Proof.
  intros Hc Hin Hp. unfold in_range in Hin.
  destruct (task_of_cases step) as [Et | [Et | Et]].
  - destruct (keys_of_task_0 band sweep step Et) as (Ec & Econs & Eprod).
    rewrite Ec in Hc. injection Hc as <-. simpl in Hin.
    rewrite Econs, Eprod in *. unfold hb2td_step. rewrite Et. simpl.
    rewrite Hin.
    destruct (subscript (sweep + 1, sweep) R) as [v R1] eqn:ES.
    destruct (hebr1 _ _ _) as [d v']. simpl.
    rewrite lookup_insert_ne by congruence.
    change R1 with (v, R1).2. rewrite <- ES, subscript_lookup.
    destruct (R !! k); [done|]. repeat case_decide; congruence.
  - destruct (keys_of_task_1 band sweep step Et) as (Ec & Econs & Eprod).
    rewrite Ec in Hc. injection Hc as <-. simpl in Hin.
    rewrite Econs, Eprod in *. unfold hb2td_step. rewrite Et. simpl.
    rewrite Hin.
    destruct (subscript _ R) as [v1 R1] eqn:ES1.
    destruct (subscript _ R1) as [v2 R2] eqn:ES2.
    destruct (hebr2 _ _ _ _) as [d v']. simpl.
    rewrite lookup_insert_ne by congruence.
    change R2 with (v2, R2).2. rewrite <- ES2, subscript_lookup.
    change R1 with (v1, R1).2. rewrite <- ES1, subscript_lookup.
    destruct (R !! k); [done|]. repeat case_decide; congruence.
  - destruct (keys_of_task_2 band sweep step Et) as (Ec & Econs & Eprod).
    rewrite Ec in Hc. injection Hc as <-. simpl in Hin.
    rewrite Econs in *. unfold hb2td_step. rewrite Et. simpl.
    rewrite Hin.
    destruct (subscript _ R) as [v1 R1] eqn:ES1. simpl.
    change R1 with (v1, R1).2. rewrite <- ES1, subscript_lookup.
    destruct (R !! k); [done|]. repeat case_decide; congruence.
Qed.

End Store.
End StoreFacts.

(* --------------------------------------------------------------------- *)
(** ** hb2td_run: the order in which a thread takes its steps             *)
(* --------------------------------------------------------------------- *)

Module OrderFacts.
Import Hb2td RunFacts StepFacts.

(** Iterations that issue sorted lists, each below the ones of every later
    iteration, issue a sorted list. *)
Lemma for_stride_sorted_inv {S} (I : S → Prop) (R : relation task) fuel :
  ∀ i bound stride (body : Z → S → M S) s,
    0 < stride →
    (∀ i s s', I s → ending (body i s) = Ok s' → I s') →
    (∀ q s, 0 ≤ q → I s → StronglySorted R (issued (body (i + q * stride) s))) →
    (∀ q q' s s' t t',
       0 ≤ q < q' → I s → I s' →
       t ∈ issued (body (i + q * stride) s) →
       t' ∈ issued (body (i + q' * stride) s') → R t t') →
    I s →
    StronglySorted R (issued (for_stride fuel i bound stride body s)).
Proof.
  induction fuel as [|fuel IH]; intros i bound stride body s Hs HI Hin Hx Is.
  - rewrite for_stride_O. destruct (i <? bound); constructor.
  - rewrite for_stride_S. destruct (i <? bound); [|constructor].
    rewrite issued_bind. apply StronglySorted_app_2.
    + intros t t' Ht Ht'.
      destruct (ending (body i s)) as [s1|e] eqn:E;
        [|by apply elem_of_nil in Ht'].
      apply (for_stride_issued_inv I) in Ht'
        as (q & s' & Hq & _ & Is' & Ht'); [|done|done|by eapply HI].
      apply (Hx 0 (q + 1) s s' t t'); [lia|done|done| |].
      * by rewrite Z.mul_0_l, Z.add_0_r.
      * by replace (i + (q + 1) * stride) with (i + stride + q * stride)
          by lia.
    + specialize (Hin 0 s ltac:(lia) Is).
      by rewrite Z.mul_0_l, Z.add_0_r in Hin.
    + destruct (ending (body i s)) as [s1|e] eqn:E; [|constructor].
      apply IH; [done|done| | |by eapply HI].
      * intros q s' Hq Is'.
        replace (i + stride + q * stride) with (i + (q + 1) * stride) by lia.
        apply Hin; [lia|done].
      * intros q q' s' s'' t t' Hq Is' Is'' Ht Ht'.
        replace (i + stride + q * stride) with (i + (q + 1) * stride)
          in Ht by lia.
        replace (i + stride + q' * stride) with (i + (q' + 1) * stride)
          in Ht' by lia.
        apply (Hx (q + 1) (q' + 1) s' s'' t t'); [lia|done..].
Qed.

Section Order.

Variables band diag_len pass_size thread_size : Z.

Hypothesis threads_pos : 1 ≤ thread_size.
Hypothesis pass_pos : 1 ≤ pass_size.
(** [pass_size = ceildiv(thread_size, 3)]: a thread is back at the first
    sweep of the pass, [thread_size] steps on, only after the threads
    behind it have left room for the sweeps of the pass. *)
Hypothesis pass_fits : 3 * (pass_size - 1) < thread_size.

(** The turn of a step: passes one after the other; inside a pass, step [s]
    of a sweep comes three turns after step [s] of the sweep before. *)
Definition turn (ks : Z * Z) : Z :=
  (ks.1 `div` pass_size) * (2 * diag_len) + ks.2 + 3 * ks.1.

Definition earlier (t t' : task) : Prop := turn (key t) < turn (key t').

(** A sweep has fewer than [2 * diag_len] steps. *)
Lemma nsteps_bound k ns :
  2 ≤ band → 0 ≤ k < diag_len - 2 →
  nsteps band diag_len k = Some ns → 1 ≤ ns ≤ 2 * (diag_len - 1 - k) - 1.
Proof.
  intros Hb Hk. unfold nsteps.
  destruct (ceildiv _ _) as [c|] eqn:Ec; [|done]. simpl. intros [= <-].
  apply ceildiv_bounds in Ec; [|lia|lia]. nia.
Qed.

Lemma issued_step_bound k s ns :
  k < diag_len - 2 → 0 ≤ k → 0 ≤ s →
  nsteps band diag_len k = Some ns → s < ns →
  2 ≤ band ∧ s < 2 * diag_len - 2.
Proof.
  intros Hk Hk0 Hs Ens Hlt.
  assert (2 ≤ band) as Hb
    by (eapply (nsteps_pos_band band diag_len k ns); [done|lia..]).
  split; [done|]. pose proof (nsteps_bound k ns Hb ltac:(lia) Ens). lia.
Qed.

Lemma sweep_body_sorted step sweep u :
  StronglySorted earlier (issued (sweep_body band diag_len step sweep u)).
Proof.
  unfold sweep_body.
  destruct (nsteps band diag_len sweep) as [ns|]; [|constructor].
  destruct (nsteps band diag_len (sweep - 1)) as [nl|]; [|constructor].
  unfold lift, ret, bind. simpl.
  destruct (step <? ns); [|constructor].
  unfold issued. simpl. repeat constructor.
Qed.

Lemma sweep_loop_sorted pass sweep_end step u :
  0 ≤ diag_len →
  StronglySorted earlier
    (issued (sweep_loop band diag_len pass sweep_end step u)).
Proof.
  intros Hn. unfold sweep_loop.
  apply (for_stride_sorted_inv (λ _, True)); [lia|done| | |done].
  - intros. apply sweep_body_sorted.
  - intros q q' s s' t t' Hq _ _ Ht Ht'.
    apply sweep_body_issued in Ht as (Hk & Hs & _).
    apply sweep_body_issued in Ht' as (Hk' & Hs' & _).
    unfold earlier, turn, key. simpl. rewrite Hk, Hk', Hs, Hs'.
    assert ((pass + q * 1) `div` pass_size ≤ (pass + q' * 1) `div` pass_size)
      by (apply Z.div_le_mono; lia).
    nia.
Qed.

Lemma div_window pass k :
  pass `mod` pass_size = 0 → pass ≤ k < pass + pass_size →
  k `div` pass_size = pass `div` pass_size.
Proof.
  intros Hm Hk.
  pose proof (Z.div_mod pass pass_size ltac:(lia)) as Hd. rewrite Hm in Hd.
  symmetry. apply (Z.div_unique k pass_size _ (k - pass)); lia.
Qed.

Lemma pass_body_sorted rank pass start :
  0 ≤ diag_len → 0 ≤ rank → start < thread_size →
  pass `mod` pass_size = 0 →
  StronglySorted earlier
    (issued (pass_body band diag_len pass_size rank thread_size pass start)).
Proof.
  intros Hn Hr Hs Hm. unfold pass_body.
  destruct (nsteps band diag_len pass) as [np|] eqn:Enp; [|constructor].
  destruct (step_begin_mod thread_size threads_pos rank start Hr Hs)
    as [-> Hsb].
  rewrite !bind_lift_Some, issued_bind.
  apply StronglySorted_app_2.
  - intros t t' _ Ht'. destruct (ending _); [|by apply elem_of_nil in Ht'].
    by apply elem_of_issued_lift in Ht'.
  - apply (for_stride_sorted_inv (λ _, True)); [lia|done| | |done].
    + intros. by apply sweep_loop_sorted.
    + intros q q' s s' t t' Hq _ _ Ht Ht'.
      apply sweep_loop_issued in Ht as (Hk & Hst & _).
      apply sweep_loop_issued in Ht' as (Hk' & Hst' & _).
      unfold earlier, turn, key. simpl.
      rewrite (div_window pass (t_sweep t)), (div_window pass (t_sweep t'))
        by (done || lia).
      rewrite Hst, Hst'. nia.
  - destruct (ending _); [|constructor].
    destruct (c_rem _ _); constructor.
Qed.

(** A thread takes its steps in the order of their turns. *)
Lemma run_sorted rank :
  0 ≤ rank →
  StronglySorted earlier
    (issued (hb2td_run band diag_len pass_size rank thread_size)).
Proof.
  intros Hr. unfold hb2td_run.
  destruct (decide (0 < diag_len - 2)) as [Hn|Hn].
  2:{ destruct (Z.to_nat (diag_len - 2)); simpl;
        (destruct (0 <? diag_len - 2) eqn:E;
           [apply Z.ltb_lt in E; lia|constructor]). }
  apply (for_stride_sorted_inv (start_ok thread_size));
    [lia| | | |apply start_ok_0; lia].
  - intros i s s' Is E. by eapply pass_body_start_ok.
  - intros q s Hq Is. apply pass_body_sorted; [lia|done| |].
    + unfold start_ok in Is. lia.
    + rewrite Z.add_0_l. apply Z.mod_mul. lia.
  - intros q q' s s' t t' Hq Is Is' Ht Ht'. rewrite Z.add_0_l in Ht, Ht'.
    apply pass_body_issued in Ht
      as (Hk & Hd & Hst & _ & _ & ns & Ens & Hlt);
      [|done|done|unfold start_ok in Is; lia].
    apply pass_body_issued in Ht' as (Hk' & Hd' & Hst' & _);
      [|done|done|unfold start_ok in Is'; lia].
    destruct (issued_step_bound (t_sweep t) (t_step t) ns) as [_ Hb];
      [done|nia|done|done|done|].
    unfold earlier, turn, key. simpl.
    rewrite (div_window (q * pass_size) (t_sweep t)),
      (div_window (q' * pass_size) (t_sweep t'))
      by (done || (apply Z.mod_mul; lia)).
    rewrite !Z.div_mul by lia. nia.
Qed.

(** The two steps a step waits for have earlier turns. *)
Lemma turn_self k s : turn (k, s - 1) < turn (k, s).
Proof. unfold turn. simpl. lia. Qed.

Lemma turn_prev k s d :
  0 ≤ diag_len → d ≤ s + 2 → 0 ≤ s → turn (k - 1, d) < turn (k, s).
Proof.
  intros Hn Hd Hs. unfold turn. simpl.
  assert ((k - 1) `div` pass_size ≤ k `div` pass_size) as Hle
    by (apply Z.div_le_mono; lia).
  destruct (decide ((k - 1) `div` pass_size = k `div` pass_size)) as [->|Hne];
    [lia|].
  assert ((k - 1) `div` pass_size ≤ k `div` pass_size - 1) by lia.
  nia.
Qed.

(** Within a pass the steps go round the threads: thread [r] has the steps
    [s] with [s ≡ r - start], whatever the sweep. *)
Lemma pass_task_round_robin r1 r2 pass start t1 t2 :
  0 ≤ r1 < thread_size → 0 ≤ r2 < thread_size →
  pass_task band diag_len pass_size thread_size r1 pass start t1 →
  pass_task band diag_len pass_size thread_size r2 pass start t2 →
  (r1 = r2 ↔ t_step t1 `mod` thread_size = t_step t2 `mod` thread_size).
Proof.
  intros H1 H2 (_ & _ & _ & M1 & _) (_ & _ & _ & M2 & _).
  rewrite M1, M2. split; [by intros ->|]. intros M.
  pose proof (Z.div_mod (r1 - start) thread_size ltac:(lia)) as D1.
  pose proof (Z.div_mod (r2 - start) thread_size ltac:(lia)) as D2.
  rewrite M in D1.
  set (q1 := (r1 - start) `div` thread_size) in *.
  set (q2 := (r2 - start) `div` thread_size) in *.
  assert (r1 - r2 = thread_size * (q1 - q2)) as D by lia.
  assert (q1 - q2 = 0) by nia. lia.
Qed.

Lemma pass_loop_round_robin fuel :
  ∀ pass start r1 r2 t1 t2,
    band ≠ 1 →
    0 ≤ r1 < thread_size → 0 ≤ r2 < thread_size →
    start_ok thread_size start →
    t1 ∈ issued (for_stride fuel pass (diag_len - 2) pass_size
                   (pass_body band diag_len pass_size r1 thread_size) start) →
    t2 ∈ issued (for_stride fuel pass (diag_len - 2) pass_size
                   (pass_body band diag_len pass_size r2 thread_size) start) →
    t_sweep t1 = t_sweep t2 →
    (r1 = r2 ↔ t_step t1 `mod` thread_size = t_step t2 `mod` thread_size).
Proof.
  induction fuel as [|fuel IH]; intros pass start r1 r2 t1 t2 Hb H1 H2 Hs.
  - rewrite for_stride_O. destruct (pass <? _); intros Ht;
      by apply elem_of_nil in Ht.
  - rewrite !for_stride_S. destruct (pass <? _);
      [|intros Ht; by apply elem_of_nil in Ht].
    rewrite !issued_bind.
    destruct (pass_body_ending band diag_len pass_size thread_size
                threads_pos r1 pass start Hb) as (np & Enp & ->);
      [lia|unfold start_ok in Hs; lia|].
    destruct (pass_body_ending band diag_len pass_size thread_size
                threads_pos r2 pass start Hb) as (np' & Enp' & ->);
      [lia|unfold start_ok in Hs; lia|].
    assert (np' = np) as -> by congruence.
    assert (start_ok thread_size (Z.rem (start + np) thread_size)) as Hs'.
    { pose proof (Z.rem_bound_abs (start + np) thread_size).
      unfold start_ok. lia. }
    intros Ht1 Ht2 Hk.
    apply elem_of_app in Ht1 as [Ht1|Ht1];
      apply elem_of_app in Ht2 as [Ht2|Ht2].
    + apply pass_body_issued in Ht1; [|done|lia|unfold start_ok in Hs; lia].
      apply pass_body_issued in Ht2; [|done|lia|unfold start_ok in Hs; lia].
      by eapply pass_task_round_robin.
    + apply pass_body_issued in Ht1 as (Hw1 & _);
        [|done|lia|unfold start_ok in Hs; lia].
      apply pass_loop_issued in Ht2 as (p' & s' & Hp' & _ & Hw2 & _);
        [|done|done|lia|done].
      lia.
    + apply pass_body_issued in Ht2 as (Hw2 & _);
        [|done|lia|unfold start_ok in Hs; lia].
      apply pass_loop_issued in Ht1 as (p' & s' & Hp' & _ & Hw1 & _);
        [|done|done|lia|done].
      lia.
    + by eapply (IH (pass + pass_size) _ r1 r2 t1 t2).
Qed.

(** The steps of a sweep go round the threads. *)
Lemma run_round_robin r1 r2 t1 t2 :
  0 ≤ r1 < thread_size → 0 ≤ r2 < thread_size →
  t1 ∈ issued (hb2td_run band diag_len pass_size r1 thread_size) →
  t2 ∈ issued (hb2td_run band diag_len pass_size r2 thread_size) →
  t_sweep t1 = t_sweep t2 →
  (r1 = r2 ↔ t_step t1 `mod` thread_size = t_step t2 `mod` thread_size).
Proof.
  intros H1 H2 Ht1 Ht2 Hk. destruct (decide (band = 1)) as [Hb|Hb].
  - apply run_issued in Ht1 as (_ & _ & _ & ns & E & _); [|done|done|lia].
    by rewrite (nsteps_None _ _ _ Hb) in E.
  - eapply pass_loop_round_robin; eauto using start_ok_0.
Qed.

(** Below band 2 no sweep has a step. *)
Lemma run_no_task rank :
  band < 2 → 0 ≤ rank →
  issued (hb2td_run band diag_len pass_size rank thread_size) = [].
Proof.
  intros Hb Hr.
  destruct (issued _) as [|t l] eqn:E; [done|]. exfalso.
  assert (t ∈ issued (hb2td_run band diag_len pass_size rank thread_size))
    as Ht by (rewrite E; left).
  apply run_issued in Ht as (Hk & Hs & _ & ns & Ens & Hlt); [|done..].
  pose proof (nsteps_pos_band band diag_len (t_sweep t) ns Ens) as H2.
  lia.
Qed.

End Order.
End OrderFacts.

(* --------------------------------------------------------------------- *)
(** ** The thread team: progress                                          *)
(* --------------------------------------------------------------------- *)

Module LiveFacts.
Import Hb2td RunFacts StepFacts TeamFacts OrderFacts.

Definition next_phase (ph : phase) : phase :=
  match ph with
  | WaitPrev => WaitSelf
  | WaitSelf => RunStep
  | RunStep => StoreDone
  | StoreDone => WaitPrev
  end.

Lemma ceildiv_3_fits thread_size ps :
  1 ≤ thread_size → ceildiv thread_size 3 = Some ps →
  1 ≤ ps ∧ 3 * (ps - 1) < thread_size.
Proof.
  intros HT. unfold ceildiv. simpl. intros [= <-].
  pose proof (Z.quot_rem' (thread_size + 3 - 1) 3) as Hqr.
  pose proof (Z.rem_bound_pos (thread_size + 3 - 1) 3 ltac:(lia) ltac:(lia)).
  lia.
Qed.

Lemma list_min {X} (f : X → Z) (l : list X) :
  l ≠ [] → ∃ x, x ∈ l ∧ ∀ y, y ∈ l → f x ≤ f y.
Proof.
  induction l as [|a l IH]; [done|]. intros _.
  destruct l as [|b l].
  - exists a. split; [left|]. intros y Hy.
    apply list_elem_of_singleton in Hy as ->. lia.
  - destruct IH as (x & Hx & Hmin); [done|].
    destruct (decide (f a ≤ f x)) as [Hle|Hgt].
    + exists a. split; [left|]. intros y Hy.
      apply elem_of_cons in Hy as [->|Hy]; [lia|].
      specialize (Hmin y Hy). lia.
    + exists x. split; [by right|]. intros y Hy.
      apply elem_of_cons in Hy as [->|Hy]; [lia|by apply Hmin].
Qed.

(** The actions a thread still has to make: four for each task, less those
    already made for the task it is at. *)
Definition phase_left (ph : phase) : nat :=
  match ph with
  | WaitPrev => 4
  | WaitSelf => 3
  | RunStep => 2
  | StoreDone => 1
  end.

Definition thread_left (th : thread) : nat :=
  match th_tasks th with
  | [] => 0
  | _ :: rest => phase_left (th_phase th) + 4 * length rest
  end.

Definition actions_left `{Kernels} (σ : sys) : nat :=
  sum_list_with thread_left (threads σ).

Lemma sum_list_with_insert {X} (f : X → nat) (l : list X) i x y :
  l !! i = Some x →
  (sum_list_with f (<[i := y]> l) + f x = sum_list_with f l + f y)%nat.
Proof.
  revert i. induction l as [|a l IH]; intros [|i] Hl; simpl in *; try done.
  - injection Hl as ->. lia.
  - specialize (IH i Hl). lia.
Qed.

Section Live.
Context `{Kernels}.

(** What an action of a thread is, phase by phase. *)
Lemma exec_thread_Advance band t (σ σ' : sys) :
  exec_thread band t σ = Advance σ' →
  ∃ th tk rest,
    threads σ !! t = Some th ∧ th_tasks th = tk :: rest
    ∧ match th_phase th with
      | WaitPrev | WaitSelf =>
          σ' = set_thread t
                 {| th_phase := next_phase (th_phase th);
                    th_tasks := tk :: rest; th_exit := th_exit th |} σ
      | RunStep =>
          σ' = {| progress := progress σ;
                  mat := (hb2td_step (mat σ) band (t_sweep tk) (t_step tk)
                            (reflectors σ)).1;
                  reflectors :=
                    (hb2td_step (mat σ) band (t_sweep tk) (t_step tk)
                       (reflectors σ)).2;
                  threads :=
                    <[t := {| th_phase := StoreDone; th_tasks := tk :: rest;
                              th_exit := th_exit th |}]> (threads σ);
                  steps_done := steps_done σ ++ [key tk] |}
      | StoreDone =>
          0 ≤ t_sweep tk < Z.of_nat (length (progress σ))
          ∧ σ' = {| progress :=
                      <[Z.to_nat (t_sweep tk) := t_step tk]> (progress σ);
                    mat := mat σ; reflectors := reflectors σ;
                    threads :=
                      <[t := {| th_phase := WaitPrev; th_tasks := rest;
                                th_exit := th_exit th |}]> (threads σ);
                    steps_done := steps_done σ |}
      end.
Proof.
  unfold exec_thread.
  destruct (threads σ !! t) as [th|] eqn:Ht; [|done].
  destruct (th_tasks th) as [|tk rest] eqn:Htk;
    [by destruct (th_exit th)|].
  intros Hex. exists th, tk, rest. split; [done|]. split; [done|].
  destruct (th_phase th) eqn:Hph; simpl.
  - destruct (0 <? t_sweep tk); [|by injection Hex as <-].
    destruct (load_at _ _) as [v|]; [|done].
    destruct (v <? _); [done|]. by injection Hex as <-.
  - destruct (0 <? t_step tk); [|by injection Hex as <-].
    destruct (load_at _ _) as [v|]; [|done].
    destruct (v <? _); [done|]. by injection Hex as <-.
  - destruct (hb2td_step _ _ _ _ _) as [A' R']. by injection Hex as <-.
  - unfold store_at in Hex. destruct (_ && _) eqn:Hb; [|done].
    apply andb_prop in Hb as [Hb1 Hb2].
    apply Z.leb_le in Hb1. apply Z.ltb_lt in Hb2.
    split; [lia|]. by injection Hex as <-.
Qed.

Lemma thread_left_eq (th : thread) tk rest :
  th_tasks th = tk :: rest →
  thread_left th = (phase_left (th_phase th) + 4 * length rest)%nat.
Proof. unfold thread_left. by intros ->. Qed.

(** Every action uses up one of the actions left. *)
Lemma exec_thread_actions band t (σ σ' : sys) :
  exec_thread band t σ = Advance σ' →
  actions_left σ = S (actions_left σ').
Proof.
  intros Hex.
  destruct (exec_thread_Advance band t σ σ' Hex)
    as (th & tk & rest & Ht & Htk & Hcase).
  pose proof (thread_left_eq th tk rest Htk) as Eth.
  unfold actions_left.
  destruct (th_phase th) eqn:Hph;
    [ | | |destruct Hcase as [_ Hcase]]; subst σ'; proj_red;
    match goal with
    | |- context [<[t := ?th']> _] =>
        pose proof (sum_list_with_insert thread_left (threads σ) t th th' Ht)
          as Hsum
    end;
    rewrite Eth in Hsum; simpl in Hsum.
  1-3: (unfold thread_left at 3 in Hsum; simpl in *; lia).
  unfold thread_left at 3 in Hsum. simpl in Hsum.
  destruct rest; simpl in *; lia.
Qed.

Lemma nsteps_actions band j (σ σ' : sys) :
  relations.nsteps (sys_step band) j σ σ' →
  actions_left σ = (j + actions_left σ')%nat.
Proof.
  induction 1 as [|j σ1 σ2 σ3 [t Hstep] _ IH]; [done|].
  rewrite (exec_thread_actions _ _ _ _ Hstep), IH. lia.
Qed.

Lemma actions_left_0 (σ : sys) :
  actions_left σ = 0%nat
  ↔ ∀ t th, threads σ !! t = Some th → th_tasks th = [].
Proof.
  unfold actions_left. split.
  - intros H0 t th Ht.
    pose proof (sum_list_with_in th thread_left (threads σ)
                  ltac:(by eapply list_elem_of_lookup_2)) as Hle.
    destruct (th_tasks th) as [|tk rest] eqn:Htk; [done|].
    rewrite (thread_left_eq th tk rest Htk) in Hle.
    destruct (th_phase th); simpl in Hle; lia.
  - intros Hall. induction (threads σ) as [|th l IH]; [done|]. simpl.
    rewrite IH.
    + unfold thread_left. by rewrite (Hall 0%nat th eq_refl).
    + intros t th' Ht. by apply (Hall (S t)).
Qed.

Lemma actions_left_pos (σ : sys) :
  actions_left σ ≠ 0%nat →
  ∃ t th, threads σ !! t = Some th ∧ th_tasks th ≠ [].
Proof.
  unfold actions_left. induction (threads σ) as [|th l IH]; [done|].
  simpl. intros Hne. destruct (th_tasks th) as [|tk rest] eqn:Htk.
  - destruct IH as (t & th' & Ht & Hth).
    { unfold thread_left in Hne at 1. rewrite Htk in Hne. lia. }
    by exists (S t), th'.
  - exists 0%nat, th. split; [done|]. by rewrite Htk.
Qed.

Section Kept.
Variables (n band : Z) (σ0 : sys).

(** A step is completed once the counter of its sweep has reached it. *)
Definition completed (p : list Z) (tk : task) : Prop :=
  ∃ v, load_at p (t_sweep tk) = Some v ∧ t_step tk ≤ v.

(** What a state keeps of the initial state [σ0]: every thread is left with
    a final part of the tasks it started with, and the tasks it has dropped
    are completed. *)
Record Kept (σ : sys) : Prop := {
  kept_len : length (threads σ) = length (threads σ0);
  kept_tasks :
    ∀ t th0 th, threads σ0 !! t = Some th0 → threads σ !! t = Some th →
                th_tasks th `suffix_of` th_tasks th0
                ∧ th_exit th = th_exit th0;
  kept_done :
    ∀ t th0 tk, threads σ0 !! t = Some th0 → tk ∈ th_tasks th0 →
                (∃ th, threads σ !! t = Some th ∧ tk ∈ th_tasks th)
                ∨ completed (progress σ) tk
}.

Lemma Kept_init : Kept σ0.
Proof.
  split; [done| |].
  - intros t th0 th E0 E. rewrite E0 in E. by injection E as <-.
  - intros t th0 tk E0 Hin. left. by exists th0.
Qed.

Lemma completed_mono p p' tk :
  progress_le p p' → completed p tk → completed p' tk.
Proof.
  intros Hle (v & Hv & Hs).
  destruct (progress_le_load _ _ _ _ Hle Hv) as (v' & Hv' & Hvv).
  exists v'. split; [done|lia].
Qed.

Lemma Kept_update (σ σ' : sys) t th th' :
  Kept σ →
  threads σ !! t = Some th →
  threads σ' = <[t := th']> (threads σ) →
  th_tasks th' `suffix_of` th_tasks th → th_exit th' = th_exit th →
  progress_le (progress σ) (progress σ') →
  (∀ tk, tk ∈ th_tasks th →
         tk ∈ th_tasks th' ∨ completed (progress σ') tk) →
  Kept σ'.
Proof.
  intros [Hlen Htasks Hdone] Ht E' Hsuf Hex Hle Hdrop.
  pose proof (lookup_lt_Some _ _ _ Ht) as Hlt.
  split.
  - by rewrite E', length_insert.
  - intros t' th0 th1 E0 E1. rewrite E' in E1.
    apply lookup_set_thread in E1 as [[-> ->]|[Hne E1]].
    + destruct (Htasks _ _ _ E0 Ht) as [Hs He]. split; [|congruence].
      by etrans.
    + by eapply Htasks.
  - intros t' th0 tk E0 Hin.
    destruct (Hdone _ _ _ E0 Hin) as [(th1 & E1 & Hin1)|Hc].
    + destruct (decide (t' = t)) as [->|Hne].
      * assert (th1 = th) as -> by congruence.
        destruct (Hdrop tk Hin1) as [Hin'|Hc]; [|by right].
        left. exists th'. split; [|done].
        rewrite E'. by apply list_lookup_insert_eq.
      * left. exists th1. split; [|done].
        rewrite E'. by rewrite list_lookup_insert_ne.
    + right. by eapply completed_mono.
Qed.

Lemma exec_thread_Kept t (σ σ' : sys) :
  Inv n band σ → Kept σ → exec_thread band t σ = Advance σ' → Kept σ'.
Proof.
  intros HI HK Hex.
  destruct (exec_thread_Inv n band t σ σ' HI Hex) as [_ Hle].
  destruct (exec_thread_Advance band t σ σ' Hex)
    as (th & tk & rest & Ht & Htk & Hcase).
  destruct (th_phase th) eqn:Hph.
  1-3: (eapply (Kept_update σ σ' t th); [done|done| | | |done|];
        [by subst σ'|by rewrite Htk|done|];
        intros tk' Hin; left; by rewrite <- Htk).
  destruct Hcase as [Hk ->].
  eapply (Kept_update σ _ t th); [done|done|done| |done|done|]; proj_red.
  - rewrite Htk. by apply suffix_cons_r.
  - intros tk' Hin. rewrite Htk in Hin.
    apply elem_of_cons in Hin as [->|Hin]; [|by left].
    right. exists (t_step tk). split; [|lia].
    rewrite load_at_store by done. by case_decide.
Qed.

End Kept.

Section Moves.
Variables (A : HermitianMatrix) (band thread_size ps : Z) (σ0 : sys).
Hypothesis threads_pos : 1 ≤ thread_size.
Hypothesis pass_size_eq : ceildiv thread_size 3 = Some ps.
Hypothesis init : hb2td_init A band thread_size = Ok σ0.

Lemma init_state :
  2 ≤ A_n A
  ∧ σ0 = {| progress := replicate (Z.to_nat (A_n A - 2)) (-1);
            mat := A; reflectors := ∅;
            threads := spawn band (A_n A) ps thread_size
                         <$> seqZ 0 thread_size;
            steps_done := [] |}.
Proof.
  pose proof (hb2td_init_inv _ _ _ _ init) as Hn. split; [done|].
  destruct (hb2td_init_Ok A band thread_size threads_pos Hn)
    as (ps' & Eps & _ & E').
  assert (ps' = ps) as -> by congruence.
  rewrite E' in init. by injection init as <-.
Qed.

Lemma init_threads t th :
  threads σ0 !! t = Some th →
  th = spawn band (A_n A) ps thread_size (Z.of_nat t)
  ∧ Z.of_nat t < thread_size.
Proof.
  destruct init_state as [_ ->]. proj_red. apply lookup_spawn.
Qed.

Lemma reachable_Kept σ : rtc (sys_step band) σ0 σ → Kept σ0 σ.
Proof.
  revert σ. apply rtc_ind_r; [apply Kept_init|].
  intros σ σ' Hr [t Hstep] IH.
  destruct (reachable_Good A band thread_size σ0 σ threads_pos init Hr)
    as [HI _].
  by eapply exec_thread_Kept.
Qed.

(** A thread of a reachable state is left with tasks in the order of their
    turns, and ends as [hb2td_run] does. *)
Lemma reachable_sorted σ t th :
  rtc (sys_step band) σ0 σ → threads σ !! t = Some th →
  StronglySorted (earlier (A_n A) ps) (th_tasks th)
  ∧ th_exit th = ending (hb2td_run band (A_n A) ps (Z.of_nat t) thread_size).
Proof.
  intros Hr Ht.
  destruct (ceildiv_3_fits _ _ threads_pos pass_size_eq) as [Hps Hfit].
  pose proof (reachable_Kept σ Hr) as HK.
  pose proof (lookup_lt_Some _ _ _ Ht) as Hlt.
  rewrite (kept_len _ _ HK) in Hlt.
  destruct (lookup_lt_is_Some_2 _ _ Hlt) as [th0 Ht0].
  destruct (init_threads _ _ Ht0) as [-> _].
  destruct (kept_tasks _ _ HK _ _ _ Ht0 Ht) as [[pre Hsuf] Hex].
  split; [|done]. unfold spawn in Hsuf. simpl in Hsuf.
  eapply StronglySorted_app_1_r. rewrite <- Hsuf.
  apply run_sorted; [done..|lia].
Qed.

(** A step that is due and is no longer among the tasks of the threads is
    completed. *)
Lemma due_step_completed σ k s ns :
  rtc (sys_step band) σ0 σ →
  0 ≤ k < A_n A - 2 → nsteps band (A_n A) k = Some ns → 0 ≤ s < ns →
  (∃ t th tk, threads σ !! t = Some th ∧ tk ∈ th_tasks th ∧ key tk = (k, s))
  ∨ ∃ v, load_at (progress σ) k = Some v ∧ s ≤ v.
Proof.
  intros Hr Hk Ens Hs.
  destruct (proj2 (team_steps_of_sweep A band thread_size σ0 k ns s
                     threads_pos init Hk Ens) Hs)
    as (t & th0 & tk & Ht0 & Hin & Hkey).
  injection Hkey as Hsw Hst.
  destruct (kept_done _ _ (reachable_Kept σ Hr) _ _ _ Ht0 Hin)
    as [(th & Ht & Hin')|(v & Hv & Hle)].
  - left. exists t, th, tk. unfold key. by rewrite Hsw, Hst.
  - right. exists v. rewrite <- Hsw, <- Hst. done.
Qed.

(** The team never comes to a halt: as long as a thread has a task left,
    the thread whose next task has the earliest turn can act. *)
Lemma team_moves σ :
  rtc (sys_step band) σ0 σ →
  (∃ t th, threads σ !! t = Some th ∧ th_tasks th ≠ []) →
  ∃ t σ', exec_thread band t σ = Advance σ'.
Proof.
  intros Hr (t1 & th1 & Ht1 & Hne1).
  destruct (reachable_Good A band thread_size σ0 σ threads_pos init Hr)
    as [HI HH].
  destruct (ceildiv_3_fits _ _ threads_pos pass_size_eq) as [Hps Hfit].
  set (cands := th ← threads σ; th_tasks th).
  destruct (list_min (λ tk, turn (A_n A) ps (key tk)) cands)
    as (tk & Hin & Hmin).
  { destruct (th_tasks th1) as [|tk1 r1] eqn:E1; [done|].
    intros Hnil.
    assert (tk1 ∈ cands) as Hc.
    { apply list_elem_of_bind. exists th1. rewrite E1.
      split; [left|]. by eapply list_elem_of_lookup_2. }
    rewrite Hnil in Hc. by apply elem_of_nil in Hc. }
  apply list_elem_of_bind in Hin as (th & Hin & Hth).
  apply list_elem_of_lookup in Hth as [t Ht].
  assert (∀ t' th' tk', threads σ !! t' = Some th' → tk' ∈ th_tasks th' →
            turn (A_n A) ps (key tk) ≤ turn (A_n A) ps (key tk')) as Hfirst.
  { intros t' th' tk' Ht' Hin'. apply Hmin.
    apply list_elem_of_bind. exists th'.
    split; [done|]. by eapply list_elem_of_lookup_2. }
  clear Hmin cands.
  (* the task is the next one of its thread *)
  destruct (reachable_sorted σ t th Hr Ht) as [Hsorted _].
  destruct (th_tasks th) as [|hd rest] eqn:Htk;
    [by apply elem_of_nil in Hin|].
  assert (tk = hd) as ->.
  { apply elem_of_cons in Hin as [->|Hin]; [done|]. exfalso.
    apply StronglySorted_inv in Hsorted as [_ Hall].
    rewrite Forall_forall in Hall. specialize (Hall tk Hin).
    unfold earlier in Hall.
    specialize (Hfirst t th hd Ht ltac:(rewrite Htk; left)). lia. }
  clear Hin.
  assert (hd ∈ th_tasks th) as Hel by (rewrite Htk; left).
  destruct (inv_pending _ _ _ HI _ _ _ Ht Hel)
    as ((Hk & Hs & Enl & ns & Ens & Hlt) & _).
  destruct (issued_step_bound band (A_n A) (t_sweep hd) (t_step hd) ns)
    as [Hband _]; [lia|lia|done|done|done|].
  exists t. unfold exec_thread. rewrite Ht, Htk.
  destruct (th_phase th) eqn:Hph.
  - destruct (0 <? t_sweep hd) eqn:Hpos; [|by eexists].
    apply Z.ltb_lt in Hpos.
    pose proof (nsteps_mono band (A_n A) (t_sweep hd - 1) (t_sweep hd)
                  (t_nsteps_last hd) ns Hband ltac:(lia) Enl Ens) as Hnl.
    set (d := Z.min (t_step hd + 2) (t_nsteps_last hd - 1)).
    destruct (due_step_completed σ (t_sweep hd - 1) d (t_nsteps_last hd))
      as [(t' & th' & tk' & Ht' & Hin' & Hkey)|(v & Hv & Hle)];
      [done|lia|done|lia| |].
    + exfalso. specialize (Hfirst t' th' tk' Ht' Hin'). rewrite Hkey in Hfirst.
      pose proof (turn_prev (A_n A) ps Hps (t_sweep hd) (t_step hd) d
                    ltac:(lia) ltac:(lia) Hs) as Hturn.
      unfold key in Hfirst. lia.
    + rewrite Hv. destruct (v <? _) eqn:E; [|by eexists].
      apply Z.ltb_lt in E. lia.
  - destruct (0 <? t_step hd) eqn:Hpos; [|by eexists].
    apply Z.ltb_lt in Hpos.
    destruct (due_step_completed σ (t_sweep hd) (t_step hd - 1) ns)
      as [(t' & th' & tk' & Ht' & Hin' & Hkey)|(v & Hv & Hle)];
      [done|lia|done|lia| |].
    + exfalso. specialize (Hfirst t' th' tk' Ht' Hin'). rewrite Hkey in Hfirst.
      pose proof (turn_self (A_n A) ps (t_sweep hd) (t_step hd)) as Hturn.
      unfold key in Hfirst. lia.
    + rewrite Hv. destruct (v <? _) eqn:E; [|by eexists].
      apply Z.ltb_lt in E. lia.
  - destruct (hb2td_step _ _ _ _ _) as [A' R']. by eexists.
  - unfold store_at.
    destruct (0 <=? t_sweep hd) eqn:E1; [|apply Z.leb_gt in E1; lia].
    destruct (t_sweep hd <? _) eqn:E2; [by eexists|].
    apply Z.ltb_ge in E2. rewrite (inv_len _ _ _ HI) in E2. lia.
Qed.

(** From every state the team can reach, the reduction can be brought to
    its end, in as many actions as are left. *)
Lemma team_completes σ :
  rtc (sys_step band) σ0 σ →
  ∃ σ', relations.nsteps (sys_step band) (actions_left σ) σ σ'
        ∧ ∀ t th, threads σ' !! t = Some th → th_tasks th = [].
Proof.
  remember (actions_left σ) as m eqn:Em. revert σ Em.
  induction m as [|m IH]; intros σ Em Hr.
  - exists σ. split; [constructor|]. by apply actions_left_0.
  - destruct (team_moves σ Hr) as (t & σ1 & Hstep);
      [apply actions_left_pos; lia|].
    pose proof (exec_thread_actions _ _ _ _ Hstep) as Hact.
    destruct (IH σ1) as (σ' & Hrun & Hend); [lia| |].
    { eapply rtc_r; [done|by exists t]. }
    exists σ'. split; [|done]. econstructor; [by exists t|done].
Qed.

End Moves.

End Live.
End LiveFacts.

(* --------------------------------------------------------------------- *)
(** ** The thread team: the steps run so far                              *)
(* --------------------------------------------------------------------- *)

Module HistoryFacts.
Import Hb2td RunFacts StepFacts TeamFacts OrderFacts LiveFacts StoreFacts.

Section History.
Context `{Kernels}.

Lemma run_steps_snoc (hist : list (Z * Z)) :
  ∀ (A : HermitianMatrix) band (R : Reflectors) k s,
    run_steps A band (hist ++ [(k, s)]) R
    = hb2td_step (run_steps A band hist R).1 band k s
        (run_steps A band hist R).2.
Proof.
  induction hist as [|[k0 s0] hist IH]; intros A band R k s; simpl.
  - by destruct (hb2td_step A band k s R).
  - destruct (hb2td_step A band k0 s0 R) as [A' R']. apply IH.
Qed.

Lemma snoc_split {X} (l1 l2 l : list X) x y :
  l1 ++ x :: l2 = l ++ [y] →
  (l2 = [] ∧ l1 = l ∧ x = y) ∨ ∃ l2', l2 = l2' ++ [y] ∧ l1 ++ x :: l2' = l.
Proof.
  destruct l2 as [|z l2 _] using rev_ind.
  - intros E. apply app_inj_tail in E as [-> ->]. by left.
  - intros E. right. exists l2.
    rewrite app_comm_cons, app_assoc in E.
    apply app_inj_tail in E as [<- ->]. done.
Qed.

Variables (A : HermitianMatrix) (band thread_size ps : Z) (σ0 : sys).
Hypothesis threads_pos : 1 ≤ thread_size.
Hypothesis pass_size_eq : ceildiv thread_size 3 = Some ps.
Hypothesis init : hb2td_init A band thread_size = Ok σ0.

(** What the list of the calls of [hb2td_step] made so far tells. *)
Record Told (σ : sys) : Prop := {
  told_nodup : NoDup (steps_done σ);
  told_issued :
    ∀ k s, (k, s) ∈ steps_done σ →
           0 ≤ k < A_n A - 2
           ∧ ∃ ns, nsteps band (A_n A) k = Some ns ∧ 0 ≤ s < ns;
  told_left :
    ∀ t th tk, threads σ !! t = Some th → tk ∈ th_tasks th →
               key tk ∈ steps_done σ →
               th_phase th = StoreDone ∧ ∃ rest, th_tasks th = tk :: rest;
  told_counter :
    ∀ k v, load_at (progress σ) k = Some v →
           v = -1 ∨ (k, v) ∈ steps_done σ;
  told_run :
    (mat σ, reflectors σ) = run_steps A band (steps_done σ) ∅;
  told_order :
    ∀ l1 k s l2, steps_done σ = l1 ++ (k, s) :: l2 →
      (∀ s', 0 ≤ s' < s → (k, s') ∈ l1)
      ∧ (0 < k → ∀ nl, nsteps band (A_n A) (k - 1) = Some nl →
                 ∀ s', 0 ≤ s' ≤ Z.min (s + 2) (nl - 1) → (k - 1, s') ∈ l1);
  told_store :
    ∀ kk : Z * Z,
      is_Some (reflectors σ !! kk)
      ↔ ∃ k s, (k, s) ∈ steps_done σ ∧ produced_key band k s = Some kk
}.

Lemma Told_init : Told σ0.
Proof.
  destruct (init_state A band thread_size ps σ0 threads_pos pass_size_eq init)
    as [Hn ->].
  split; proj_red.
  - constructor.
  - intros k s Hin. by apply elem_of_nil in Hin.
  - intros t th tk _ _ Hin. by apply elem_of_nil in Hin.
  - intros k v Hv. left. unfold load_at in Hv.
    destruct (0 <=? k); [|done].
    apply lookup_replicate in Hv as [-> _]. done.
  - done.
  - intros [|x l1] k s l2 E; discriminate.
  - intros kk. rewrite lookup_empty. split.
    + by intros [? ?].
    + intros (k & s & Hin & _). by apply elem_of_nil in Hin.
Qed.

Lemma Told_phase (σ σ' : sys) t th th' :
  Told σ →
  threads σ !! t = Some th → th_phase th ≠ StoreDone →
  threads σ' = <[t := th']> (threads σ) → th_tasks th' = th_tasks th →
  th_phase th' ≠ StoreDone →
  progress σ' = progress σ → mat σ' = mat σ →
  reflectors σ' = reflectors σ → steps_done σ' = steps_done σ →
  Told σ'.
Proof.
  intros [Hnd Hiss Hleft Hcnt Hrun Hord Hsto] Ht Hph E' Etk Hph' Ep Em Er Es.
  split; rewrite ?Ep, ?Em, ?Er, ?Es; try done.
  intros t' th1 tk Ht1 Hin Hdone. rewrite E' in Ht1.
  apply lookup_set_thread in Ht1 as [[-> ->]|[Hne Ht1]].
  - rewrite Etk in Hin. by destruct (Hleft _ _ _ Ht Hin Hdone).
  - by eapply Hleft.
Qed.

Lemma exec_thread_Told t (σ σ' : sys) :
  rtc (sys_step band) σ0 σ → Told σ →
  exec_thread band t σ = Advance σ' → Told σ'.
Proof.
  intros Hr HT Hex.
  destruct (reachable_Good A band thread_size σ0 σ threads_pos init Hr)
    as [HI HH].
  destruct (exec_thread_Advance band t σ σ' Hex)
    as (th & tk & rest & Ht & Htk & Hcase).
  assert (tk ∈ th_tasks th) as Hel by (rewrite Htk; left).
  destruct (inv_pending _ _ _ HI _ _ _ Ht Hel)
    as ((Hk & Hs & Enl & ns & Ens & Hlt) & _).
  pose proof (inv_nodup _ _ _ HI _ _ Ht) as Hnd_th.
  rewrite Htk, fmap_cons in Hnd_th. apply NoDup_cons in Hnd_th as [Hhd _].
  destruct (th_phase th) eqn:Hph.
  1-2: (eapply (Told_phase σ σ' t th); [done|done|by rewrite Hph| | | |..];
        subst σ'; proj_red; try done; by rewrite ?Hph).
  - (* the call of hb2td_step *)
    destruct HT as [Hnd Hiss Hleft Hcnt Hrun Hord Hsto].
    assert (key tk ∉ steps_done σ) as Hnew.
    { intros Hin. destruct (Hleft _ _ _ Ht Hel Hin) as [? _]. congruence. }
    destruct (step_below_count_in_range (A_n A) band (t_sweep tk) (t_step tk)
                ns) as (ij & Hc & Hin); [done..|].
    pose proof (inv_flight _ _ _ HI _ _ _ _ Ht Htk) as Hfl.
    rewrite Hph in Hfl. destruct Hfl as [Hprev (v & Hv & Hge)].
    subst σ'. split; proj_red.
    + apply NoDup_app. split; [done|]. split; [|apply NoDup_singleton].
      intros x Hx Hx'. apply list_elem_of_singleton in Hx' as ->. done.
    + intros k s Hks. apply elem_of_app in Hks as [Hks|Hks]; [by apply Hiss|].
      apply list_elem_of_singleton in Hks. injection Hks as -> ->.
      split; [done|]. exists ns. split; [done|lia].
    + intros t' th1 tk1 Ht1 Hin1 Hdone.
      apply lookup_set_thread in Ht1 as [[-> ->]|[Hne Ht1]]; proj_red.
      * split; [done|]. exists rest.
        apply elem_of_app in Hdone as [Hdone|Hdone].
        { rewrite <- Htk in Hin1.
          destruct (Hleft _ _ _ Ht Hin1 Hdone) as [? _]. congruence. }
        apply list_elem_of_singleton in Hdone.
        apply elem_of_cons in Hin1 as [->|Hin1]; [done|].
        exfalso. apply Hhd. rewrite <- Hdone.
        apply list_elem_of_fmap. by exists tk1.
      * apply elem_of_app in Hdone as [Hdone|Hdone]; [by eapply Hleft|].
        apply list_elem_of_singleton in Hdone.
        by destruct (Hne (inv_disj _ _ _ HI _ _ _ _ _ _ Ht1 Ht Hin1 Hel Hdone)).
    + intros k v' Hv'. destruct (Hcnt k v' Hv') as [->|Hin']; [by left|].
      right. apply elem_of_app. by left.
    + destruct tk as [k s nl]. unfold key. simpl in *.
      rewrite run_steps_snoc, <- Hrun. simpl.
      by destruct (hb2td_step (mat σ) band k s (reflectors σ)).
    + intros l1 k s l2 E. symmetry in E. apply snoc_split in E as [(-> & -> & E)|(l2' & -> & E)];
        [|by eapply Hord].
      injection E as -> ->. split.
      * intros s' Hs'. eapply (hist_done _ _ _ HH); [done|lia].
      * intros Hpos nl Enl' s' Hs'.
        destruct (Hprev Hpos) as (v1 & Hv1 & Hge1).
        assert (nl = t_nsteps_last tk) as -> by congruence.
        eapply (hist_done _ _ _ HH); [done|lia].
    + intros kk. split.
      * intros Hsome.
        destruct (decide (produced_key band (t_sweep tk) (t_step tk) = Some kk))
          as [Hp|Hp].
        { exists (t_sweep tk), (t_step tk). split; [|done].
          apply elem_of_app. right. by left. }
        rewrite (hb2td_step_lookup _ band _ _ _ ij kk) in Hsome;
          [|done|by rewrite (inv_n _ _ _ HI)|done].
        destruct (reflectors σ !! kk) as [v0|] eqn:E0.
        { destruct (proj1 (Hsto kk)) as (k & s & Hks & Hpk);
            [by rewrite E0|].
          exists k, s. split; [|done]. apply elem_of_app. by left. }
        case_decide as Hcons; [|by destruct Hsome].
        exfalso.
        destruct (decide (1 ≤ t_step tk)) as [H1|H0].
        -- destruct (Pipeline.pipeline_consumed_present A band thread_size
                       σ0 σ t th tk rest threads_pos init Hr Ht Htk Hph H1)
             as (_ & _ & ij' & kk' & _ & _ & Hcons' & _ & Hpres).
           assert (kk' = kk) as -> by congruence.
           rewrite E0 in Hpres. by destruct Hpres.
        -- assert (t_step tk = 0) as E0' by lia.
           rewrite E0' in Hcons.
           by destruct (keys_of_task_0 band (t_sweep tk) 0 eq_refl)
             as (_ & Hnone & _); rewrite Hnone in Hcons.
      * intros (k & s & Hks & Hpk).
        apply elem_of_app in Hks as [Hks|Hks].
        -- apply hb2td_step_mono. apply Hsto. by exists k, s.
        -- apply list_elem_of_singleton in Hks. injection Hks as -> ->.
           eapply hb2td_step_produces; [done| |done].
           by rewrite (inv_n _ _ _ HI).
  - (* the store *)
    destruct Hcase as [Hrange ->].
    destruct HT as [Hnd Hiss Hleft Hcnt Hrun Hord Hsto].
    split; proj_red; try done.
    + intros t' th1 tk1 Ht1 Hin1 Hdone.
      apply lookup_set_thread in Ht1 as [[-> ->]|[Hne Ht1]]; proj_red.
      * exfalso.
        destruct (Hleft t th tk1 Ht ltac:(rewrite Htk; by right) Hdone)
          as [_ [rest' E]].
        rewrite Htk in E. injection E as -> ->.
        apply Hhd. apply list_elem_of_fmap. by exists tk1.
      * by eapply Hleft.
    + intros k v Hv. rewrite load_at_store in Hv by done.
      case_decide as Hkk; [|by apply Hcnt].
      injection Hv as <-. subst k. right.
      by apply (hist_store _ _ _ HH t th tk rest).
Qed.

Lemma reachable_Told σ : rtc (sys_step band) σ0 σ → Told σ.
Proof.
  revert σ. apply rtc_ind_r; [apply Told_init|].
  intros σ σ' Hr [t Hstep] IH. by eapply exec_thread_Told.
Qed.

End History.
End HistoryFacts.

(* --------------------------------------------------------------------- *)
(** ** The thread team: how far apart the sweeps stay                     *)
(* --------------------------------------------------------------------- *)

Module ApartFacts.
Import Hb2td RunFacts StepFacts TeamFacts OrderFacts LiveFacts.

(** From one sweep to the one before, the step count grows by 2 at most. *)
Lemma nsteps_step band n k a b :
  2 ≤ band → k < n - 1 →
  nsteps band n (k - 1) = Some a → nsteps band n k = Some b → a ≤ b + 2.
Proof.
  intros Hb Hk. unfold nsteps, ceildiv.
  destruct (band - 1 =? 0) eqn:E; [done|]. simpl. intros [= <-] [= <-].
  replace (n - 1 - (k - 1) + (band - 1) - 1)
    with ((n - 1 - k) + 1 * (band - 1)) by lia.
  rewrite Z.quot_add by nia.
  assert ((n - 1 - k) ÷ (band - 1) ≤ (n - 1 - k + (band - 1) - 1) ÷ (band - 1))
    by (apply Z.quot_le_mono; lia).
  lia.
Qed.

Lemma nsteps_back band n (j : nat) :
  ∀ k a b,
    2 ≤ band → k < n - 1 →
    nsteps band n (k - Z.of_nat j) = Some a → nsteps band n k = Some b →
    a ≤ b + 2 * Z.of_nat j.
Proof.
  induction j as [|j IH]; intros k a b Hb Hk Ea Eb.
  - rewrite Z.sub_0_r in Ea. assert (a = b) by congruence. lia.
  - destruct (nsteps_Some band n (k - Z.of_nat j) ltac:(lia)) as [c Ec].
    pose proof (IH k c b Hb Hk Ec Eb).
    replace (k - Z.of_nat (S j)) with (k - Z.of_nat j - 1) in Ea by lia.
    pose proof (nsteps_step band n (k - Z.of_nat j) a c Hb ltac:(lia) Ea Ec).
    lia.
Qed.

Section Apart.
Context `{Kernels}.
Variables (A : HermitianMatrix) (band thread_size : Z) (σ0 : sys).
Hypothesis threads_pos : 1 ≤ thread_size.
Hypothesis init : hb2td_init A band thread_size = Ok σ0.

(** The counter of a sweep that has started stays behind the counter of the
    sweep before by two steps at least, until that sweep is finished. *)
Definition Staggered (σ : sys) : Prop :=
  ∀ k v nl, 0 < k → load_at (progress σ) k = Some v → 0 ≤ v →
            nsteps band (A_n A) (k - 1) = Some nl →
            ∃ v', load_at (progress σ) (k - 1) = Some v'
                  ∧ Z.min (v + 2) (nl - 1) ≤ v'.

Lemma Staggered_init : Staggered σ0.
Proof.
  pose proof (hb2td_init_inv _ _ _ _ init) as Hn.
  destruct (hb2td_init_Ok A band thread_size threads_pos Hn)
    as (ps & _ & _ & E').
  rewrite E' in init. injection init as <-.
  intros k v nl Hk Hv Hv0. proj_red. unfold load_at in Hv.
  destruct (0 <=? k); [|done].
  apply lookup_replicate in Hv as [-> _]. lia.
Qed.

Lemma exec_thread_Staggered t (σ σ' : sys) :
  Inv (A_n A) band σ → Staggered σ →
  exec_thread band t σ = Advance σ' → Staggered σ'.
Proof.
  intros HI HS Hex.
  destruct (exec_thread_Advance band t σ σ' Hex)
    as (th & tk & rest & Ht & Htk & Hcase).
  destruct (th_phase th) eqn:Hph.
  1-3: (subst σ'; proj_red; exact HS).
  destruct Hcase as [Hrange ->].
  destruct (Inv_store _ _ σ t th tk rest HI Ht Htk Hph) as [Hold _].
  pose proof (inv_flight _ _ _ HI _ _ _ _ Ht Htk) as Hfl.
  rewrite Hph in Hfl. destruct Hfl as [Hprev _].
  assert (tk ∈ th_tasks th) as Hel by (rewrite Htk; left).
  destruct (inv_pending _ _ _ HI _ _ _ Ht Hel) as ((_ & _ & Enl & _) & _).
  intros k v nl Hk Hv Hv0 Hnl. proj_red.
  rewrite load_at_store in Hv by done. rewrite load_at_store by done.
  case_decide as E1.
  - injection Hv as <-. subst k.
    case_decide as E2; [lia|].
    destruct (Hprev Hk) as (v' & Hv' & Hle). exists v'. split; [done|].
    assert (nl = t_nsteps_last tk) as -> by congruence. done.
  - destruct (HS k v nl Hk Hv Hv0 Hnl) as (v' & Hv' & Hle).
    case_decide as E2.
    + exists (t_step tk). split; [done|].
      rewrite E2 in Hv'. assert (v' = t_step tk - 1) by congruence. lia.
    + by exists v'.
Qed.

Lemma reachable_Staggered σ : rtc (sys_step band) σ0 σ → Staggered σ.
Proof.
  revert σ. apply rtc_ind_r; [apply Staggered_init|].
  intros σ σ' Hr [t Hstep] IH.
  destruct (reachable_Good A band thread_size σ0 σ threads_pos init Hr)
    as [HI _].
  by eapply exec_thread_Staggered.
Qed.

(** Further back, the counters are further ahead. *)
Lemma counters_ahead σ (j : nat) :
  rtc (sys_step band) σ0 σ → 2 ≤ band →
  ∀ k v, Z.of_nat j ≤ k → k < A_n A - 2 →
         load_at (progress σ) k = Some v → 0 ≤ v →
         ∃ v' ns, nsteps band (A_n A) (k - Z.of_nat j) = Some ns
                  ∧ load_at (progress σ) (k - Z.of_nat j) = Some v'
                  ∧ Z.min (v + 2 * Z.of_nat j) (ns - 1) ≤ v'.
Proof.
  intros Hr Hb. pose proof (reachable_Staggered σ Hr) as HS.
  induction j as [|j IH]; intros k v Hj Hk Hv Hv0.
  - destruct (nsteps_Some band (A_n A) k ltac:(lia)) as [ns Ens].
    exists v, ns. rewrite Z.sub_0_r. split; [done|]. split; [done|]. lia.
  - destruct (IH k v ltac:(lia) Hk Hv Hv0) as (v1 & ns1 & Ens1 & Hv1 & Hle1).
    pose proof (nsteps_bound band (A_n A) (k - Z.of_nat j) ns1 Hb ltac:(lia)
                  Ens1) as Hns1.
    destruct (nsteps_Some band (A_n A) (k - Z.of_nat j - 1) ltac:(lia))
      as [ns2 Ens2].
    destruct (HS (k - Z.of_nat j) v1 ns2 ltac:(lia) Hv1 ltac:(lia) Ens2)
      as (v2 & Hv2 & Hle2).
    pose proof (nsteps_step band (A_n A) (k - Z.of_nat j) ns2 ns1 Hb
                  ltac:(lia) Ens2 Ens1).
    exists v2, ns2.
    replace (k - Z.of_nat (S j)) with (k - Z.of_nat j - 1) by lia.
    split; [done|]. split; [done|]. lia.
Qed.

(** The phases in which a thread may be inside [hb2td_step]. *)
Definition in_step (th : thread) : Prop :=
  th_phase th = RunStep ∨ th_phase th = StoreDone.

Lemma steps_apart σ ta tb tha thb tka tkb ra rb :
  rtc (sys_step band) σ0 σ →
  threads σ !! ta = Some tha → threads σ !! tb = Some thb →
  th_tasks tha = tka :: ra → th_tasks thb = tkb :: rb →
  in_step tha → in_step thb →
  (t_sweep tkb = t_sweep tka → ta = tb)
  ∧ (t_sweep tkb < t_sweep tka →
     t_step tka + 2 * (t_sweep tka - t_sweep tkb) + 1 ≤ t_step tkb).
Proof.
  intros Hr Hta Htb Htka Htkb Hina Hinb.
  destruct (reachable_Good A band thread_size σ0 σ threads_pos init Hr)
    as [HI _].
  assert (tka ∈ th_tasks tha) as Hela by (rewrite Htka; left).
  assert (tkb ∈ th_tasks thb) as Helb by (rewrite Htkb; left).
  destruct (inv_pending _ _ _ HI _ _ _ Hta Hela)
    as ((Hka & Hsa & Enla & nsa & Ensa & Hlta) & va & Hva & Hpa).
  destruct (inv_pending _ _ _ HI _ _ _ Htb Helb)
    as ((Hkb & Hsb & Enlb & nsb & Ensb & Hltb) & vb & Hvb & Hpb).
  destruct (issued_step_bound band (A_n A) (t_sweep tka) (t_step tka) nsa
              ltac:(lia) ltac:(lia) Hsa Ensa Hlta) as [Hband _].
  assert (waited_prev (progress σ) tka ∧ waited_self (progress σ) tka)
    as [Hprev (wa & Hwa & Hgea)].
  { pose proof (inv_flight _ _ _ HI _ _ _ _ Hta Htka) as Hfl.
    by destruct Hina as [E|E]; rewrite E in Hfl. }
  assert (waited_self (progress σ) tkb) as (wb & Hwb & Hgeb).
  { pose proof (inv_flight _ _ _ HI _ _ _ _ Htb Htkb) as Hfl.
    by destruct Hinb as [E|E]; rewrite E in Hfl; destruct Hfl. }
  split.
  - intros Ek.
    apply (inv_disj _ _ _ HI ta tb tha thb tka tkb Hta Htb Hela Helb).
    unfold key. rewrite Ek in *. f_equal.
    assert (wa = va) by congruence. assert (wb = vb) by congruence.
    assert (va = vb) by congruence. lia.
  - intros Hlt.
    destruct (Hprev ltac:(lia)) as (v1 & Hv1 & Hle1).
    pose proof (nsteps_mono band (A_n A) (t_sweep tka - 1) (t_sweep tka)
                  (t_nsteps_last tka) nsa Hband ltac:(lia) Enla Ensa) as Hnl.
    set (j := Z.to_nat (t_sweep tka - 1 - t_sweep tkb)).
    destruct (counters_ahead σ j Hr Hband (t_sweep tka - 1) v1
                ltac:(lia) ltac:(lia) Hv1 ltac:(lia))
      as (v' & ns' & Ens' & Hv' & Hle').
    replace (t_sweep tka - 1 - Z.of_nat j) with (t_sweep tkb) in * by lia.
    assert (ns' = nsb) as -> by congruence.
    assert (v' = vb) as -> by congruence.
    pose proof (nsteps_back band (A_n A) j (t_sweep tka - 1) nsb
                  (t_nsteps_last tka) Hband ltac:(lia)) as Hback.
    replace (t_sweep tka - 1 - Z.of_nat j) with (t_sweep tkb) in Hback by lia.
    specialize (Hback Ensb Enla). lia.
Qed.

End Apart.
End ApartFacts.

(* --------------------------------------------------------------------- *)
(** ** hb2td: further statements about the reduction                      *)
(* --------------------------------------------------------------------- *)

Module Reduction.
Import Hb2td RunFacts StepFacts TeamFacts OrderFacts LiveFacts StoreFacts.
Import HistoryFacts ApartFacts Pipeline.

Section Ends.
Context `{Kernels}.
Variables (A : HermitianMatrix) (band thread_size : Z) (σ0 : sys).
Hypothesis threads_pos : 1 ≤ thread_size.
Hypothesis init : hb2td_init A band thread_size = Ok σ0.

Lemma pass_size_ex : ∃ ps, ceildiv thread_size 3 = Some ps.
Proof. destruct (ceildiv_3 thread_size threads_pos) as (ps & E & _); eauto. Qed.

(** Unless the band is 1, the call has returned as soon as no thread has a
    task left. *)
Lemma reachable_returned σ :
  band ≠ 1 → rtc (sys_step band) σ0 σ →
  (returned σ ↔ ∀ t th, threads σ !! t = Some th → th_tasks th = []).
Proof.
  intros Hb Hr. destruct pass_size_ex as [ps Eps].
  destruct (ceildiv_3_fits _ _ threads_pos Eps) as [Hps _].
  split.
  - intros Hret t th Ht. by destruct (Hret t th Ht).
  - intros Hall t th Ht. split; [by eapply Hall|].
    destruct (reachable_sorted A band thread_size ps σ0 threads_pos Eps init
                σ t th Hr Ht) as [_ ->].
    apply run_ending; [done..|lia].
Qed.

End Ends.

(** A run of two threads on a matrix of order 6 with band 3: the initial
    state, the state after ten rounds in which the two threads act in turn,
    and the state after forty such rounds, when both threads have returned. *)
Definition in_turn (rounds : nat) : list nat :=
  mjoin (replicate rounds [0%nat; 1%nat]).

Definition team_init : sys (H := unit_kernels) :=
  Eval vm_compute in
    match hb2td_init (matrix_of_order 6) 3 2 with
    | Ok σ => σ
    | Err _ =>
        {| progress := []; mat := matrix_of_order 6; reflectors := ∅;
           threads := []; steps_done := [] |}
    end.

Definition team_mid : sys (H := unit_kernels) :=
  Eval vm_compute in run_schedule 3 (in_turn 10) team_init.

Definition team_end : sys (H := unit_kernels) :=
  Eval vm_compute in run_schedule 3 (in_turn 40) team_init.

Definition team_both : sys (H := unit_kernels) :=
  Eval vm_compute in
    run_schedule 3 (in_turn 10 ++ [1; 1; 1; 0]%nat) team_init.

Lemma team_init_eq : hb2td_init (matrix_of_order 6) 3 2 = Ok team_init.
Proof. vm_compute. reflexivity. Qed.

Lemma team_mid_reachable : rtc (sys_step 3) team_init team_mid.
Proof.
  change team_mid with (run_schedule 3 (in_turn 10) team_init).
  apply run_schedule_rtc.
Qed.

Lemma team_end_reachable : rtc (sys_step 3) team_init team_end.
Proof.
  change team_end with (run_schedule 3 (in_turn 40) team_init).
  apply run_schedule_rtc.
Qed.

Lemma team_both_reachable : rtc (sys_step 3) team_init team_both.
Proof.
  change team_both
    with (run_schedule 3 (in_turn 10 ++ [1; 1; 1; 0]%nat) team_init).
  apply run_schedule_rtc.
Qed.


(** X1.  What a call of [hb2td_step] with coordinates in range does to
    the reflector store: the entry it produces ([v] of task 0, [v2] of
    task 1) is there afterwards; every other entry that was there is left
    as it was, none is removed; and the only entry that can appear besides
    is the one it consumes, created empty by [operator[]] when it was
    missing.  The order of the matrix is unchanged. *)
Theorem hb2td_step_store_effect `{Kernels} (A : HermitianMatrix)
    (band sweep step : Z) (R : Reflectors) (ij : Z * Z) :
  coords band sweep step = Some ij → in_range (A_n A) ij = true →
  A_n (hb2td_step A band sweep step R).1 = A_n A
  ∧ (∀ k : Z * Z, produced_key band sweep step = Some k →
                  is_Some ((hb2td_step A band sweep step R).2 !! k))
  ∧ (∀ k : Z * Z, produced_key band sweep step ≠ Some k →
       (hb2td_step A band sweep step R).2 !! k
       = match R !! k with
         | Some v => Some v
         | None =>
             if decide (consumed_key band sweep step = Some k)
             then Some [] else None
         end).
Proof.
  intros Hc Hin. split; [apply hb2td_step_n|]. split.
  - intros k Hk. by eapply hb2td_step_produces.
  - intros k Hk. by eapply hb2td_step_lookup.
Qed.

Lemma hb2td_step_store_effect_witness :
  (coords 3 1 4 = Some (6, 6) ∧ in_range 9 (6, 6) = true)
  ∧ consumed_key 3 1 4 = Some (6, 4)
  ∧ (hb2td_step (matrix_of_order 9) 3 1 4 ∅).2 !! (6, 4) = Some []
  ∧ (hb2td_step (matrix_of_order 9) 3 1 4 ∅).2 !! (6, 6) = None.
Proof.
  split; [split; reflexivity|]. split; [reflexivity|].
  destruct (hb2td_step_store_effect (matrix_of_order 9) 3 1 4 ∅ (6, 6))
    as (_ & _ & Hrest); [reflexivity|reflexivity|].
  split.
  - exact (Hrest (6, 4) ltac:(discriminate)).
  - exact (Hrest (6, 6) ltac:(discriminate)).
Defined.

Lemma rem_2_cases x :
  (Z.rem x 2 = 0 ∧ Z.even x = true)
  ∨ (Z.rem x 2 = 1 ∧ Z.odd x = true ∧ 0 < x)
  ∨ (Z.rem x 2 = -1 ∧ Z.odd x = true ∧ x < 0).
Proof.
  pose proof (Z.quot_rem' x 2) as Hqr.
  assert (Z.even x = Z.even (Z.rem x 2)) as He.
  { rewrite Hqr at 1. by rewrite Z.add_comm, Z.even_add_mul_2. }
  assert (Z.odd x = Z.odd (Z.rem x 2)) as Ho.
  { rewrite Hqr at 1. by rewrite Z.add_comm, Z.odd_add_mul_2. }
  destruct (decide (0 ≤ x)) as [Hx|Hx].
  - pose proof (Z.rem_bound_pos x 2 Hx ltac:(lia)) as Hb.
    assert (Z.rem x 2 = 0 ∨ Z.rem x 2 = 1) as [E|E] by lia;
      rewrite E in *; [left|right; left]; repeat split; try done; lia.
  - pose proof (Z.rem_bound_abs x 2 ltac:(lia)) as Hb.
    pose proof (Z.rem_nonpos x 2 ltac:(lia) ltac:(lia)) as Hb'.
    assert (Z.rem x 2 = 0 ∨ Z.rem x 2 = -1) as [E|E] by lia;
      rewrite E in *; [left|right; right]; repeat split; try done; lia.
Qed.

Lemma task_of_every_step step :
  task_of step
  = if step =? 0 then 0
    else if Z.odd step then 1 else if 0 <? step then 2 else 0.
Proof.
  assert (Z.odd (step + 1) = Z.even step) as Hodd
    by (rewrite Z.add_1_r, Z.odd_succ; done).
  assert (Z.even (step + 1) = Z.odd step) as Heven
    by (rewrite Z.add_1_r, Z.even_succ; done).
  pose proof (Z.negb_odd step) as Hneg.
  unfold task_of. destruct (step =? 0) eqn:E0; [done|].
  apply Z.eqb_neq in E0.
  destruct (rem_2_cases (step + 1)) as [[E He]|[(E & Ho & Hs)|(E & Ho & Hs)]];
    rewrite E.
  - rewrite Heven in He. by rewrite He.
  - rewrite Hodd, <- Hneg in Ho. destruct (Z.odd step); [done|].
    destruct (0 <? step) eqn:Hp; [done|]. apply Z.ltb_ge in Hp. lia.
  - rewrite Hodd, <- Hneg in Ho. destruct (Z.odd step); [done|].
    destruct (0 <? step) eqn:Hp; [|done]. apply Z.ltb_lt in Hp. lia.
Qed.

(** X2.  The [switch] of [hb2td_step] has no [default], and needs none:
    for every step number, the negative ones included, the task is 0, 1
    or 2.  It is 0 for step 0 and, [%] truncating toward zero, for the
    negative even steps, which therefore act as step 0 does; 1 for the odd
    steps; 2 for the positive even steps. *)
Theorem hb2td_step_task_of_every_step `{Kernels} (step : Z) :
  (task_of step = 0 ↔ step = 0 ∨ (step < 0 ∧ Z.even step = true))
  ∧ (task_of step = 1 ↔ Z.odd step = true)
  ∧ (task_of step = 2 ↔ 0 < step ∧ Z.even step = true)
  ∧ (∀ band sweep, is_Some (coords band sweep step))
  ∧ (∀ (A : HermitianMatrix) band sweep (R : Reflectors),
       task_of step = 0 →
       hb2td_step A band sweep step R = hb2td_step A band sweep 0 R).
Proof.
  split; [|split; [|split; [|split]]].
  4: intros band sweep; apply coords_is_Some.
  4: intros A band sweep R E; unfold hb2td_step; by rewrite E.
  all: rewrite task_of_every_step, <- ?Z.negb_odd;
    destruct (Z.eqb_spec step 0) as [->|Hne]; simpl;
    [|destruct (Z.odd step) eqn:Ho; simpl; [|destruct (Z.ltb_spec 0 step)]];
    split; intros; try done; try lia; intuition (try done; try lia).
Qed.

Example hb2td_step_negative_steps :
  task_of (-2) = 0 ∧ task_of (-1) = 1 ∧ task_of (-3) = 1
  ∧ coords 3 1 (-3) = Some (1 + 1, 0 - 2 + 1 + 1).
Proof. repeat split. Qed.

(** X3.  [hb2td] gives every step of every sweep to exactly one thread,
    at exactly one place in the sequence of steps of that thread: no step
    is left out and none is run twice. *)
Theorem hb2td_gives_each_step_once `{Kernels} (A : HermitianMatrix)
    (band thread_size : Z) (σ0 : sys) (k s ns : Z) :
  1 ≤ thread_size →
  hb2td_init A band thread_size = Ok σ0 →
  0 ≤ k < A_n A - 2 → nsteps band (A_n A) k = Some ns → 0 ≤ s < ns →
  ∃ t th i tk,
    threads σ0 !! t = Some th ∧ th_tasks th !! i = Some tk ∧ key tk = (k, s)
    ∧ ∀ t' th' i' tk',
        threads σ0 !! t' = Some th' → th_tasks th' !! i' = Some tk' →
        key tk' = (k, s) → t' = t ∧ i' = i.
Proof.
  intros HT E0 Hk Ens Hs.
  destruct (hb2td_init_Good A band thread_size σ0 HT E0) as [HI _].
  destruct (proj2 (team_steps_of_sweep A band thread_size σ0 k ns s
                     HT E0 Hk Ens) Hs)
    as (t & th & tk & Ht & Hin & Hkey).
  pose proof Hin as Hin0. apply list_elem_of_lookup in Hin as [i Hi].
  exists t, th, i, tk. split; [done|]. split; [done|]. split; [done|].
  intros t' th' i' tk' Ht' Hi' Hkey'.
  assert (t' = t) as ->.
  { apply (inv_disj _ _ _ HI t' t th' th tk' tk Ht' Ht
             (list_elem_of_lookup_2 _ _ _ Hi') Hin0).
    by rewrite Hkey', Hkey. }
  split; [done|]. assert (th' = th) as -> by congruence.
  pose proof (inv_nodup _ _ _ HI _ _ Ht) as Hnd.
  eapply (NoDup_lookup _ _ _ (k, s) Hnd);
    rewrite list_lookup_fmap; [by rewrite Hi', <- Hkey'|by rewrite Hi, <- Hkey].
Qed.

Lemma hb2td_gives_each_step_once_witness :
  (1 ≤ 2 ∧ 0 ≤ 1 < 6 - 2 ∧ nsteps 3 6 1 = Some 3 ∧ 0 ≤ 2 < 3)
  ∧ ∃ t th i tk,
      threads team_init !! t = Some th ∧ th_tasks th !! i = Some tk
      ∧ key tk = (1, 2)
      ∧ ∀ t' th' i' tk',
          threads team_init !! t' = Some th' → th_tasks th' !! i' = Some tk' →
          key tk' = (1, 2) → t' = t ∧ i' = i.
Proof.
  split; [repeat split; lia|].
  apply (hb2td_gives_each_step_once (matrix_of_order 6) 3 2 team_init 1 2 3).
  - lia.
  - exact team_init_eq.
  - simpl. lia.
  - reflexivity.
  - lia.
Defined.

(** X4.  The steps of a sweep go round the threads: two steps of the same
    sweep are given to the same thread exactly when their numbers differ by
    a multiple of the number of threads. *)
Theorem hb2td_deals_steps_round_robin `{Kernels} (A : HermitianMatrix)
    (band thread_size : Z) (σ0 : sys) t1 t2 th1 th2 tk1 tk2 :
  1 ≤ thread_size →
  hb2td_init A band thread_size = Ok σ0 →
  threads σ0 !! t1 = Some th1 → threads σ0 !! t2 = Some th2 →
  tk1 ∈ th_tasks th1 → tk2 ∈ th_tasks th2 →
  t_sweep tk1 = t_sweep tk2 →
  (t1 = t2
   ↔ t_step tk1 `mod` thread_size = t_step tk2 `mod` thread_size).
Proof.
  intros HT E0 Ht1 Ht2 Hin1 Hin2 Hk.
  destruct (pass_size_ex thread_size HT) as [ps Eps].
  destruct (ceildiv_3_fits _ _ HT Eps) as [Hps _].
  destruct (init_threads A band thread_size ps σ0 HT Eps E0 _ _ Ht1)
    as [-> Hlt1].
  destruct (init_threads A band thread_size ps σ0 HT Eps E0 _ _ Ht2)
    as [-> Hlt2].
  unfold spawn in Hin1, Hin2. simpl in Hin1, Hin2.
  rewrite <- (run_round_robin band (A_n A) ps thread_size HT Hps
                (Z.of_nat t1) (Z.of_nat t2) tk1 tk2); [|lia|lia|done..].
  split; [by intros ->|]. lia.
Qed.

Lemma hb2td_deals_steps_round_robin_witness :
  1 ≤ 2
  ∧ (0%nat = 0%nat ↔ 0 `mod` 2 = 4 `mod` 2)
  ∧ (0%nat = 1%nat ↔ 0 `mod` 2 = 3 `mod` 2).
Proof.
  split; [lia|]. split.
  - apply (hb2td_deals_steps_round_robin (matrix_of_order 6) 3 2 team_init
             0%nat 0%nat
             (default (spawn 3 6 1 2 0) (threads team_init !! 0%nat))
             (default (spawn 3 6 1 2 0) (threads team_init !! 0%nat))
             {| t_sweep := 0; t_step := 0; t_nsteps_last := 5 |}
             {| t_sweep := 0; t_step := 4; t_nsteps_last := 5 |}).
    + lia.
    + exact team_init_eq.
    + reflexivity.
    + reflexivity.
    + vm_compute. set_solver.
    + vm_compute. set_solver.
    + reflexivity.
  - apply (hb2td_deals_steps_round_robin (matrix_of_order 6) 3 2 team_init
             0%nat 1%nat
             (default (spawn 3 6 1 2 0) (threads team_init !! 0%nat))
             (default (spawn 3 6 1 2 0) (threads team_init !! 1%nat))
             {| t_sweep := 0; t_step := 0; t_nsteps_last := 5 |}
             {| t_sweep := 0; t_step := 3; t_nsteps_last := 5 |}).
    + lia.
    + exact team_init_eq.
    + reflexivity.
    + reflexivity.
    + vm_compute. set_solver.
    + vm_compute. set_solver.
    + reflexivity.
Defined.

(** X5.  The team started by [hb2td] never comes to a halt: in every state
    it can reach, unless the band is 1, either every thread has returned or
    some thread can make its next action (pass a wait loop, call
    [hb2td_step] or store its step); the threads cannot all be spinning in
    their wait loops. *)
Theorem hb2td_team_never_halts `{Kernels} (A : HermitianMatrix)
    (band thread_size : Z) (σ0 σ : sys) :
  1 ≤ thread_size → band ≠ 1 →
  hb2td_init A band thread_size = Ok σ0 →
  rtc (sys_step band) σ0 σ →
  returned σ ∨ ∃ t σ', exec_thread band t σ = Advance σ'.
Proof.
  intros HT Hb E0 Hr.
  destruct (pass_size_ex thread_size HT) as [ps Eps].
  destruct (Nat.eq_dec (actions_left σ) 0%nat) as [H0|Hne].
  - left. apply (reachable_returned A band thread_size σ0); try done.
    by apply actions_left_0.
  - right. apply (team_moves A band thread_size ps σ0); try done.
    by apply actions_left_pos.
Qed.

Lemma hb2td_team_never_halts_witness :
  (1 ≤ 2 ∧ 3 ≠ 1)
  ∧ (returned team_mid ∨ ∃ t σ', exec_thread 3 t team_mid = Advance σ').
Proof.
  split; [split; [lia|discriminate]|].
  apply (hb2td_team_never_halts (matrix_of_order 6) 3 2 team_init team_mid).
  - lia.
  - discriminate.
  - exact team_init_eq.
  - exact team_mid_reachable.
Defined.

(** X6.  The reduction terminates: from a state the team can reach, a run
    of [j] actions leaves [actions_left - j] actions to make, so no run is
    longer than [actions_left], four actions for each step still to run;
    a run has returned exactly when it has made them all; and such a run
    exists.  (The band is not 1.) *)
Theorem hb2td_team_terminates `{Kernels} (A : HermitianMatrix)
    (band thread_size : Z) (σ0 σ : sys) :
  1 ≤ thread_size → band ≠ 1 →
  hb2td_init A band thread_size = Ok σ0 →
  rtc (sys_step band) σ0 σ →
  (∀ j σ', relations.nsteps (sys_step band) j σ σ' →
           actions_left σ = (j + actions_left σ')%nat
           ∧ (returned σ' ↔ j = actions_left σ))
  ∧ ∃ σ', relations.nsteps (sys_step band) (actions_left σ) σ σ'
          ∧ returned σ'.
Proof.
  intros HT Hb E0 Hr.
  destruct (pass_size_ex thread_size HT) as [ps Eps].
  assert (∀ j σ', relations.nsteps (sys_step band) j σ σ' →
            actions_left σ = (j + actions_left σ')%nat
            ∧ (returned σ' ↔ j = actions_left σ)) as Hruns.
  { intros j σ' Hj. pose proof (nsteps_actions band j σ σ' Hj) as Hact.
    split; [done|].
    rewrite (reachable_returned A band thread_size σ0 HT E0 σ' Hb)
      by (etrans; [done|by eapply rtc_nsteps_2]).
    rewrite <- actions_left_0. lia. }
  split; [done|].
  destruct (team_completes A band thread_size ps σ0 HT Eps E0 σ Hr)
    as (σ' & Hrun & Hend).
  exists σ'. split; [done|]. by apply (Hruns _ _ Hrun).
Qed.

Lemma hb2td_team_terminates_witness :
  (1 ≤ 2 ∧ 3 ≠ 1)
  ∧ actions_left team_init = 48%nat
  ∧ ∃ σ', relations.nsteps (sys_step 3) (actions_left team_init) team_init σ'
          ∧ returned σ'.
Proof.
  split; [split; [lia|discriminate]|]. split; [reflexivity|].
  apply (hb2td_team_terminates (matrix_of_order 6) 3 2 team_init team_init).
  - lia.
  - discriminate.
  - exact team_init_eq.
  - constructor.
Defined.



(** X8.  The calls of [hb2td_step] are made in an order that respects the
    dependencies: whenever step [s] of sweep [k] is run, the steps
    [0 .. s-1] of sweep [k] have been run before it, and, for [k > 0], so
    have the steps [0 .. min(s+2, nsteps_last-1)] of sweep [k-1]. *)
Theorem hb2td_steps_follow_dependencies `{Kernels} (A : HermitianMatrix)
    (band thread_size : Z) (σ0 σ : sys) (l1 l2 : list (Z * Z)) (k s : Z) :
  1 ≤ thread_size →
  hb2td_init A band thread_size = Ok σ0 →
  rtc (sys_step band) σ0 σ →
  steps_done σ = l1 ++ (k, s) :: l2 →
  (∀ s', 0 ≤ s' < s → (k, s') ∈ l1)
  ∧ (0 < k → ∀ nl, nsteps band (A_n A) (k - 1) = Some nl →
             ∀ s', 0 ≤ s' ≤ Z.min (s + 2) (nl - 1) → (k - 1, s') ∈ l1).
Proof.
  intros HT E0 Hr E.
  destruct (pass_size_ex thread_size HT) as [ps Eps].
  destruct (reachable_Told A band thread_size ps σ0 HT Eps E0 σ Hr)
    as [_ _ _ _ _ Hord _].
  by apply (Hord l1 k s l2).
Qed.

Lemma hb2td_steps_follow_dependencies_witness :
  steps_done team_end
  = [(0, 0); (0, 1); (0, 2); (0, 3); (0, 4); (1, 0)]
    ++ (1, 1) :: [(1, 2); (2, 0); (2, 1); (2, 2); (3, 0)]
  ∧ (∀ s', 0 ≤ s' < 1 →
           (1, s') ∈ [(0, 0); (0, 1); (0, 2); (0, 3); (0, 4); (1, 0)])
  ∧ (0 < 1 → ∀ nl, nsteps 3 6 (1 - 1) = Some nl →
       ∀ s', 0 ≤ s' ≤ Z.min (1 + 2) (nl - 1) →
             (1 - 1, s') ∈ [(0, 0); (0, 1); (0, 2); (0, 3); (0, 4); (1, 0)]).
Proof.
  split; [reflexivity|].
  apply (hb2td_steps_follow_dependencies (matrix_of_order 6) 3 2
           team_init team_end _ [(1, 2); (2, 0); (2, 1); (2, 2); (3, 0)]).
  - lia.
  - exact team_init_eq.
  - exact team_end_reachable.
  - reflexivity.
Defined.

(** X9.  In the runs of [hb2td] the guard [i < A.n() && j < A.n()] of
    [hb2td_step] never fails: every step a thread has been given has its
    coordinates inside the matrix, so every call of [hb2td_step] the team
    makes, or is still to make, reaches its kernel. *)
Theorem hb2td_runs_no_step_out_of_range `{Kernels} (A : HermitianMatrix)
    (band thread_size : Z) (σ0 σ : sys) (k s : Z) :
  1 ≤ thread_size →
  hb2td_init A band thread_size = Ok σ0 →
  rtc (sys_step band) σ0 σ →
  (k, s) ∈ steps_done σ
  ∨ (∃ t th tk, threads σ !! t = Some th ∧ tk ∈ th_tasks th
                ∧ key tk = (k, s)) →
  A_n (mat σ) = A_n A
  ∧ ∃ ij, coords band k s = Some ij ∧ in_range (A_n (mat σ)) ij = true.
Proof.
  intros HT E0 Hr Hks.
  destruct (pass_size_ex thread_size HT) as [ps Eps].
  destruct (reachable_Good A band thread_size σ0 σ HT E0 Hr) as [HI HH].
  rewrite (inv_n _ _ _ HI). split; [done|].
  assert (0 ≤ k < A_n A - 2
          ∧ ∃ ns, nsteps band (A_n A) k = Some ns ∧ 0 ≤ s < ns)
    as (Hk & ns & Ens & Hs).
  { destruct Hks as [Hin|(t & th & tk & Ht & Hin & Hkey)].
    - destruct (reachable_Told A band thread_size ps σ0 HT Eps E0 σ Hr)
        as [_ Hiss _ _ _ _ _].
      by apply Hiss.
    - injection Hkey as <- <-.
      destruct (inv_pending _ _ _ HI _ _ _ Ht Hin)
        as ((Hk & Hs & _ & ns & Ens & Hlt) & _).
      split; [done|]. exists ns. split; [done|lia]. }
  apply (step_below_count_in_range (A_n A) band k s ns); [done|lia|done|lia].
Qed.

Lemma hb2td_runs_no_step_out_of_range_witness :
  (0, 4) ∈ steps_done team_end
  ∧ A_n (mat team_end) = 6
  ∧ ∃ ij, coords 3 0 4 = Some ij ∧ in_range (A_n (mat team_end)) ij = true.
Proof.
  assert ((0, 4) ∈ steps_done team_end) as Hin by (vm_compute; set_solver).
  split; [exact Hin|].
  apply (hb2td_runs_no_step_out_of_range (matrix_of_order 6) 3 2
           team_init team_end 0 4).
  - lia.
  - exact team_init_eq.
  - exact team_end_reachable.
  - left. exact Hin.
Defined.

(** X10.  In the runs of [hb2td] the reflector store holds exactly the
    entries produced by the steps run so far (task 0 and task 1): a lookup
    by a consuming step never finds its key missing, so [operator[]] never
    creates an entry of its own. *)
Theorem hb2td_store_is_what_steps_produced `{Kernels} (A : HermitianMatrix)
    (band thread_size : Z) (σ0 σ : sys) (kk : Z * Z) :
  1 ≤ thread_size →
  hb2td_init A band thread_size = Ok σ0 →
  rtc (sys_step band) σ0 σ →
  (is_Some (reflectors σ !! kk)
   ↔ ∃ k s, (k, s) ∈ steps_done σ ∧ produced_key band k s = Some kk).
Proof.
  intros HT E0 Hr.
  destruct (pass_size_ex thread_size HT) as [ps Eps].
  destruct (reachable_Told A band thread_size ps σ0 HT Eps E0 σ Hr)
    as [_ _ _ _ _ _ Hsto].
  apply Hsto.
Qed.

Lemma hb2td_store_is_what_steps_produced_witness :
  is_Some (reflectors team_mid !! (3, 1))
  ↔ ∃ k s, (k, s) ∈ steps_done team_mid ∧ produced_key 3 k s = Some (3, 1).
Proof.
  apply (hb2td_store_is_what_steps_produced (matrix_of_order 6) 3 2
           team_init team_mid (3, 1)).
  - lia.
  - exact team_init_eq.
  - exact team_mid_reachable.
Defined.

(** X11.  The counters of the progress table stay staggered: in every
    state the team can reach, once a sweep [k > 0] has completed a step [v],
    the sweep before it has completed step [min(v+2, nsteps_last-1)]: it
    is two steps ahead, or finished. *)
Theorem hb2td_counters_stay_staggered `{Kernels} (A : HermitianMatrix)
    (band thread_size : Z) (σ0 σ : sys) (k v nl : Z) :
  1 ≤ thread_size →
  hb2td_init A band thread_size = Ok σ0 →
  rtc (sys_step band) σ0 σ →
  0 < k → load_at (progress σ) k = Some v → 0 ≤ v →
  nsteps band (A_n A) (k - 1) = Some nl →
  ∃ v', load_at (progress σ) (k - 1) = Some v' ∧ Z.min (v + 2) (nl - 1) ≤ v'.
Proof.
  intros HT E0 Hr. by apply (reachable_Staggered A band thread_size σ0).
Qed.

Lemma hb2td_counters_stay_staggered_witness :
  (1 ≤ 2 ∧ 0 < 1 ∧ load_at (progress team_end) 1 = Some 2 ∧ 0 ≤ 2
   ∧ nsteps 3 6 (1 - 1) = Some 5)
  ∧ ∃ v', load_at (progress team_end) (1 - 1) = Some v'
          ∧ Z.min (2 + 2) (5 - 1) ≤ v'.
Proof.
  split; [repeat split; lia|].
  apply (hb2td_counters_stay_staggered (matrix_of_order 6) 3 2
           team_init team_end 1 2 5).
  - lia.
  - exact team_init_eq.
  - exact team_end_reachable.
  - lia.
  - reflexivity.
  - lia.
  - reflexivity.
Defined.

(** X12.  Threads that are inside [hb2td_step] at the same time (between
    the end of their wait loops and their store) are in different sweeps,
    and far apart: if one is at step [s] of sweep [k] and the other in an
    earlier sweep [k' < k], the other is at step [s + 2(k-k') + 1] of its
    sweep or beyond. *)
Theorem hb2td_running_steps_stay_apart `{Kernels} (A : HermitianMatrix)
    (band thread_size : Z) (σ0 σ : sys) ta tb tha thb tka tkb ra rb :
  1 ≤ thread_size →
  hb2td_init A band thread_size = Ok σ0 →
  rtc (sys_step band) σ0 σ →
  threads σ !! ta = Some tha → threads σ !! tb = Some thb →
  th_tasks tha = tka :: ra → th_tasks thb = tkb :: rb →
  in_step tha → in_step thb →
  (t_sweep tkb = t_sweep tka → ta = tb)
  ∧ (t_sweep tkb < t_sweep tka →
     t_step tka + 2 * (t_sweep tka - t_sweep tkb) + 1 ≤ t_step tkb).
Proof.
  intros HT E0 Hr. by apply (steps_apart A band thread_size σ0).
Qed.

Lemma hb2td_running_steps_stay_apart_witness :
  (1 ≤ 2
   ∧ in_step (default (spawn 3 6 1 2 0) (threads team_both !! 1%nat))
   ∧ in_step (default (spawn 3 6 1 2 0) (threads team_both !! 0%nat)))
  ∧ (0 = 1 → 1%nat = 0%nat)
  ∧ (0 < 1 → 0 + 2 * (1 - 0) + 1 ≤ 4).
Proof.
  split; [split; [lia|split; left; reflexivity]|].
  apply (hb2td_running_steps_stay_apart (matrix_of_order 6) 3 2
           team_init team_both 1%nat 0%nat
           (default (spawn 3 6 1 2 0) (threads team_both !! 1%nat))
           (default (spawn 3 6 1 2 0) (threads team_both !! 0%nat))
           {| t_sweep := 1; t_step := 0; t_nsteps_last := 5 |}
           {| t_sweep := 0; t_step := 4; t_nsteps_last := 5 |}
           (tl (th_tasks (default (spawn 3 6 1 2 0)
                            (threads team_both !! 1%nat))))
           (tl (th_tasks (default (spawn 3 6 1 2 0)
                            (threads team_both !! 0%nat))))).
  - lia.
  - exact team_init_eq.
  - exact team_both_reachable.
  - reflexivity.
  - reflexivity.
  - reflexivity.
  - reflexivity.
  - left. reflexivity.
  - left. reflexivity.
Defined.

(** X13.  A band of 0 or less is accepted in silence: for a matrix of order
    at least 2 every step count is negative, so [hb2td] starts its threads,
    none of them runs a step and all return; the matrix is as it was. *)
Theorem hb2td_band_below_1 `{Kernels} (A : HermitianMatrix)
    (band thread_size : Z) :
  band ≤ 0 → 1 ≤ thread_size → 2 ≤ A_n A →
  ∃ σ0, hb2td_init A band thread_size = Ok σ0
        ∧ returned σ0
        ∧ steps_done σ0 = [] ∧ mat σ0 = A ∧ reflectors σ0 = ∅
        ∧ ∀ σ, rtc (sys_step band) σ0 σ → σ = σ0.
Proof.
  intros Hb HT Hn.
  destruct (hb2td_init_Ok A band thread_size HT Hn) as (ps & Eps & Hps & E0).
  eexists. split; [exact E0|].
  assert (∀ t th,
    (spawn band (A_n A) ps thread_size <$> seqZ 0 thread_size) !! t = Some th →
    th_tasks th = [] ∧ ∃ z, th_exit th = Ok z) as Hth.
  { intros t th Hl. apply lookup_spawn in Hl as [-> _].
    unfold spawn. simpl. split.
    - apply run_no_task; lia.
    - apply run_ending; lia. }
  split; [exact Hth|]. split; [done|]. split; [done|]. split; [done|].
  intros σ Hr. apply (idle_team_stays band); [|done].
  intros t th Hl. by destruct (Hth t th Hl).
Qed.

Lemma hb2td_band_below_1_witness :
  (0 ≤ 0 ∧ 1 ≤ 2 ∧ 2 ≤ 6)
  ∧ ∃ σ0, hb2td_init (matrix_of_order 6) 0 2 = Ok σ0
          ∧ returned σ0
          ∧ steps_done σ0 = [] ∧ mat σ0 = matrix_of_order 6
          ∧ reflectors σ0 = ∅
          ∧ ∀ σ, rtc (sys_step 0) σ0 σ → σ = σ0.
Proof.
  split; [lia|].
  apply (hb2td_band_below_1 (matrix_of_order 6) 0 2); simpl; lia.
Defined.

(** X14.  The smallest matrices.  For an order below 2 the progress table
    would have a negative length: [hb2td] fails with [std::length_error]
    before it starts a thread, whatever the band and the number of threads.
    For the order 2 there is no sweep: the threads are started and return at
    once, for every band, 1 included, and the matrix is as it was. *)
Theorem hb2td_small_orders `{Kernels} (A : HermitianMatrix)
    (band thread_size : Z) :
  (A_n A < 2 → hb2td_init A band thread_size = Err LengthError)
  ∧ (A_n A = 2 → 1 ≤ thread_size →
     ∃ σ0, hb2td_init A band thread_size = Ok σ0
           ∧ returned σ0 ∧ progress σ0 = []
           ∧ steps_done σ0 = [] ∧ mat σ0 = A
           ∧ ∀ σ, rtc (sys_step band) σ0 σ → σ = σ0).
Proof.
  split.
  - intros Hn. unfold hb2td_init.
    destruct (A_n A - 2 <? 0) eqn:E; [done|]. apply Z.ltb_ge in E. lia.
  - intros Hn HT.
    destruct (hb2td_init_Ok A band thread_size HT ltac:(lia))
      as (ps & Eps & Hps & E0).
    eexists. split; [exact E0|].
    assert (∀ t th,
      (spawn band (A_n A) ps thread_size <$> seqZ 0 thread_size) !! t
        = Some th →
      th_tasks th = [] ∧ ∃ z, th_exit th = Ok z) as Hth.
    { intros t th Hl. apply lookup_spawn in Hl as [-> _].
      unfold spawn, hb2td_run. rewrite Hn. simpl. split; [done|by eexists]. }
    split; [exact Hth|]. split; [by rewrite Hn|].
    split; [done|]. split; [done|].
    intros σ Hr. apply (idle_team_stays band); [|done].
    intros t th Hl. by destruct (Hth t th Hl).
Qed.

Lemma hb2td_small_orders_witness :
  hb2td_init (matrix_of_order 1) 4 8 = Err LengthError
  ∧ ∃ σ0, hb2td_init (matrix_of_order 2) 1 3 = Ok σ0 ∧ returned σ0.
Proof.
  destruct (hb2td_small_orders (matrix_of_order 1) 4 8) as [Hlow _].
  destruct (hb2td_small_orders (matrix_of_order 2) 1 3) as [_ Htwo].
  split; [apply Hlow; simpl; lia|].
  destruct Htwo as (σ0 & E & Hret & _); [reflexivity|lia|].
  exists σ0. split; [exact E|exact Hret].
Defined.

End Reduction.

(* --------------------------------------------------------------------- *)
(** ** unmlq: the local rows and the calls into the kernels               *)
(* --------------------------------------------------------------------- *)

Module UnmlqCalls.
Import Unmlq UnmlqFacts.

Lemma seqZ_sorted (len : nat) : ∀ m, StronglySorted Z.lt (seqZ m (Z.of_nat len)).
Proof.
  induction len as [|len IH]; intros m; [constructor|].
  rewrite seqZ_cons by lia. constructor.
  - replace (Z.pred (Z.of_nat (S len))) with (Z.of_nat len) by lia. apply IH.
  - apply Forall_forall. intros x Hx. apply elem_of_seqZ in Hx. lia.
Qed.

Lemma filter_sorted {X} (R : relation X) (P : X → Prop)
    `{∀ x, Decision (P x)} (l : list X) :
  StronglySorted R l → StronglySorted R (filter P l).
Proof.
  induction 1 as [|x l Hl IH Hx]; [constructor|].
  rewrite filter_cons. destruct (decide (P x)); [|done].
  constructor; [done|]. apply Forall_forall. intros y Hy.
  apply list_elem_of_filter in Hy as [_ Hy].
  rewrite Forall_forall in Hx. by apply Hx.
Qed.

Lemma local_rows_sorted C : StronglySorted Z.lt (local_rows C).
Proof.
  unfold local_rows, mt. apply filter_sorted, seqZ_sorted.
Qed.

Lemma local_cols_sorted C : StronglySorted Z.lt (local_cols C).
Proof.
  unfold local_cols, nt. apply filter_sorted, seqZ_sorted.
Qed.

(** X15.  The index list built by the two loops of [unmlq] (rows in the
    left case, columns in the right case) holds exactly the tile rows
    (columns) of C with a local tile, each once, in increasing order.  So
    [first] is the smallest of them, and every other one lies from the
    second entry to the last tile row (column): the trailing update on
    [C.sub(row_indices[1], mt-1, 0, nt-1)] reaches them all. *)
Theorem unmlq_index_list (side : Side) (C : Matrix) :
  StronglySorted Z.lt (local_indices side C)
  ∧ (∀ i, i ∈ local_indices side C
          ↔ match side with
            | Left => 0 ≤ i < mt C
                      ∧ ∃ j, 0 ≤ j < nt C ∧ tileIsLocal C i j = true
            | Right => 0 ≤ i < nt C
                       ∧ ∃ j, 0 ≤ j < mt C ∧ tileIsLocal C j i = true
            end)
  ∧ (∀ first second rest,
       local_indices side C = first :: second :: rest →
       0 ≤ first < second
       ∧ ∀ r, r ∈ second :: rest →
              second ≤ r ≤ match side with Left => mt C | Right => nt C end
                           - 1).
Proof.
  assert (StronglySorted Z.lt (local_indices side C)) as Hs
    by (destruct side; [apply local_rows_sorted|apply local_cols_sorted]).
  assert (∀ i, i ∈ local_indices side C
            ↔ match side with
              | Left => 0 ≤ i < mt C
                        ∧ ∃ j, 0 ≤ j < nt C ∧ tileIsLocal C i j = true
              | Right => 0 ≤ i < nt C
                         ∧ ∃ j, 0 ≤ j < mt C ∧ tileIsLocal C j i = true
              end) as Hel
    by (intros i; destruct side;
        [apply elem_of_local_rows|apply elem_of_local_cols]).
  split; [done|]. split; [done|].
  intros first second rest E. rewrite E in Hs.
  apply StronglySorted_inv in Hs as [Hs Hf].
  apply StronglySorted_inv in Hs as [_ Hr].
  rewrite Forall_forall in Hf, Hr.
  assert (first ∈ local_indices side C) as H1 by (rewrite E; left).
  apply Hel in H1. split.
  - split; [destruct side; lia|]. apply Hf. left.
  - intros r Hin.
    assert (r ∈ local_indices side C) as H2 by (rewrite E; by right).
    apply Hel in H2.
    apply elem_of_cons in Hin as [->|Hin].
    + destruct side; lia.
    + specialize (Hr r Hin). destruct side; lia.
Qed.

Definition is_hold (c : kernel_call) : bool :=
  match c with tileGetAndHoldAllOnDevices _ => true | _ => false end.

Definition is_trmm (c : kernel_call) : bool :=
  match c with trmm _ _ _ _ => true | _ => false end.

Definition is_gemm (c : kernel_call) : bool :=
  match c with gemm _ _ _ _ _ _ => true | _ => false end.

(** The block row (left) or block column (right) of C at an index. *)
Definition block_of_C (side : Side) (C : Matrix) (r : Z) : Matrix :=
  match side with
  | Left => sub C r r 0 (nt C - 1)
  | Right => sub C 0 (mt C - 1) r r
  end.

Section Calls.
Context `{TileKernels}.

Lemma tiles_run_kernels cs (st : state) :
  tiles (run_kernels cs st) = foldl (λ k c, kernel c k) (tiles st) cs.
Proof.
  revert st. induction cs as [|c cs IH]; intros st; simpl; [done|].
  by rewrite IH.
Qed.

Lemma tiles_erase (P : Z → bool) (erase : Z → state → state) (l : list Z) :
  (∀ x st, tiles (erase x st) = tiles st) →
  ∀ st, tiles (foldl (λ st x, if P x then erase x st else st) st l) = tiles st.
Proof.
  intros He. induction l as [|x l IH]; intros st; simpl; [done|].
  rewrite IH. destruct (P x); [apply He|done].
Qed.

Lemma tiles_erase_row Wr (st : state) : tiles (erase_row Wr st) = tiles st.
Proof. unfold erase_row. by apply tiles_erase. Qed.

Lemma tiles_erase_col Wc (st : state) : tiles (erase_col Wc st) = tiles st.
Proof. unfold erase_col. by apply tiles_erase. Qed.

End Calls.

Lemma filter_hold_rows (target : Target) (others : list Z)
    (hold : Z → kernel_call) (mul : Z → kernel_call) :
  (∀ r, is_hold (hold r) = true) → (∀ r, is_hold (mul r) = false) →
  filter (λ c, is_hold c)
    (row ← others;
     (match target with Devices => [hold row] | _ => [] end) ++ [mul row])
  = match target with Devices => hold <$> others | _ => [] end.
Proof.
  intros Hh Hm. induction others as [|r others IH].
  - by destruct target.
  - rewrite bind_cons, !filter_app, IH.
    rewrite (filter_cons_False _ (mul r)) by (rewrite Hm; exact id).
    rewrite filter_nil, app_nil_r.
    destruct target; try done.
    rewrite filter_cons_True by (by rewrite Hh). done.
Qed.

Lemma count_rows (P : kernel_call → bool) (target : Target)
    (others : list Z) (hold : Z → kernel_call) (mul : Z → kernel_call) b :
  (∀ r, P (hold r) = false) → (∀ r, P (mul r) = b) →
  length (filter (λ c, P c)
            (row ← others;
             (match target with Devices => [hold row] | _ => [] end)
             ++ [mul row]))
  = if b then length others else 0%nat.
Proof.
  intros Hh Hm. induction others as [|r others IH].
  - by destruct b.
  - rewrite bind_cons, !filter_app, !length_app, IH.
    assert (filter (λ c, P c)
              match target with Devices => [hold r] | _ => [] end = []) as ->.
    { destruct target; try done.
      rewrite filter_cons_False by (rewrite Hh; exact id). done. }
    specialize (Hm r). destruct b.
    + rewrite filter_cons_True by (by rewrite Hm). done.
    + rewrite filter_cons_False by (rewrite Hm; exact id). done.
Qed.

Lemma trapezoid_test mb nb :
  ((if nb <? mb then nb else mb) <? nb) = (mb <? nb).
Proof.
  destruct (Z.ltb_spec nb mb); [|done].
  destruct (Z.ltb_spec nb nb), (Z.ltb_spec mb nb); try done; lia.
Qed.

(** X16.  The calls [unmlq] makes into the library once it has a local row
    (column): what the kernels act on afterwards is what the calls, in
    order, make of it.  The first call brings the block row (column)
    [first] of C to the host for writing.  Tiles are held on the devices
    only for the target [Devices], and then once for each local row
    (column) of C after the first, in order.  There are three triangular
    multiplies; and one general multiply for each further local row
    (column), one more for all of them together when there is any, and two
    more when the tile of V at [first] is a wide trapezoid. *)
Theorem unmlq_kernel_calls `{TileKernels} target side op V T C W
    (st : state) first others :
  shape_ok side V C W → local_indices side C = first :: others →
  ∃ calls st',
    unmlq target side op V T C W st = Returned st'
    ∧ tiles st' = foldl (λ k c, kernel c k) (tiles st) calls
    ∧ head calls = Some (tileGetAllForWriting (block_of_C side C first))
    ∧ filter (λ c, is_hold c) calls
      = match target with
        | Devices =>
            (λ r, tileGetAndHoldAllOnDevices (block_of_C side C r)) <$> others
        | _ => []
        end
    ∧ length (filter (λ c, is_trmm c) calls) = 3%nat
    ∧ length (filter (λ c, is_gemm c) calls)
      = (length others + (match others with [] => 0 | _ => 1 end)
         + (if (tileMb (sub V 0 0 first first) 0
                <? tileNb (sub V 0 0 first first) 0)%Z
            then 2 else 0))%nat.
Proof.
  intros Hok Eloc.
  rewrite (unmlq_shape_ok _ _ _ _ _ _ _ _ Hok).
  destruct Hok as (Hm & Hn & HVmt & HWmt & HWnt & HV).
  destruct side; simpl in Eloc, HV.
  - unfold unmlq_left.
    rewrite assert_true by (by apply Z.eqb_eq). rewrite Eloc.
    apply local_rows_first in Eloc.
    rewrite assert_true by (apply Z.ltb_lt; lia).
    rewrite assert_true by (apply Z.leb_le; lia).
    cbv zeta. eexists _, _. split; [reflexivity|].
    rewrite tiles_erase_row, tiles_run_kernels.
    split; [reflexivity|]. split; [reflexivity|].
    rewrite !trapezoid_test.
    set (mb := tileMb (sub V 0 0 first first) 0).
    set (nb := tileNb (sub V 0 0 first first) 0).
    split; [|split].
    + rewrite !filter_app. erewrite filter_hold_rows; [|done|done].
      destruct (mb <? nb), others, target; simpl;
        rewrite ?app_nil_r; reflexivity.
    + rewrite !filter_app, !length_app.
      erewrite (count_rows _ _ _ _ _ false); [|done|done].
      destruct (mb <? nb), others; reflexivity.
    + rewrite !filter_app, !length_app.
      erewrite (count_rows _ _ _ _ _ true); [|done|done].
      destruct (mb <? nb), others; simpl; lia.
  - unfold unmlq_right.
    rewrite assert_true by (by apply Z.eqb_eq). rewrite Eloc.
    apply local_cols_first in Eloc.
    rewrite assert_true by (apply Z.ltb_lt; lia).
    rewrite assert_true by (apply Z.leb_le; lia).
    cbv zeta. eexists _, _. split; [reflexivity|].
    rewrite tiles_erase_col, tiles_run_kernels.
    split; [reflexivity|]. split; [reflexivity|].
    rewrite !trapezoid_test.
    set (mb := tileMb (sub V 0 0 first first) 0).
    set (nb := tileNb (sub V 0 0 first first) 0).
    split; [|split].
    + rewrite !filter_app. erewrite filter_hold_rows; [|done|done].
      destruct (mb <? nb), others, target; simpl;
        rewrite ?app_nil_r; reflexivity.
    + rewrite !filter_app, !length_app.
      erewrite (count_rows _ _ _ _ _ false); [|done|done].
      destruct (mb <? nb), others; reflexivity.
    + rewrite !filter_app, !length_app.
      erewrite (count_rows _ _ _ _ _ true); [|done|done].
      destruct (mb <? nb), others; simpl; lia.
Qed.

Lemma filter_rows_none (P : kernel_call → bool) (target : Target)
    (others : list Z) (hold : Z → kernel_call) (mul : Z → kernel_call) :
  (∀ r, P (hold r) = false) → (∀ r, P (mul r) = false) →
  filter (λ c, P c)
    (row ← others;
     (match target with Devices => [hold row] | _ => [] end) ++ [mul row])
  = [].
Proof.
  intros Hh Hm. induction others as [|r others IH]; [done|].
  rewrite bind_cons, !filter_app, IH.
  rewrite (filter_cons_False _ (mul r)) by (rewrite Hm; exact id).
  destruct target; try done.
  rewrite filter_cons_False by (rewrite Hh; exact id). done.
Qed.

Lemma slice_extents_one e b :
  0 < e → 0 ≤ b → slice_extents [e] 0 b = (0, [Z.min e (b + 1)]).
Proof.
  intros He Hb. unfold slice_extents. simpl.
  destruct (0 <? _) eqn:E; [|apply Z.ltb_ge in E; lia].
  apply Z.ltb_lt in E. rewrite filter_cons_True by done.
  rewrite filter_nil. do 2 f_equal. lia.
Qed.

Lemma take_1_drop (l : list Z) i :
  0 ≤ i < Z.of_nat (length l) →
  take (Z.to_nat (i - i + 1)) (drop (Z.to_nat i) l) = [nth (Z.to_nat i) l 0].
Proof.
  intros Hi. replace (Z.to_nat (i - i + 1)) with 1%nat by lia.
  assert (Z.to_nat i < length l)%nat as Hlt by lia.
  revert Hlt. generalize (Z.to_nat i). clear Hi.
  induction l as [|x l IH]; intros [|k] Hk; simpl in *; try lia.
  - by destruct l.
  - apply IH. lia.
Qed.

(** The tile (0, first) of V as a view of its own. *)
Lemma sub_tile V first mb :
  mbs V = [mb] → 0 ≤ first < nt V →
  mbs (sub V 0 0 first first) = [mb]
  ∧ nbs (sub V 0 0 first first) = [tileNb V first].
Proof.
  intros Em Hf. unfold sub, tileNb. cbn [mbs nbs]. rewrite Em.
  split; [done|]. by apply take_1_drop.
Qed.

Lemma tileNb_pos V first :
  Forall (λ e, 0 < e) (nbs V) → 0 ≤ first < nt V → 0 < tileNb V first.
Proof.
  intros Hpos Hf. unfold tileNb, nt in *.
  rewrite Forall_forall in Hpos. apply Hpos.
  apply list_elem_of_In, nth_In. lia.
Qed.

(** The triangular part of the tile (0, first) of V after the two
    adjustments of the code, for a tall tile and for a wide one: the
    leading square of order [min(mb, nb)]. *)
Lemma triangle_square V first mb nb :
  mbs V = [mb] → 0 < mb → Forall (λ e, 0 < e) (nbs V) →
  0 ≤ first < nt V → nb = tileNb V first →
  mbs (if mb <? nb
       then slice (if nb <? mb
                   then sub (if nb <? mb
                             then slice V 0 (nb - 1) 0 (n V - 1) else V)
                          0 0 first first
                   else sub V 0 0 first first)
              0 ((if nb <? mb then nb else mb) - 1)
              0 ((if nb <? mb then nb else mb) - 1)
       else if nb <? mb
            then sub (if nb <? mb then slice V 0 (nb - 1) 0 (n V - 1) else V)
                   0 0 first first
            else sub V 0 0 first first) = [Z.min mb nb]
  ∧ nbs (if mb <? nb
         then slice (if nb <? mb
                     then sub (if nb <? mb
                               then slice V 0 (nb - 1) 0 (n V - 1) else V)
                            0 0 first first
                     else sub V 0 0 first first)
                0 ((if nb <? mb then nb else mb) - 1)
                0 ((if nb <? mb then nb else mb) - 1)
         else if nb <? mb
              then sub (if nb <? mb then slice V 0 (nb - 1) 0 (n V - 1) else V)
                     0 0 first first
              else sub V 0 0 first first) = [Z.min mb nb].
Proof.
  intros Em Hmb Hpos Hf Enb.
  pose proof (tileNb_pos V first Hpos Hf) as Hnb. rewrite <- Enb in Hnb.
  destruct (sub_tile V first mb Em Hf) as [Em0 En0]. rewrite <- Enb in En0.
  destruct (Z.ltb_spec mb nb) as [Hwide|Hnw].
  - destruct (Z.ltb_spec nb mb) as [?|_]; [lia|].
    unfold slice. rewrite Em0, En0.
    rewrite !slice_extents_one by lia. cbn [mbs nbs].
    split; f_equal; lia.
  - destruct (Z.ltb_spec nb mb) as [Htall|Hsq].
    + assert (mbs (slice V 0 (nb - 1) 0 (n V - 1)) = [nb]
              ∧ nbs (slice V 0 (nb - 1) 0 (n V - 1)) = nbs V) as [Em' En'].
      { unfold slice. rewrite Em, slice_extents_one by lia.
        rewrite slice_extents_full by (done || (unfold n; lia)).
        cbn [mbs nbs]. split; [|done]. f_equal. lia. }
      destruct (sub_tile (slice V 0 (nb - 1) 0 (n V - 1)) first nb Em')
        as [-> ->]; [unfold nt in *; by rewrite En'|].
      unfold tileNb. rewrite En'. fold (tileNb V first). rewrite <- Enb.
      split; f_equal; lia.
    + rewrite Em0, En0. split; f_equal; lia.
Qed.

(** It is a view of the same stored tile, from its first row and column. *)
Lemma triangle_tile V first mb nb :
  mbs V = [mb] → 0 < mb → Forall (λ e, 0 < e) (nbs V) →
  0 ≤ first < nt V → nb = tileNb V first →
  tile_of (if mb <? nb
            then slice (if nb <? mb
                        then sub (if nb <? mb
                                  then slice V 0 (nb - 1) 0 (n V - 1) else V)
                               0 0 first first
                        else sub V 0 0 first first)
                   0 ((if nb <? mb then nb else mb) - 1)
                   0 ((if nb <? mb then nb else mb) - 1)
            else if nb <? mb
                 then sub (if nb <? mb
                           then slice V 0 (nb - 1) 0 (n V - 1) else V)
                        0 0 first first
                 else sub V 0 0 first first) 0 0 = tile_of V 0 first.
Proof.
  intros Em Hmb Hpos Hf Enb.
  pose proof (tileNb_pos V first Hpos Hf) as Hnb. rewrite <- Enb in Hnb.
  destruct (sub_tile V first mb Em Hf) as [Em0 En0]. rewrite <- Enb in En0.
  destruct (Z.ltb_spec mb nb) as [Hwide|Hnw].
  - destruct (Z.ltb_spec nb mb) as [?|_]; [lia|].
    unfold slice. rewrite Em0, En0.
    rewrite !slice_extents_one by lia.
    unfold tile_of, sub. cbn [ioffset joffset]. f_equal; lia.
  - destruct (Z.ltb_spec nb mb) as [Htall|Hsq].
    + unfold slice. rewrite Em, slice_extents_one by lia.
      rewrite slice_extents_full by (done || (unfold n; lia)).
      unfold tile_of, sub. cbn [ioffset joffset]. f_equal; lia.
    + unfold tile_of, sub. cbn [ioffset joffset]. f_equal; lia.
Qed.

Lemma unmlq_kernel_calls_witness :
  (shape_ok Left (UnmlqSpec.all_owned [3] [4; 4; 2])
     (UnmlqSpec.checkerboard [4; 4; 2] [4; 3])
     (UnmlqSpec.checkerboard [4; 4; 2] [4; 3])
   ∧ local_indices Left (UnmlqSpec.checkerboard [4; 4; 2] [4; 3])
     = 0 :: [1; 2])
  ∧ ∃ calls st',
      unmlq Devices Left NoTrans
        (UnmlqSpec.all_owned [3] [4; 4; 2]) (UnmlqSpec.all_owned [3] [4; 4; 2])
        (UnmlqSpec.checkerboard [4; 4; 2] [4; 3])
        (UnmlqSpec.checkerboard [4; 4; 2] [4; 3]) UnmlqSpec.fresh_state
      = Returned st'
      ∧ length (filter (λ c, is_hold c) calls) = 2%nat
      ∧ length (filter (λ c, is_trmm c) calls) = 3%nat
      ∧ length (filter (λ c, is_gemm c) calls) = 5%nat.
Proof.
  assert (shape_ok Left (UnmlqSpec.all_owned [3] [4; 4; 2])
            (UnmlqSpec.checkerboard [4; 4; 2] [4; 3])
            (UnmlqSpec.checkerboard [4; 4; 2] [4; 3])) as Hok
    by (unfold shape_ok, mt, nt; simpl; lia).
  split; [split; [exact Hok|reflexivity]|].
  destruct (unmlq_kernel_calls (H := UnmlqSpec.counting_kernels)
              Devices Left NoTrans
              (UnmlqSpec.all_owned [3] [4; 4; 2])
              (UnmlqSpec.all_owned [3] [4; 4; 2])
              (UnmlqSpec.checkerboard [4; 4; 2] [4; 3])
              (UnmlqSpec.checkerboard [4; 4; 2] [4; 3])
              UnmlqSpec.fresh_state 0 [1; 2] Hok eq_refl)
    as (calls & st' & E & Ht & _ & Hh & Htr & Hg).
  exists calls, st'. split; [exact E|].
  split; [by rewrite Hh|]. split; [exact Htr|exact Hg].
Defined.

(** X17.  The triangular multiplies of [unmlq].  Whatever the shape of the
    tile of V at [first], [mb] by [nb] (square, tall or a wide trapezoid),
    the unit upper triangular factor [V0] handed to [trmm] is the leading
    square of that tile, of order [min(mb, nb)]: one tile with so many rows
    and columns, a view of the stored tile behind tile [(0, first)] of V.  The three multiplies are,
    in order: by [V0], by [T0] and by the conjugate transpose of [V0] in the
    left case; by the conjugate transpose of [V0], by [T0] and by [V0] in
    the right case.  The [op] is applied to [T0] only: [T0] is conjugate
    transposed for [NoTrans] and used as it is for [Trans] and
    [ConjTrans]. *)
Theorem unmlq_triangular_factors `{TileKernels} target side op V T C W
    (st : state) first others mb :
  shape_ok side V C W → local_indices side C = first :: others →
  mbs V = [mb] → 0 < mb → Forall (λ e, 0 < e) (nbs V) →
  ∃ V0 T0 Wr calls st',
    unmlq target side op V T C W st = Returned st'
    ∧ tiles st' = foldl (λ k c, kernel c k) (tiles st) calls
    ∧ mbs V0 = [Z.min mb (tileNb V first)]
    ∧ nbs V0 = [Z.min mb (tileNb V first)]
    ∧ tile_of V0 0 0 = tile_of V 0 first
    ∧ filter (λ c, is_trmm c) calls
      = match side with
        | Left =>
            [trmm Left 1
               {| tri_uplo := Upper; tri_diag := Unit; tri_of := Plain V0 |}
               Wr;
             trmm Left 1
               (match op with
                | NoTrans =>
                    conj_transpose_tri
                      {| tri_uplo := Upper; tri_diag := NonUnit;
                         tri_of := Plain T0 |}
                | _ => {| tri_uplo := Upper; tri_diag := NonUnit;
                          tri_of := Plain T0 |}
                end) Wr;
             trmm Left 1
               (conj_transpose_tri
                  {| tri_uplo := Upper; tri_diag := Unit;
                     tri_of := Plain V0 |}) Wr]
        | Right =>
            [trmm Right 1
               (conj_transpose_tri
                  {| tri_uplo := Upper; tri_diag := Unit;
                     tri_of := Plain V0 |}) Wr;
             trmm Right 1
               (match op with
                | NoTrans =>
                    conj_transpose_tri
                      {| tri_uplo := Upper; tri_diag := NonUnit;
                         tri_of := Plain T0 |}
                | _ => {| tri_uplo := Upper; tri_diag := NonUnit;
                          tri_of := Plain T0 |}
                end) Wr;
             trmm Right 1
               {| tri_uplo := Upper; tri_diag := Unit; tri_of := Plain V0 |}
               Wr]
        end.
Proof.
  intros Hok Eloc Em Hmb Hpos.
  rewrite (unmlq_shape_ok _ _ _ _ _ _ _ _ Hok).
  destruct Hok as (Hm & Hn & HVmt & HWmt & HWnt & HV).
  destruct side; simpl in Eloc, HV.
  - unfold unmlq_left.
    rewrite assert_true by (by apply Z.eqb_eq). rewrite Eloc.
    apply local_rows_first in Eloc.
    rewrite assert_true by (apply Z.ltb_lt; lia).
    rewrite assert_true by (apply Z.leb_le; lia).
    cbv zeta. rewrite !trapezoid_test.
    destruct (sub_tile V first mb Em ltac:(lia)) as [Em0 En0].
    assert (tileMb (sub V 0 0 first first) 0 = mb) as ->
      by (unfold tileMb; by rewrite Em0).
    assert (tileNb (sub V 0 0 first first) 0 = tileNb V first) as ->
      by (unfold tileNb at 1; by rewrite En0).
    destruct (triangle_square V first mb (tileNb V first) Em Hmb Hpos
                ltac:(lia) eq_refl) as [HmV0 HnV0].
    pose proof (triangle_tile V first mb (tileNb V first) Em Hmb Hpos
                  ltac:(lia) eq_refl) as HtV0.
    match goal with
    | |- context [trmm Left 1 {| tri_uplo := Upper; tri_diag := Unit;
                                 tri_of := Plain ?v |} ?w] =>
        set (V0 := v) in *; set (Wr := w) in *
    end.
    match goal with
    | |- context [conj_transpose_tri
                    {| tri_uplo := Upper; tri_diag := NonUnit;
                       tri_of := Plain ?t |}] =>
        set (T0 := t) in *
    end.
    exists V0, T0, Wr. eexists _, _. split; [reflexivity|].
    rewrite tiles_erase_row, tiles_run_kernels.
    split; [reflexivity|]. split; [done|]. split; [done|]. split; [done|].
    clearbody V0 T0 Wr.
    rewrite !filter_app. erewrite filter_rows_none; [|done|done].
    destruct (mb <? tileNb V first), others; reflexivity.
  - unfold unmlq_right.
    rewrite assert_true by (by apply Z.eqb_eq). rewrite Eloc.
    apply local_cols_first in Eloc.
    rewrite assert_true by (apply Z.ltb_lt; lia).
    rewrite assert_true by (apply Z.leb_le; lia).
    cbv zeta. rewrite !trapezoid_test.
    destruct (sub_tile V first mb Em ltac:(lia)) as [Em0 En0].
    assert (tileMb (sub V 0 0 first first) 0 = mb) as ->
      by (unfold tileMb; by rewrite Em0).
    assert (tileNb (sub V 0 0 first first) 0 = tileNb V first) as ->
      by (unfold tileNb at 1; by rewrite En0).
    destruct (triangle_square V first mb (tileNb V first) Em Hmb Hpos
                ltac:(lia) eq_refl) as [HmV0 HnV0].
    pose proof (triangle_tile V first mb (tileNb V first) Em Hmb Hpos
                  ltac:(lia) eq_refl) as HtV0.
    match goal with
    | |- context [trmm Right 1 {| tri_uplo := Upper; tri_diag := Unit;
                                  tri_of := Plain ?v |} ?w] =>
        set (V0 := v) in *; set (Wr := w) in *
    end.
    match goal with
    | |- context [conj_transpose_tri
                    {| tri_uplo := Upper; tri_diag := NonUnit;
                       tri_of := Plain ?t |}] =>
        set (T0 := t) in *
    end.
    exists V0, T0, Wr. eexists _, _. split; [reflexivity|].
    rewrite tiles_erase_col, tiles_run_kernels.
    split; [reflexivity|]. split; [done|]. split; [done|]. split; [done|].
    clearbody V0 T0 Wr.
    rewrite !filter_app. erewrite filter_rows_none; [|done|done].
    destruct (mb <? tileNb V first), others; reflexivity.
Qed.

Lemma unmlq_triangular_factors_witness :
  (shape_ok Right (UnmlqSpec.all_owned [5] [4; 3])
     (UnmlqSpec.checkerboard [4; 4; 2] [4; 3])
     (UnmlqSpec.checkerboard [4; 4; 2] [4; 3])
   ∧ local_indices Right (UnmlqSpec.checkerboard [4; 4; 2] [4; 3])
     = 0 :: [1]
   ∧ 0 < 5 ∧ Forall (λ e, 0 < e) [4; 3])
  ∧ ∃ V0 st',
      unmlq HostTask Right Trans
        (UnmlqSpec.all_owned [5] [4; 3]) (UnmlqSpec.all_owned [5] [4; 3])
        (UnmlqSpec.checkerboard [4; 4; 2] [4; 3])
        (UnmlqSpec.checkerboard [4; 4; 2] [4; 3]) UnmlqSpec.fresh_state
      = Returned st'
      ∧ mbs V0 = [4] ∧ nbs V0 = [4]
      ∧ tile_of V0 0 0 = tile_of (UnmlqSpec.all_owned [5] [4; 3]) 0 0.
Proof.
  assert (shape_ok Right (UnmlqSpec.all_owned [5] [4; 3])
            (UnmlqSpec.checkerboard [4; 4; 2] [4; 3])
            (UnmlqSpec.checkerboard [4; 4; 2] [4; 3])) as Hok
    by (unfold shape_ok, mt, nt; simpl; lia).
  assert (Forall (λ e, 0 < e) [4; 3]) as Hpos by (repeat constructor).
  split; [split; [exact Hok|split; [reflexivity|split; [lia|exact Hpos]]]|].
  destruct (unmlq_triangular_factors (H := UnmlqSpec.counting_kernels)
              HostTask Right Trans
              (UnmlqSpec.all_owned [5] [4; 3])
              (UnmlqSpec.all_owned [5] [4; 3])
              (UnmlqSpec.checkerboard [4; 4; 2] [4; 3])
              (UnmlqSpec.checkerboard [4; 4; 2] [4; 3])
              UnmlqSpec.fresh_state 0 [1] 5 Hok eq_refl eq_refl
              ltac:(lia) Hpos)
    as (V0 & T0 & Wr & calls & st' & E & _ & Hm & Hn & Ht & _).
  exists V0, st'. split; [exact E|]. split; [exact Hm|].
  split; [exact Hn|exact Ht].
Defined.

End UnmlqCalls.
